(** * Request store of satpass: identity, canonicalization, deduplication

    A shallow embedding of [src/satpass/slug.py] and
    [src/satpass/requests_db.py].

    Modelling conventions.
    - Python [int] is [Z]; [Iterable[int] | None] is [option (list Z)];
      [str | None] is [option string].
    - A coordinate ([float]) is modelled by its exact rational value [Q].
      Validated coordinates are finite, and every finite double is a
      rational number.
    - The [requests] table is the list of its rows in rowid order: a scan
      without [ORDER BY] visits the rows in that order, [INSERT] appends,
      [UPDATE] rewrites in place, [DELETE] removes.
    - The [selected_norad_ids] column holds NULL or the text written by
      [json.dumps] for a list of integers; that text determines the list
      and conversely, so the column is modelled as [option (list Z)].
    - [_utc_now()] is an explicit argument [now] of [upsert_request].
    - There is one connection and one writer, so [conn.commit()] does not
      change what the connection reads; commits are not modelled. *)

From Stdlib Require Import ZArith QArith Ascii DecimalString HexadecimalString.
From stdpp Require Import base list strings gmap sorting.

Local Open Scope Z_scope.

(** ** Python builtins used by the source *)

Module Py.

(** Truthiness of an optional sequence: [None] and the empty list are falsy. *)
Definition seq_of {A} (o : option (list A)) : list A := from_option id [] o.

(** [sorted(xs, key=...)]: a stable insertion sort driven by [leb]. *)
Fixpoint insert_by {A} (leb : A → A → bool) (x : A) (l : list A) : list A :=
  match l with
  | [] => [x]
  | y :: l' => if leb x y then x :: l else y :: insert_by leb x l'
  end.

Definition sorted_by {A} (leb : A → A → bool) (l : list A) : list A :=
  foldr (insert_by leb) [] l.

(** [xs[:n]] with Python's treatment of a negative bound. *)
Definition slice_to {A} (n : Z) (l : list A) : list A :=
  if n <? 0 then take (Z.to_nat (Z.of_nat (length l) + n)) l
  else take (Z.to_nat n) l.

(** [a or b] on optional strings: [None] and [""] are falsy. *)
Definition or_str (a b : option string) : option string :=
  match a with
  | Some s => if decide (s = "") then b else a
  | None => b
  end.

(** [str(n)] for an integer. *)
Definition str (n : Z) : string :=
  DecimalString.NilZero.string_of_int (Z.to_int n).

(** [sep.join(parts)]. *)
Fixpoint join (sep : string) (parts : list string) : string :=
  match parts with
  | [] => ""
  | [p] => p
  | p :: rest => p +:+ sep +:+ join sep rest
  end.

(** [s.encode("utf-8")] for the ASCII text the source hashes. *)
Definition encode (s : string) : list Z :=
  (λ c, Z.of_N (N_of_ascii c)) <$> String.list_ascii_of_string s.

(** Left padding with ["0"] up to [width] characters. *)
Definition zfill (width : nat) (s : string) : string :=
  String.concat "" (replicate (width - String.length s) "0") +:+ s.

(** [f"{n:08x}"]. *)
Definition hex08 (n : Z) : string :=
  zfill 8 (HexadecimalString.NilZero.string_of_uint (N.to_hex_uint (Z.to_N n))).

(** [min(a, b)] and [max(a, b)] on strings. *)
Definition min_str (a b : string) : string := if String.ltb b a then b else a.
Definition max_str (a b : string) : string := if String.ltb a b then b else a.

End Py.

(** ** slug.py *)

(** [_normalize_norad_ids] / [normalize_norad_ids]: the set of the ids,
    sorted ascending. *)
Definition normalize_norad_ids (norad_ids : option (list Z)) : list Z :=
  match Py.seq_of norad_ids with
  | [] => []
  | ids => Py.sorted_by Z.leb (remove_dups ids)
  end.

Definition fnv_offset : Z := 2166136261.
Definition fnv_prime : Z := 16777619.

Definition fnv_step (hash_val char : Z) : Z :=
  Z.land (Z.lxor hash_val char * fnv_prime) 0xFFFFFFFF.

Definition selection_hash (norad_ids : option (list Z)) : string :=
  let normalized := normalize_norad_ids norad_ids in
  let payload := Py.join "," (Py.str <$> normalized) in
  Py.hex08 (foldl fnv_step fnv_offset (Py.encode payload)).

Definition compute_request_feed_slug
    (location_slug bundle_slug : string) (selected_norad_ids : option (list Z)) : string :=
  match Py.seq_of selected_norad_ids with
  | [] => location_slug +:+ "--" +:+ bundle_slug
  | _ =>
      let digest := selection_hash selected_norad_ids in
      location_slug +:+ "--" +:+ bundle_slug +:+ "--sel-" +:+ digest
  end.

(** [round(value, precision)], in units of [10^-precision]: the exact value
    rounded half to even.  CPython rounds the exact binary value of the
    double correctly, and the result is the double nearest to
    [round_units / 10^precision]; for the validated range (|lat| <= 90,
    |lon| <= 180, precision between 1 and 8) formatting that double with
    [precision] digits gives back the digits of [round_units].  The
    precision is a [nat]: the configuration allows 1 to 8.  The statements
    about the table use nothing of the rendering beyond the slug being a
    function of the coordinates and the precision that starts with
    ["lat"]. *)
Definition round_half_even (q : Q) : Z :=
  let d := Z.pos (Qden q) in
  let fl := Qnum q / d in
  let r := Qnum q mod d in
  match 2 * r ?= d with
  | Lt => fl
  | Gt => fl + 1
  | Eq => if Z.even fl then fl else fl + 1
  end.

Definition round_units (value : Q) (precision : nat) : Z :=
  round_half_even (value * inject_Z (10 ^ Z.of_nat precision))%Q.

(** [f"{abs_val:.{precision}f}"] for the non-negative value
    [units / 10^precision]. *)
Definition format_fixed (units : Z) (precision : nat) : string :=
  let scale := 10 ^ Z.of_nat precision in
  Py.str (units / scale) +:+ "." +:+ Py.zfill precision (Py.str (units mod scale)).

(** [s.replace(old, new)] for single characters. *)
Fixpoint replace_char (old new : ascii) (s : string) : string :=
  match s with
  | EmptyString => EmptyString
  | String c s' => String (if decide (c = old) then new else c) (replace_char old new s')
  end.

Definition format_coordinate (value : Q) (precision : nat) : string :=
  let rounded := round_units value precision in
  let sign := if rounded <? 0 then "m" else "" in
  let abs_val := Z.abs rounded in
  if decide (precision = 0%nat) then sign +:+ Py.str abs_val
  else
    let formatted := format_fixed abs_val precision in
    let formatted := replace_char "."%char "p"%char formatted in
    sign +:+ formatted.

Definition compute_location_slug (lat lon : Q) (precision : nat) : string :=
  let lat_part := format_coordinate lat precision in
  let lon_part := format_coordinate lon precision in
  "lat" +:+ lat_part +:+ "_lon" +:+ lon_part.

(** ** requests_db.py: pure helpers *)

Definition request_key_for
    (location_slug bundle_slug : string) (selected_norad_ids : option (list Z)) : string :=
  compute_request_feed_slug location_slug bundle_slug
    (Some (normalize_norad_ids selected_norad_ids)).

(** [set(selected) == set(available)]. *)
Definition set_eqb (l k : list Z) : bool :=
  bool_decide (l ⊆ k) && bool_decide (k ⊆ l).

Definition canonicalize_selection
    (selected_norad_ids available_norad_ids : option (list Z)) : list Z :=
  let selected := normalize_norad_ids selected_norad_ids in
  let available := normalize_norad_ids available_norad_ids in
  let selected :=
    match selected, available with
    | _ :: _, _ :: _ => filter (λ norad_id, norad_id ∈ available) selected
    | _, _ => selected
    end in
  match selected, available with
  | _ :: _, _ :: _ => if set_eqb selected available then [] else selected
  | _, _ => selected
  end.

Definition default_selection
    (available_norad_ids : option (list Z)) (max_satellites : Z) : list Z :=
  match normalize_norad_ids available_norad_ids with
  | [] => []
  | available => Py.slice_to max_satellites available
  end.

(** [selection_payload]: [json.dumps] of the normalized list, identified
    with that list. *)
Definition selection_payload (norad_ids : option (list Z)) : list Z :=
  normalize_norad_ids norad_ids.

Definition location_key_for (lat lon : Q) (precision : nat) : string :=
  compute_location_slug lat lon precision.

(** ** Data model *)

(** The dataclass [RequestRecord]. *)
Record RequestRecord := {
  request_key : string;
  location_slug : string;
  location_key : string;
  bundle_slug : string;
  lat : Q;
  lon : Q;
  elevation_m : option Q;
  name : option string;
  selected_norad_ids : list Z;
  requested_by : option string;
  requested_at : option string;
  first_seen : string;
  last_seen : string;
}.

(** One row of the [requests] table (schema of [init_db]); the columns
    [location_key], [elevation_m], [name], [selected_norad_ids],
    [requested_by] and [requested_at] may hold NULL. *)
Record Row := {
  col_request_key : string;
  col_location_slug : string;
  col_location_key : option string;
  col_bundle_slug : string;
  col_lat : Q;
  col_lon : Q;
  col_elevation_m : option Q;
  col_name : option string;
  col_selected_norad_ids : option (list Z);
  col_requested_by : option string;
  col_requested_at : option string;
  col_first_seen : string;
  col_last_seen : string;
}.

(** The pydantic model [RequestedLocation] of config.py. *)
Record RequestedLocation := {
  r_slug : option string;
  r_name : option string;
  r_lat : Q;
  r_lon : Q;
  r_elevation_m : option Q;
  r_bundle_slug : string;
  r_selected_norad_ids : option (list Z);
  r_requested_by : option string;
  r_requested_at : option string;
}.

(** The connection: the table's rows in rowid order. *)
Abbreviation Conn := (list Row).

(** ["--" in slug]. *)
Fixpoint has_double_dash (s : string) : bool :=
  match s with
  | String "-" (String "-" _) => true
  | String _ s' => has_double_dash s'
  | EmptyString => false
  end.

(** [slug.split("--")[0]]: the text before the first ["--"]. *)
Fixpoint before_double_dash (s : string) : string :=
  match s with
  | String "-" (String "-" _) => ""
  | String c s' => String c (before_double_dash s')
  | EmptyString => ""
  end.

(** [RequestedLocation.resolved_location_slug]. *)
Definition resolved_location_slug (request : RequestedLocation) (precision : nat) : string :=
  match r_slug request with
  | None => compute_location_slug (r_lat request) (r_lon request) precision
  | Some slug =>
      if decide (slug = "") then
        compute_location_slug (r_lat request) (r_lon request) precision
      else if has_double_dash slug then before_double_dash slug
      else slug
  end.

(** ** SQL statements *)

Module Sql.

Definition update (where_ : Row → bool) (set_ : Row → Row) (conn : Conn) : Conn :=
  (λ row, if where_ row then set_ row else row) <$> conn.

Definition delete (where_ : Row → bool) (conn : Conn) : Conn :=
  filter (λ row, where_ row = false) conn.

Definition select (where_ : Row → bool) (conn : Conn) : list Row :=
  filter (λ row, where_ row = true) conn.

Definition fetchone (rows : list Row) : option Row := head rows.

Definition insert (row : Row) (conn : Conn) : Conn := conn ++ [row].

Definition coalesce {A} (column value : option A) : option A :=
  match column with
  | Some _ => column
  | None => value
  end.

Definition key_is (key : string) (row : Row) : bool :=
  bool_decide (col_request_key row = key).

End Sql.

(** The conversion every reader applies to a fetched row:
    [location_key=row[2] or ""] and
    [json.loads(row[8]) if row[8] else []]. *)
Definition record_of_row (row : Row) : RequestRecord := {|
  request_key := col_request_key row;
  location_slug := col_location_slug row;
  location_key := from_option id "" (col_location_key row);
  bundle_slug := col_bundle_slug row;
  lat := col_lat row;
  lon := col_lon row;
  elevation_m := col_elevation_m row;
  name := col_name row;
  selected_norad_ids := Py.seq_of (col_selected_norad_ids row);
  requested_by := col_requested_by row;
  requested_at := col_requested_at row;
  first_seen := col_first_seen row;
  last_seen := col_last_seen row;
|}.

(** [ORDER BY location_slug, bundle_slug, request_key]. *)
Definition order_by_slug_bundle_key (a b : RequestRecord) : bool :=
  match String.compare (location_slug a) (location_slug b) with
  | Lt => true
  | Gt => false
  | Eq =>
      match String.compare (bundle_slug a) (bundle_slug b) with
      | Lt => true
      | Gt => false
      | Eq => String.leb (request_key a) (request_key b)
      end
  end.

Definition list_requests (conn : Conn) : list RequestRecord :=
  Py.sorted_by order_by_slug_bundle_key (record_of_row <$> conn).

Definition get_request_by_key (conn : Conn) (key : string) : option RequestRecord :=
  record_of_row <$> Sql.fetchone (Sql.select (Sql.key_is key) conn).

Definition signature_is
    (location_key bundle_slug : string) (payload : list Z) (row : Row) : bool :=
  bool_decide (col_location_key row = Some location_key)
  && bool_decide (col_bundle_slug row = bundle_slug)
  && bool_decide (col_selected_norad_ids row = Some payload).

Definition get_request_by_signature
    (conn : Conn) (location_key bundle_slug : string)
    (selected_norad_ids : option (list Z)) : option RequestRecord :=
  let payload := selection_payload selected_norad_ids in
  record_of_row <$>
    Sql.fetchone (Sql.select (signature_is location_key bundle_slug payload) conn).

(** [WHERE location_key IS NULL OR location_key = '']. *)
Definition location_key_missing (row : Row) : bool :=
  match col_location_key row with
  | None => true
  | Some k => bool_decide (k = "")
  end.

Definition set_location_key (loc_key : string) (row : Row) : Row := {|
  col_request_key := col_request_key row;
  col_location_slug := col_location_slug row;
  col_location_key := Some loc_key;
  col_bundle_slug := col_bundle_slug row;
  col_lat := col_lat row;
  col_lon := col_lon row;
  col_elevation_m := col_elevation_m row;
  col_name := col_name row;
  col_selected_norad_ids := col_selected_norad_ids row;
  col_requested_by := col_requested_by row;
  col_requested_at := col_requested_at row;
  col_first_seen := col_first_seen row;
  col_last_seen := col_last_seen row;
|}.

(** [ensure_location_keys]: the connection afterwards and the returned count. *)
Definition ensure_location_keys (conn : Conn) (precision : nat) : Conn * Z :=
  let rows := Sql.select location_key_missing conn in
  let conn' :=
    foldl (λ conn row,
             let loc_key := location_key_for (col_lat row) (col_lon row) precision in
             Sql.update (Sql.key_is (col_request_key row)) (set_location_key loc_key) conn)
          conn rows in
  (conn', Z.of_nat (length rows)).

(** The [UPDATE] shared by the signature and the exact-key branch of
    [upsert_request]. *)
Definition touch_row
    (now : string) (name requested_by requested_at : option string)
    (location_key : string) (row : Row) : Row := {|
  col_request_key := col_request_key row;
  col_location_slug := col_location_slug row;
  col_location_key := Sql.coalesce (col_location_key row) (Some location_key);
  col_bundle_slug := col_bundle_slug row;
  col_lat := col_lat row;
  col_lon := col_lon row;
  col_elevation_m := col_elevation_m row;
  col_name := Sql.coalesce (col_name row) name;
  col_selected_norad_ids := col_selected_norad_ids row;
  col_requested_by := Sql.coalesce (col_requested_by row) requested_by;
  col_requested_at := Sql.coalesce (col_requested_at row) requested_at;
  col_first_seen := col_first_seen row;
  col_last_seen := now;
|}.

(** [upsert_request]: the connection afterwards and the returned record. *)
Definition upsert_request
    (conn : Conn) (request : RequestedLocation) (precision : nat) (now : string)
    : Conn * RequestRecord :=
  let loc_slug := resolved_location_slug request precision in
  let loc_key := location_key_for (r_lat request) (r_lon request) precision in
  let selected := normalize_norad_ids (r_selected_norad_ids request) in
  let key := request_key_for loc_slug (r_bundle_slug request) (Some selected) in
  let payload := selection_payload (Some selected) in
  let conn := fst (ensure_location_keys conn precision) in
  match get_request_by_signature conn loc_key (r_bundle_slug request)
          (Some selected) with
  | Some existing_signature =>
      let requested_by :=
        Py.or_str (requested_by existing_signature) (r_requested_by request) in
      let requested_at :=
        Py.or_str (requested_at existing_signature) (r_requested_at request) in
      let conn :=
        Sql.update (Sql.key_is (request_key existing_signature))
          (touch_row now (r_name request) requested_by requested_at loc_key) conn in
      (conn,
       {| request_key := request_key existing_signature;
          location_slug := location_slug existing_signature;
          location_key :=
            (if decide (location_key existing_signature = "") then loc_key
             else location_key existing_signature);
          bundle_slug := bundle_slug existing_signature;
          lat := lat existing_signature;
          lon := lon existing_signature;
          elevation_m := elevation_m existing_signature;
          name := Py.or_str (name existing_signature) (r_name request);
          selected_norad_ids := selected_norad_ids existing_signature;
          requested_by := requested_by;
          requested_at := requested_at;
          first_seen := first_seen existing_signature;
          last_seen := now |})
  | None =>
      let existing := Sql.fetchone (Sql.select (Sql.key_is key) conn) in
      let '(conn, first_seen, requested_by, requested_at) :=
        match existing with
        | Some existing =>
            let first_seen := col_first_seen existing in
            let requested_by :=
              Py.or_str (col_requested_by existing) (r_requested_by request) in
            let requested_at :=
              Py.or_str (col_requested_at existing) (r_requested_at request) in
            (Sql.update (Sql.key_is key)
               (touch_row now (r_name request) requested_by requested_at loc_key) conn,
             first_seen, requested_by, requested_at)
        | None =>
            let first_seen := now in
            let requested_by := r_requested_by request in
            let requested_at := r_requested_at request in
            (Sql.insert
               {| col_request_key := key;
                  col_location_slug := loc_slug;
                  col_location_key := Some loc_key;
                  col_bundle_slug := r_bundle_slug request;
                  col_lat := r_lat request;
                  col_lon := r_lon request;
                  col_elevation_m := r_elevation_m request;
                  col_name := r_name request;
                  col_selected_norad_ids := Some payload;
                  col_requested_by := requested_by;
                  col_requested_at := requested_at;
                  col_first_seen := first_seen;
                  col_last_seen := now |} conn,
             first_seen, requested_by, requested_at)
        end in
      (conn,
       {| request_key := key;
          location_slug := loc_slug;
          location_key := loc_key;
          bundle_slug := r_bundle_slug request;
          lat := r_lat request;
          lon := r_lon request;
          elevation_m := r_elevation_m request;
          name := r_name request;
          selected_norad_ids := selected;
          requested_by := requested_by;
          requested_at := requested_at;
          first_seen := first_seen;
          last_seen := now |})
  end.

(** The merge [UPDATE] shared by [dedupe_requests_by_signature] and
    [canonicalize_requests]. *)
Definition set_merged
    (merged_name merged_requested_by merged_requested_at : option string)
    (merged_first merged_last : string) (row : Row) : Row := {|
  col_request_key := col_request_key row;
  col_location_slug := col_location_slug row;
  col_location_key := col_location_key row;
  col_bundle_slug := col_bundle_slug row;
  col_lat := col_lat row;
  col_lon := col_lon row;
  col_elevation_m := col_elevation_m row;
  col_name := merged_name;
  col_selected_norad_ids := col_selected_norad_ids row;
  col_requested_by := merged_requested_by;
  col_requested_at := merged_requested_at;
  col_first_seen := merged_first;
  col_last_seen := merged_last;
|}.

(** The statement [UPDATE requests SET ... WHERE request_key = key] that
    folds [record] into the row stored under [key], as seen through
    [existing]. *)
Definition merge_into (key : string) (existing record : RequestRecord) (conn : Conn) : Conn :=
  let merged_first := Py.min_str (first_seen existing) (first_seen record) in
  let merged_last := Py.max_str (last_seen existing) (last_seen record) in
  let merged_name := Py.or_str (name existing) (name record) in
  let merged_requested_by := Py.or_str (requested_by existing) (requested_by record) in
  let merged_requested_at := Py.or_str (requested_at existing) (requested_at record) in
  Sql.update (Sql.key_is key)
    (set_merged merged_name merged_requested_by merged_requested_at merged_first merged_last)
    conn.

(** State of the loop of [dedupe_requests_by_signature]. *)
Record DedupeState := {
  dd_conn : Conn;
  dd_seen : gmap (string * string * list Z) RequestRecord;
  dd_removed : Z;
}.

Definition dedupe_step (st : DedupeState) (record : RequestRecord) : DedupeState :=
  let signature :=
    (location_key record, bundle_slug record,
     selection_payload (Some (selected_norad_ids record))) in
  match dd_seen st !! signature with
  | None =>
      {| dd_conn := dd_conn st;
         dd_seen := <[signature := record]> (dd_seen st);
         dd_removed := dd_removed st |}
  | Some existing =>
      let conn := merge_into (request_key existing) existing record (dd_conn st) in
      let conn := Sql.delete (Sql.key_is (request_key record)) conn in
      {| dd_conn := conn; dd_seen := dd_seen st; dd_removed := dd_removed st + 1 |}
  end.

(** [dedupe_requests_by_signature]: the connection afterwards and the
    returned count. *)
Definition dedupe_requests_by_signature (conn : Conn) (precision : nat) : Conn * Z :=
  let conn := fst (ensure_location_keys conn precision) in
  let records :=
    Py.sorted_by (λ a b, String.leb (first_seen a) (first_seen b)) (list_requests conn) in
  let st :=
    foldl dedupe_step {| dd_conn := conn; dd_seen := ∅; dd_removed := 0 |} records in
  (dd_conn st, dd_removed st).

(** Lines 431-437 of [canonicalize_requests]: the canonical selection
    recomputed for one record. *)
Definition canonical_selected
    (bundle_available_ids : gmap string (list Z)) (max_satellites_per_request : Z)
    (record : RequestRecord) : list Z :=
  let available := default [] (bundle_available_ids !! bundle_slug record) in
  let selected := normalize_norad_ids (Some (selected_norad_ids record)) in
  let selected :=
    match selected with
    | [] => default_selection (Some available) max_satellites_per_request
    | _ => selected
    end in
  let selected :=
    match selected with
    | [] => selected
    | _ =>
        if max_satellites_per_request <? Z.of_nat (length selected)
        then Py.slice_to max_satellites_per_request selected
        else selected
    end in
  canonicalize_selection (Some selected) (Some available).

Definition set_key_and_selection (new_key : string) (payload : list Z) (row : Row) : Row := {|
  col_request_key := new_key;
  col_location_slug := col_location_slug row;
  col_location_key := col_location_key row;
  col_bundle_slug := col_bundle_slug row;
  col_lat := col_lat row;
  col_lon := col_lon row;
  col_elevation_m := col_elevation_m row;
  col_name := col_name row;
  col_selected_norad_ids := Some payload;
  col_requested_by := col_requested_by row;
  col_requested_at := col_requested_at row;
  col_first_seen := col_first_seen row;
  col_last_seen := col_last_seen row;
|}.

(** The two [continue] tests of the loop body: does the pass write for
    this record? *)
Definition needs_rewrite
    (bundle_available_ids : gmap string (list Z)) (max_satellites_per_request : Z)
    (record : RequestRecord) : bool :=
  let canonical := canonical_selected bundle_available_ids max_satellites_per_request record in
  if decide (canonical = selected_norad_ids record) then false
  else
    let new_key :=
      request_key_for (location_slug record) (bundle_slug record) (Some canonical) in
    if decide (new_key = request_key record) then false else true.

(** One iteration of the loop of [canonicalize_requests] on the pair
    (connection, [updated]). *)
Definition canonicalize_step
    (bundle_available_ids : gmap string (list Z)) (max_satellites_per_request : Z)
    (st : Conn * Z) (record : RequestRecord) : Conn * Z :=
  let '(conn, updated) := st in
  let canonical := canonical_selected bundle_available_ids max_satellites_per_request record in
  if decide (canonical = selected_norad_ids record) then st
  else
    let new_key :=
      request_key_for (location_slug record) (bundle_slug record) (Some canonical) in
    if decide (new_key = request_key record) then st
    else
      let payload := canonical in
      match get_request_by_key conn new_key with
      | Some existing =>
          let conn := merge_into new_key existing record conn in
          let conn := Sql.delete (Sql.key_is (request_key record)) conn in
          (conn, updated + 1)
      | None =>
          let conn :=
            Sql.update (Sql.key_is (request_key record))
              (set_key_and_selection new_key payload) conn in
          (conn, updated + 1)
      end.

(** [canonicalize_requests]: the connection afterwards and the returned
    count. *)
Definition canonicalize_requests
    (conn : Conn) (bundle_available_ids : gmap string (list Z))
    (max_satellites_per_request : Z) : Conn * Z :=
  foldl (canonicalize_step bundle_available_ids max_satellites_per_request)
        (conn, 0) (list_requests conn).

(** ** Vocabulary of the statements *)

Definition keys (conn : Conn) : list string := col_request_key <$> conn.

(** What [ensure_location_keys] does to one row. *)
Definition backfill (precision : nat) (row : Row) : Row :=
  if location_key_missing row
  then set_location_key (location_key_for (col_lat row) (col_lon row) precision) row
  else row.

Definition set_last_seen (now : string) (row : Row) : Row := {|
  col_request_key := col_request_key row;
  col_location_slug := col_location_slug row;
  col_location_key := col_location_key row;
  col_bundle_slug := col_bundle_slug row;
  col_lat := col_lat row;
  col_lon := col_lon row;
  col_elevation_m := col_elevation_m row;
  col_name := col_name row;
  col_selected_norad_ids := col_selected_norad_ids row;
  col_requested_by := col_requested_by row;
  col_requested_at := col_requested_at row;
  col_first_seen := col_first_seen row;
  col_last_seen := now;
|}.

Definition with_last_seen (now : string) (record : RequestRecord) : RequestRecord := {|
  request_key := request_key record;
  location_slug := location_slug record;
  location_key := location_key record;
  bundle_slug := bundle_slug record;
  lat := lat record;
  lon := lon record;
  elevation_m := elevation_m record;
  name := name record;
  selected_norad_ids := selected_norad_ids record;
  requested_by := requested_by record;
  requested_at := requested_at record;
  first_seen := first_seen record;
  last_seen := now;
|}.

(** The columns an upsert never rewrites on an existing row. *)
Definition same_identity (row row' : Row) : Prop :=
  col_request_key row' = col_request_key row
  ∧ col_location_slug row' = col_location_slug row
  ∧ col_location_key row' = col_location_key row
  ∧ col_bundle_slug row' = col_bundle_slug row
  ∧ col_lat row' = col_lat row
  ∧ col_lon row' = col_lon row
  ∧ col_elevation_m row' = col_elevation_m row
  ∧ col_selected_norad_ids row' = col_selected_norad_ids row
  ∧ col_first_seen row' = col_first_seen row.

Global Instance Q_eq_dec : EqDecision Q.
Proof. solve_decision. Defined.

Global Instance Row_eq_dec : EqDecision Row.
Proof. solve_decision. Defined.

Global Instance RequestRecord_eq_dec : EqDecision RequestRecord.
Proof. solve_decision. Defined.

(** Write footprint between two states of the table that are related by
    updates in place and appended rows: the rows whose content differs at
    the same rowid, plus the rows added. *)
Definition rows_changed (before after : Conn) : nat :=
  length (filter (λ p, p.1 ≠ p.2) (zip before after)).

Definition rows_inserted (before after : Conn) : nat :=
  length after - length before.

Definition write_footprint (before after : Conn) : nat :=
  rows_changed before after + rows_inserted before after.

(** The four columns that decide what [canonicalize_requests] does with a
    record. *)
Definition core (record : RequestRecord) : string * string * string * list Z :=
  (request_key record, location_slug record, bundle_slug record,
   selected_norad_ids record).

(** The row an upsert leaves where it found [row]. *)
Definition touch_for
    (request : RequestedLocation) (precision : nat) (now : string) (row : Row) : Row :=
  touch_row now (r_name request)
    (Py.or_str (col_requested_by row) (r_requested_by request))
    (Py.or_str (col_requested_at row) (r_requested_at request))
    (location_key_for (r_lat request) (r_lon request) precision) row.

(** The key and the signature an upsert computes for a request. *)
Definition key_of (request : RequestedLocation) (precision : nat) : string :=
  request_key_for (resolved_location_slug request precision) (r_bundle_slug request)
    (Some (normalize_norad_ids (r_selected_norad_ids request))).

Definition signature_of (request : RequestedLocation) (precision : nat) : Row → bool :=
  signature_is (location_key_for (r_lat request) (r_lon request) precision)
    (r_bundle_slug request)
    (selection_payload (Some (normalize_norad_ids (r_selected_norad_ids request)))).

(** The row an upsert inserts when nothing matches. *)
Definition new_row (request : RequestedLocation) (precision : nat) (now : string) : Row := {|
  col_request_key := key_of request precision;
  col_location_slug := resolved_location_slug request precision;
  col_location_key := Some (location_key_for (r_lat request) (r_lon request) precision);
  col_bundle_slug := r_bundle_slug request;
  col_lat := r_lat request;
  col_lon := r_lon request;
  col_elevation_m := r_elevation_m request;
  col_name := r_name request;
  col_selected_norad_ids :=
    Some (selection_payload (Some (normalize_norad_ids (r_selected_norad_ids request))));
  col_requested_by := r_requested_by request;
  col_requested_at := r_requested_at request;
  col_first_seen := now;
  col_last_seen := now;
|}.

(** The record [upsert_request] returns from its signature branch. *)
Definition returned_existing
    (request : RequestedLocation) (precision : nat) (now : string)
    (existing : RequestRecord) : RequestRecord := {|
  request_key := request_key existing;
  location_slug := location_slug existing;
  location_key :=
    (if decide (location_key existing = "")
     then location_key_for (r_lat request) (r_lon request) precision
     else location_key existing);
  bundle_slug := bundle_slug existing;
  lat := lat existing;
  lon := lon existing;
  elevation_m := elevation_m existing;
  name := Py.or_str (name existing) (r_name request);
  selected_norad_ids := selected_norad_ids existing;
  requested_by := Py.or_str (requested_by existing) (r_requested_by request);
  requested_at := Py.or_str (requested_at existing) (r_requested_at request);
  first_seen := first_seen existing;
  last_seen := now;
|}.

(** The record [upsert_request] returns from its other two branches. *)
Definition returned_requested
    (request : RequestedLocation) (precision : nat) (now : string)
    (first : string) (by_ at_ : option string) : RequestRecord := {|
  request_key := key_of request precision;
  location_slug := resolved_location_slug request precision;
  location_key := location_key_for (r_lat request) (r_lon request) precision;
  bundle_slug := r_bundle_slug request;
  lat := r_lat request;
  lon := r_lon request;
  elevation_m := r_elevation_m request;
  name := r_name request;
  selected_norad_ids := normalize_norad_ids (r_selected_norad_ids request);
  requested_by := by_;
  requested_at := at_;
  first_seen := first;
  last_seen := now;
|}.

(** Loop invariant of [canonicalize_requests]: keys are unique in the table
    and among the records still to be visited, and each of those records
    still has its row, with the four deciding columns as fetched. *)
Definition canon_inv (todo : list RequestRecord) (conn : Conn) : Prop :=
  NoDup (keys conn)
  ∧ NoDup (request_key <$> todo)
  ∧ ∀ record, record ∈ todo →
      ∃ row, row ∈ conn ∧ core (record_of_row row) = core record.

(** A row the pass would skip, unless its selection is empty. *)
Definition settled
    (bundle_available_ids : gmap string (list Z)) (max_satellites_per_request : Z)
    (row : Row) : Prop :=
  selected_norad_ids (record_of_row row) ≠ [] →
  needs_rewrite bundle_available_ids max_satellites_per_request (record_of_row row) = false.

(** ** Scenarios *)

Definition seattle (selection : option (list Z)) : RequestedLocation := {|
  r_slug := None;
  r_name := None;
  r_lat := 47.6062;
  r_lon := -122.3321;
  r_elevation_m := Some 0%Q;
  r_bundle_slug := "stations";
  r_selected_norad_ids := selection;
  r_requested_by := None;
  r_requested_at := None;
|}.

Definition blacksburg
    (slug : string) (name requested_by : option string) (first last : string) : Row := {|
  col_request_key := slug +:+ "--stations";
  col_location_slug := slug;
  col_location_key := None;
  col_bundle_slug := "stations";
  col_lat := 37.2296;
  col_lon := -80.4139;
  col_elevation_m := Some 0%Q;
  col_name := name;
  col_selected_norad_ids := Some [];
  col_requested_by := requested_by;
  col_requested_at := None;
  col_first_seen := first;
  col_last_seen := last;
|}.

(** Three rows written before the [location_key] column existed, for the
    same coordinates under three spellings of the slug. *)
Definition legacy_conn : Conn :=
  [ blacksburg "casa" None None "2025-01-01T00:00:00Z" "2025-01-01T00:00:00Z";
    blacksburg "home" (Some "Home") (Some "alice")
      "2025-02-01T00:00:00Z" "2025-06-01T00:00:00Z";
    blacksburg "villa" None None "2025-03-01T00:00:00Z" "2025-03-01T00:00:00Z" ].

Definition weather_request (selection : list Z) : RequestedLocation := {|
  r_slug := Some "home";
  r_name := None;
  r_lat := 1;
  r_lon := 2;
  r_elevation_m := Some 0%Q;
  r_bundle_slug := "weather";
  r_selected_norad_ids := Some selection;
  r_requested_by := None;
  r_requested_at := None;
|}.

(** The table after one upsert of [weather_request selection]. *)
Definition weather_conn (selection : list Z) : Conn :=
  (upsert_request [] (weather_request selection) 4 "2026-01-01T00:00:00Z").1.

Definition blacksburg_request : RequestedLocation := {|
  r_slug := Some "home";
  r_name := Some "Home again";
  r_lat := 37.2296;
  r_lon := -80.4139;
  r_elevation_m := Some 0%Q;
  r_bundle_slug := "stations";
  r_selected_norad_ids := None;
  r_requested_by := Some "bob";
  r_requested_at := None;
|}.

(** The record that [list_requests] fetches from [weather_conn [58164; 182700]]. *)
Definition colliding_record : RequestRecord :=
  record_of_row (new_row (weather_request [58164; 182700]) 4 "2026-01-01T00:00:00Z").

(** Requests of tests/test_requests_db.py. *)
Definition test_request
    (slug name : option string) (lat lon : Q) (bundle : string)
    (selection : option (list Z)) (requested_by : option string) : RequestedLocation := {|
  r_slug := slug;
  r_name := name;
  r_lat := lat;
  r_lon := lon;
  r_elevation_m := Some 0%Q;
  r_bundle_slug := bundle;
  r_selected_norad_ids := selection;
  r_requested_by := requested_by;
  r_requested_at := None;
|}.

(** The reading of "the pass rewrites the stored selection of [record] in
    place": afterwards the row stored under the record's key carries the
    canonical selection. *)
Definition rewritten_in_place
    (conn : Conn) (bundle_available_ids : gmap string (list Z))
    (max_satellites_per_request : Z) (record : RequestRecord) : Prop :=
  ∃ row,
    row ∈ (canonicalize_requests conn bundle_available_ids max_satellites_per_request).1
    ∧ col_request_key row = request_key record
    ∧ col_selected_norad_ids row
        = Some (canonical_selected bundle_available_ids max_satellites_per_request record).

(** ** Further functions of the source *)

(** [SLUG_CHARS] and [_is_slug] of config.py. *)
Definition SLUG_CHARS : string := "abcdefghijklmnopqrstuvwxyz0123456789-_".

Definition is_slug (value : string) : bool :=
  negb (bool_decide (value = ""))
  && forallb (λ ch, bool_decide (ch ∈ String.list_ascii_of_string SLUG_CHARS))
       (String.list_ascii_of_string value).

(** The field validators of [RequestedLocation] (config.py): the model is
    accepted ([true]) or construction raises a validation error. *)
Definition validate_lat (value : Q) : bool :=
  Qle_bool (-90) value && Qle_bool value 90.

Definition validate_lon (value : Q) : bool :=
  Qle_bool (-180) value && Qle_bool value 180.

Definition validate_selected_norad_ids (value : option (list Z)) : bool :=
  match value with
  | None => true
  | Some ids => forallb (λ norad_id, negb (norad_id <=? 0)) ids
  end.

Definition validate_slug (value : option string) : bool :=
  match value with
  | None => true
  | Some slug => is_slug slug
  end.

(** Construction of a [RequestedLocation]: [None] stands for the
    validation error. *)
Definition validated (request : RequestedLocation) : option RequestedLocation :=
  if validate_slug (r_slug request)
     && validate_lat (r_lat request)
     && validate_lon (r_lon request)
     && validate_selected_norad_ids (r_selected_norad_ids request)
  then Some request else None.

(** [compute_feed_slug] of slug.py. *)
Definition compute_feed_slug (lat lon : Q) (bundle_slug : string) (precision : nat) : string :=
  let location_slug := compute_location_slug lat lon precision in
  location_slug +:+ "--" +:+ bundle_slug.

(** The request that [load_requests_from_db] builds from one record. *)
Definition requested_of_record (record : RequestRecord) : RequestedLocation := {|
  r_slug := Some (location_slug record);
  r_name := name record;
  r_lat := lat record;
  r_lon := lon record;
  r_elevation_m := elevation_m record;
  r_bundle_slug := bundle_slug record;
  r_selected_norad_ids := Some (selected_norad_ids record);
  r_requested_by := requested_by record;
  r_requested_at := requested_at record;
|}.

(** [load_requests_from_db]: the requests in the order of [list_requests],
    or [None] when the construction of one of them raises. *)
Definition load_requests_from_db (conn : Conn) : option (list RequestedLocation) :=
  mapM (λ record, validated (requested_of_record record)) (list_requests conn).

(** [migrate_yaml_requests], given what [load_requests] returns for the
    directory (nothing when the directory or its yaml files are missing),
    each request paired with the time its upsert reads from the clock: the
    connection afterwards and the returned records. *)
Definition migrate_yaml_requests
    (conn : Conn) (precision : nat) (loaded : list (RequestedLocation * string))
    : Conn * list RequestRecord :=
  foldl (λ st req,
           let result := upsert_request st.1 req.1 precision req.2 in
           (result.1, st.2 ++ [result.2]))
        (conn, []) loaded.

(** The signature that [dedupe_requests_by_signature] computes for a
    record. *)
Definition signature_of_record (record : RequestRecord) : string * string * list Z :=
  (location_key record, bundle_slug record,
   selection_payload (Some (selected_norad_ids record))).


(** A request that an upsert at [precision] would resolve to a stored row:
    some row carries its signature, or a row is stored under its key. *)
Definition recognised (request : RequestedLocation) (precision : nat) (conn : Conn) : Prop :=
  (∃ row, row ∈ conn ∧ signature_of request precision row = true)
  ∨ key_of request precision ∈ keys conn.

(** A sequence of calls of [upsert_request], each with its request, its
    precision and the time it reads from the clock. *)
Definition upsert_all (conn : Conn) (calls : list (RequestedLocation * nat * string)) : Conn :=
  foldl (λ conn call, (upsert_request conn call.1.1 call.1.2 call.2).1) conn calls.


(** The signature of a stored row, as [dedupe_requests_by_signature] sees
    it through [list_requests]. *)
Definition row_signature (row : Row) : string * string * list Z :=
  signature_of_record (record_of_row row).

(** Loop invariant of [dedupe_requests_by_signature], with [total] rows at
    the start: keys are unique in the table and among the records still to
    be visited; each of those still has its row; every other row is the
    one remembered in [seen] for its signature; what [seen] remembers is
    no longer to be visited; each removal took one row. *)
Definition dedupe_inv (total : nat) (todo : list RequestRecord) (st : DedupeState) : Prop :=
  NoDup (keys (dd_conn st))
  ∧ NoDup (request_key <$> todo)
  ∧ (∀ record, record ∈ todo →
       ∃ row, row ∈ dd_conn st
              ∧ col_request_key row = request_key record
              ∧ row_signature row = signature_of_record record)
  ∧ (∀ row, row ∈ dd_conn st →
       col_request_key row ∈ request_key <$> todo
       ∨ ∃ record, dd_seen st !! row_signature row = Some record
                   ∧ request_key record = col_request_key row)
  ∧ (∀ signature record, dd_seen st !! signature = Some record →
       request_key record ∉ request_key <$> todo)
  ∧ dd_removed st + Z.of_nat (length (dd_conn st)) = Z.of_nat total.


(** The sort key of [dedupe_requests_by_signature]. *)
Definition first_seen_leb (a b : RequestRecord) : bool :=
  String.leb (first_seen a) (first_seen b).

(** What the loop of [dedupe_requests_by_signature] keeps true about
    [first_seen], with [visited] the records already visited: what [seen]
    remembers under a signature was visited, has that signature and is not
    later than any record still to be visited; every row still shows the
    [first_seen] that was fetched for its key; and for every visited record
    [seen] remembers a record of its signature that is not later. *)
Definition dedupe_order_inv
    (visited todo : list RequestRecord) (st : DedupeState) : Prop :=
  (∀ signature record, dd_seen st !! signature = Some record →
     record ∈ visited
     ∧ signature_of_record record = signature
     ∧ ∀ record', record' ∈ todo → first_seen_leb record record' = true)
  ∧ (∀ row record, row ∈ dd_conn st → record ∈ visited ++ todo →
       col_request_key row = request_key record →
       col_first_seen row = first_seen record)
  ∧ (∀ record, record ∈ visited →
       ∃ kept, dd_seen st !! signature_of_record record = Some kept
               ∧ first_seen_leb kept record = true).


(** The columns that place a request: [canonicalize_requests] and
    [dedupe_requests_by_signature] write none of them. *)
Definition same_location (row row' : Row) : Prop :=
  col_location_slug row' = col_location_slug row
  ∧ col_location_key row' = col_location_key row
  ∧ col_bundle_slug row' = col_bundle_slug row
  ∧ col_lat row' = col_lat row
  ∧ col_lon row' = col_lon row
  ∧ col_elevation_m row' = col_elevation_m row.


(** The characters of a derived slug: those of [SLUG_CHARS] other than the
    dash. *)
Definition slug_safe (ch : ascii) : Prop :=
  ch ∈ String.list_ascii_of_string SLUG_CHARS ∧ ch ≠ "-"%char.


(** The invariant of a stored row: its key is the key derived from its own
    location slug, bundle and selection, and its selection column holds a
    strictly ascending list. *)
Definition key_consistent (row : Row) : Prop :=
  col_request_key row
    = request_key_for (col_location_slug row) (col_bundle_slug row)
        (col_selected_norad_ids row).

Definition row_invariant (row : Row) : Prop :=
  key_consistent row
  ∧ ∃ ids, col_selected_norad_ids row = Some ids ∧ StronglySorted Z.lt ids.


(** A row from which [load_requests_from_db] can build its request: the
    construction of the [RequestedLocation] does not raise. *)
Definition loadable (row : Row) : Prop :=
  validated (requested_of_record (record_of_row row))
    = Some (requested_of_record (record_of_row row)).

(** [ensure_db_loaded], on the connection that [init_db] opens and with
    what [load_requests] returns for the directory: the connection
    afterwards and the returned requests ([None] when the construction of
    one of them raises). *)
Definition ensure_db_loaded
    (conn : Conn) (precision : nat) (loaded : list (RequestedLocation * string))
    : Conn * option (list RequestedLocation) :=
  let conn := (migrate_yaml_requests conn precision loaded).1 in
  let conn := (ensure_location_keys conn precision).1 in
  (conn, load_requests_from_db conn).


(** ** seed.py *)

(** The fields of [Bundle] (config.py) that [seed_requests] reads. *)
Record Bundle := {
  b_slug : string;
  b_kind : string;
  b_norad_ids : list Z;
}.

(** [{bundle.slug: bundle for bundle in config.bundles}]. *)
Definition bundle_map (bundles : list Bundle) : gmap string Bundle :=
  foldl (λ m bundle, <[b_slug bundle := bundle]> m) ∅ bundles.

(** [{bundle.slug: bundle.norad_ids for bundle in config.bundles
      if bundle.kind == "satellite" and bundle.norad_ids}]. *)
Definition available_ids_map (bundles : list Bundle) : gmap string (list Z) :=
  foldl (λ m bundle,
           if decide (b_kind bundle = "satellite") then
             match b_norad_ids bundle with
             | [] => m
             | ids => <[b_slug bundle := ids]> m
             end
           else m)
        ∅ bundles.

(** Lines 87-99 of [seed_requests]: the selection stored for one entry of
    the seed file, [planetary] standing for [bundle.kind == "planetary"];
    [None] is the [ConfigError]. *)
Definition seed_selection
    (planetary : bool) (available_ids : list Z) (selected_ids : option (list Z))
    (max_sats : Z) : option (list Z) :=
  if planetary then
    match Py.seq_of selected_ids with
    | [] => Some []
    | _ => None
    end
  else
    let selected_ids :=
      match Py.seq_of selected_ids with
      | [] => default_selection (Some available_ids) max_sats
      | ids => ids
      end in
    let selected_ids :=
      match selected_ids with
      | [] => selected_ids
      | _ =>
          if max_sats <? Z.of_nat (length selected_ids)
          then Py.slice_to max_sats selected_ids
          else selected_ids
      end in
    Some (canonicalize_selection (Some selected_ids) (Some available_ids)).

(** The body of the loop of [seed_requests] up to the construction of the
    [RequestedLocation]; [None] is the [ConfigError] or the validation
    error.  An entry of the seed file ([SeedRequest]) has the fields of a
    [RequestedLocation] and no validators of its own. *)
Definition seed_request
    (bundles : list Bundle) (max_sats : Z) (precision : nat) (seed : RequestedLocation)
    : option RequestedLocation :=
  match bundle_map bundles !! r_bundle_slug seed with
  | None => None
  | Some bundle =>
      let slug :=
        match r_slug seed with
        | None => compute_location_slug (r_lat seed) (r_lon seed) precision
        | Some slug =>
            if decide (slug = "")
            then compute_location_slug (r_lat seed) (r_lon seed) precision
            else slug
        end in
      let available_ids := default [] (available_ids_map bundles !! r_bundle_slug seed) in
      match seed_selection (bool_decide (b_kind bundle = "planetary")) available_ids
              (r_selected_norad_ids seed) max_sats with
      | None => None
      | Some canonical_selected =>
          validated {|
            r_slug := Some slug;
            r_name := r_name seed;
            r_lat := r_lat seed;
            r_lon := r_lon seed;
            r_elevation_m := r_elevation_m seed;
            r_bundle_slug := r_bundle_slug seed;
            r_selected_norad_ids := Some canonical_selected;
            r_requested_by := r_requested_by seed;
            r_requested_at := r_requested_at seed;
          |}
      end
  end.

(** The loop of [seed_requests], each entry paired with the time its upsert
    reads from the clock: the connection it leaves and [inserted], or
    [None] when an entry raises (what was upserted before stays). *)
Fixpoint seed_loop
    (bundles : list Bundle) (max_sats : Z) (precision : nat)
    (conn : Conn) (inserted : Z) (seeds : list (RequestedLocation * string))
    : Conn * option Z :=
  match seeds with
  | [] => (conn, Some inserted)
  | seed :: rest =>
      match seed_request bundles max_sats precision seed.1 with
      | None => (conn, None)
      | Some request =>
          seed_loop bundles max_sats precision
            (upsert_request conn request precision seed.2).1 (inserted + 1) rest
      end
  end.

(** [seed_requests], on the connection to the database at [db_path] (the
    empty table after a reset): the connection afterwards and the pair
    [(inserted, total)] of the returned [SeedResult]. *)
Definition seed_requests
    (bundles : list Bundle) (max_sats : Z) (precision : nat) (reset : bool)
    (conn : Conn) (seeds : list (RequestedLocation * string))
    : Conn * option (Z * Z) :=
  let conn := if reset then [] else conn in
  let result := seed_loop bundles max_sats precision conn 0 seeds in
  (result.1, (λ inserted, (inserted, Z.of_nat (length seeds))) <$> result.2).


(** ** build.py *)

(** Lines 219-223 of [build_all]: the requests loaded before the feeds are
    built, given what [load_requests] returns for the requests directory. *)
Definition build_all_load_requests
    (conn : Conn) (precision : nat) (loaded : list (RequestedLocation * string))
    : Conn * option (list RequestedLocation) :=
  let conn := (migrate_yaml_requests conn precision loaded).1 in
  let conn := (ensure_location_keys conn precision).1 in
  let conn := (dedupe_requests_by_signature conn precision).1 in
  (conn, load_requests_from_db conn).

(** Lines 305-313 of [build_all]: the canonicalization once the available
    ids of the bundles are known, and the reload. *)
Definition build_all_canonicalize
    (conn : Conn) (bundle_available_ids : gmap string (list Z))
    (max_satellites_per_request : Z) (precision : nat)
    : Conn * option (list RequestedLocation) :=
  let conn := (canonicalize_requests conn bundle_available_ids max_satellites_per_request).1 in
  let conn := (dedupe_requests_by_signature conn precision).1 in
  (conn, load_requests_from_db conn).


(** The stored records for a request: the rows that carry its signature at
    the given precision or, when there is none, the rows under its key;
    the two lookups of [upsert_request], in their order. *)
Definition stored_for (request : RequestedLocation) (precision : nat) (conn : Conn)
    : list Row :=
  match Sql.select (signature_of request precision) conn with
  | [] => Sql.select (Sql.key_is (key_of request precision)) conn
  | rows => rows
  end.

(** * Properties *)

(** ** Sorting and normalization *)

Section sorted_by.
Context {A : Type} (leb : A → A → bool).

Lemma insert_by_Permutation a l : Py.insert_by leb a l ≡ₚ a :: l.
Proof.
  induction l as [|y l IH]; simpl; [done|].
  destruct (leb a y); [done|]. rewrite IH. apply Permutation_swap.
Qed.

Lemma sorted_by_Permutation l : Py.sorted_by leb l ≡ₚ l.
Proof.
  induction l as [|a l IH]; simpl; [done|].
  rewrite insert_by_Permutation. by rewrite IH.
Qed.

Lemma elem_of_sorted_by x l : x ∈ Py.sorted_by leb l ↔ x ∈ l.
Proof. by rewrite sorted_by_Permutation. Qed.

End sorted_by.

Lemma StronglySorted_lt_NoDup (l : list Z) : StronglySorted Z.lt l → NoDup l.
Proof.
  induction 1 as [|x l _ IH Hx]; constructor; [|done].
  intros Hin. rewrite Forall_forall in Hx. specialize (Hx _ Hin). lia.
Qed.

Lemma insert_by_lt_sorted (a : Z) l :
  StronglySorted Z.lt l → a ∉ l → StronglySorted Z.lt (Py.insert_by Z.leb a l).
Proof.
  induction 1 as [|y l Hl IH Hy]; intros Ha; simpl.
  - repeat constructor.
  - apply not_elem_of_cons in Ha as [Hay Ha].
    destruct (Z.leb_spec a y).
    + constructor; [by constructor|].
      constructor; [lia|]. eapply Forall_impl; [done|]. simpl. lia.
    + constructor; [by apply IH|].
      rewrite Forall_forall. intros x Hx.
      rewrite insert_by_Permutation in Hx. apply elem_of_cons in Hx as [->|Hx]; [lia|].
      rewrite Forall_forall in Hy. by apply Hy.
Qed.

Lemma sorted_by_lt_sorted (l : list Z) :
  NoDup l → StronglySorted Z.lt (Py.sorted_by Z.leb l).
Proof.
  induction 1 as [|a l Ha _ IH]; simpl; [constructor|].
  apply insert_by_lt_sorted; [done|]. by rewrite elem_of_sorted_by.
Qed.

Lemma sorted_lt_ext (l1 l2 : list Z) :
  StronglySorted Z.lt l1 → StronglySorted Z.lt l2 →
  (∀ x, x ∈ l1 ↔ x ∈ l2) → l1 = l2.
Proof.
  intros H1 H2 Hel.
  assert (AntiSymm (=) Z.lt) by (intros x y ??; lia).
  apply (StronglySorted_unique Z.lt); [done..|].
  apply NoDup_Permutation; auto using StronglySorted_lt_NoDup.
Qed.

Lemma normalize_sorted ids : StronglySorted Z.lt (normalize_norad_ids ids).
Proof.
  unfold normalize_norad_ids. destruct (Py.seq_of ids) as [|x l]; [constructor|].
  apply sorted_by_lt_sorted, NoDup_remove_dups.
Qed.

Lemma elem_of_normalize ids x : x ∈ normalize_norad_ids ids ↔ x ∈ Py.seq_of ids.
Proof.
  unfold normalize_norad_ids. destruct (Py.seq_of ids) as [|y l]; [done|].
  by rewrite elem_of_sorted_by, elem_of_remove_dups.
Qed.

Lemma normalize_nil_iff ids : normalize_norad_ids ids = [] ↔ Py.seq_of ids = [].
Proof.
  split.
  - intros Hn. destruct (Py.seq_of ids) as [|y l] eqn:E; [done|].
    assert (y ∈ normalize_norad_ids ids) as Hy
      by (rewrite elem_of_normalize, E; left).
    rewrite Hn in Hy. by apply elem_of_nil in Hy.
  - unfold normalize_norad_ids. by intros ->.
Qed.

Lemma normalize_fixed (l : list Z) :
  StronglySorted Z.lt l → normalize_norad_ids (Some l) = l.
Proof.
  intros Hl. apply sorted_lt_ext; [apply normalize_sorted|done|].
  intros x. by rewrite elem_of_normalize.
Qed.

Lemma normalize_idemp ids :
  normalize_norad_ids (Some (normalize_norad_ids ids)) = normalize_norad_ids ids.
Proof. apply normalize_fixed, normalize_sorted. Qed.

Lemma normalize_ext ids1 ids2 :
  (∀ x, x ∈ Py.seq_of ids1 ↔ x ∈ Py.seq_of ids2) →
  normalize_norad_ids ids1 = normalize_norad_ids ids2.
Proof.
  intros Hel. apply sorted_lt_ext; try apply normalize_sorted.
  intros x. by rewrite !elem_of_normalize.
Qed.

Lemma filter_lt_sorted (P : Z → Prop) `{!∀ x, Decision (P x)} (l : list Z) :
  StronglySorted Z.lt l → StronglySorted Z.lt (filter P l).
Proof.
  induction 1 as [|x l _ IH Hx]; [constructor|].
  rewrite filter_cons. destruct (decide (P x)); [|done].
  constructor; [done|]. rewrite Forall_forall in Hx. rewrite Forall_forall.
  intros y [_ Hy]%list_elem_of_filter. by apply Hx.
Qed.

Lemma set_eqb_sorted (l k : list Z) :
  StronglySorted Z.lt l → StronglySorted Z.lt k →
  set_eqb l k = true ↔ l = k.
Proof.
  intros Hl Hk. unfold set_eqb.
  rewrite andb_true_iff, !bool_decide_eq_true. split.
  - intros [H1 H2]. apply sorted_lt_ext; [done..|]. intros x. split; auto.
  - by intros ->.
Qed.

(** The selection that [canonicalize_selection] works with once both
    arguments are non-empty: the ids of [selected] that are available. *)
Lemma canonicalize_selection_nonempty selected available :
  normalize_norad_ids selected ≠ [] → normalize_norad_ids available ≠ [] →
  canonicalize_selection selected available =
    let inter :=
      filter (λ norad_id, norad_id ∈ normalize_norad_ids available)
             (normalize_norad_ids selected) in
    if decide (inter = normalize_norad_ids available) then [] else inter.
Proof.
  intros Hs Ha. unfold canonicalize_selection.
  pose proof (normalize_sorted selected) as Hss.
  pose proof (normalize_sorted available) as Hsa.
  destruct (normalize_norad_ids selected) as [|s sel] eqn:Es; [done|].
  destruct (normalize_norad_ids available) as [|a av] eqn:Ea; [done|].
  cbv zeta.
  set (inter := filter _ (s :: sel)).
  assert (StronglySorted Z.lt inter) as Hsi by by apply filter_lt_sorted.
  destruct inter as [|i inter'] eqn:Ei.
  - by rewrite decide_False.
  - destruct (set_eqb (i :: inter') (a :: av)) eqn:Eq.
    + apply set_eqb_sorted in Eq; [|done..]. by rewrite decide_True.
    + rewrite decide_False; [done|]. intros Heq.
      apply (set_eqb_sorted _ _ Hsi Hsa) in Heq. congruence.
Qed.

(** C8. The request key is a function of the location slug, the bundle slug
    and the normalized selection alone: it is [location_slug--bundle_slug]
    when the normalized selection is empty and
    [location_slug--bundle_slug--sel-<fingerprint>] otherwise, where the
    fingerprint is [selection_hash] of the normalized selection; two
    selections with the same normal form give the same key, and
    [compute_request_feed_slug] agrees with [request_key_for]. *)
Theorem request_key_deterministic location_slug bundle_slug selection :
  (normalize_norad_ids selection = [] →
     request_key_for location_slug bundle_slug selection
       = location_slug +:+ "--" +:+ bundle_slug)
  ∧ (normalize_norad_ids selection ≠ [] →
     request_key_for location_slug bundle_slug selection
       = location_slug +:+ "--" +:+ bundle_slug +:+ "--sel-"
           +:+ selection_hash (Some (normalize_norad_ids selection)))
  ∧ (∀ selection',
       normalize_norad_ids selection' = normalize_norad_ids selection →
       request_key_for location_slug bundle_slug selection'
         = request_key_for location_slug bundle_slug selection)
  ∧ compute_request_feed_slug location_slug bundle_slug selection
      = request_key_for location_slug bundle_slug selection.
Proof.
  unfold request_key_for, compute_request_feed_slug. repeat split.
  - by intros ->.
  - intros Hne. simpl. by destruct (normalize_norad_ids selection).
  - by intros sel' ->.
  - simpl. destruct (Py.seq_of selection) as [|x l] eqn:E.
    + apply normalize_nil_iff in E. by rewrite E.
    + destruct (normalize_norad_ids selection) as [|y k] eqn:En.
      { apply normalize_nil_iff in En. congruence. }
      unfold selection_hash. by rewrite <- En, normalize_idemp.
Qed.

Lemma request_key_deterministic_witness :
  normalize_norad_ids (Some [33591; 25544; 25544]) = normalize_norad_ids (Some [25544; 33591])
  ∧ request_key_for "lat47p6062_lonm122p3321" "stations" (Some [33591; 25544; 25544])
      = request_key_for "lat47p6062_lonm122p3321" "stations" (Some [25544; 33591])
  ∧ request_key_for "lat47p6062_lonm122p3321" "stations" (Some [25544; 33591])
      = "lat47p6062_lonm122p3321--stations--sel-"
          +:+ selection_hash (Some (normalize_norad_ids (Some [25544; 33591])))
  ∧ request_key_for "lat47p6062_lonm122p3321" "stations" None
      = "lat47p6062_lonm122p3321--stations".
Proof.
  destruct (request_key_deterministic "lat47p6062_lonm122p3321" "stations"
              (Some [25544; 33591])) as (_ & Hsel & Hdet & _).
  destruct (request_key_deterministic "lat47p6062_lonm122p3321" "stations" None)
    as (Hnil & _).
  split; [vm_compute; reflexivity|]. split; [|split].
  - apply Hdet. vm_compute. reflexivity.
  - rewrite Hsel; [reflexivity|]. vm_compute. discriminate.
  - rewrite Hnil; reflexivity.
Defined.

(** C9. When the selected and the available list are both non-empty after
    normalization, [canonicalize_selection] returns the ids of the
    normalized selection that are available, in ascending order, unless
    these are all of the available ids, in which case it returns the empty
    selection; selecting exactly the available set gives the empty
    selection. *)
Theorem canonicalize_selection_intersection selected available :
  normalize_norad_ids selected ≠ [] → normalize_norad_ids available ≠ [] →
  let result := canonicalize_selection selected available in
  ((∀ x, x ∈ Py.seq_of available → x ∈ Py.seq_of selected) → result = [])
  ∧ (¬ (∀ x, x ∈ Py.seq_of available → x ∈ Py.seq_of selected) →
       StronglySorted Z.lt result
       ∧ ∀ x, x ∈ result ↔ x ∈ Py.seq_of selected ∧ x ∈ Py.seq_of available)
  ∧ (normalize_norad_ids selected = normalize_norad_ids available → result = []).
Proof.
  intros Hs Ha result. unfold result.
  rewrite canonicalize_selection_nonempty by done. cbv zeta.
  set (inter := filter _ _).
  assert (StronglySorted Z.lt inter) as Hsi
    by apply filter_lt_sorted, normalize_sorted.
  assert (∀ x, x ∈ inter ↔ x ∈ Py.seq_of selected ∧ x ∈ Py.seq_of available) as Hel.
  { intros x. unfold inter. rewrite list_elem_of_filter, !elem_of_normalize. tauto. }
  assert (inter = normalize_norad_ids available
          ↔ ∀ x, x ∈ Py.seq_of available → x ∈ Py.seq_of selected) as Hfull.
  { split.
    - intros Heq x Hx. rewrite <- elem_of_normalize, <- Heq in Hx.
      apply Hel in Hx. tauto.
    - intros Hsub. apply sorted_lt_ext; [done|apply normalize_sorted|].
      intros x. rewrite Hel, elem_of_normalize.
      split; [tauto|]. intros Hx. split; [by apply Hsub|done]. }
  split; [|split].
  - intros Hsub. apply Hfull in Hsub. by rewrite decide_True.
  - intros Hnsub. rewrite <- Hfull in Hnsub. by rewrite decide_False.
  - intros Heq. rewrite decide_True; [done|]. apply Hfull.
    intros x. by rewrite <- !elem_of_normalize, Heq.
Qed.

Lemma canonicalize_selection_intersection_witness :
  normalize_norad_ids (Some [3; 1; 2; 2]) ≠ []
  ∧ normalize_norad_ids (Some [2; 3; 1]) ≠ []
  ∧ canonicalize_selection (Some [3; 1; 2; 2]) (Some [2; 3; 1]) = [].
Proof.
  assert (normalize_norad_ids (Some [3; 1; 2; 2]) ≠ []) as Hs
    by (vm_compute; discriminate).
  assert (normalize_norad_ids (Some [2; 3; 1]) ≠ []) as Ha
    by (vm_compute; discriminate).
  split; [exact Hs|]. split; [exact Ha|].
  destruct (canonicalize_selection_intersection _ _ Hs Ha) as (_ & _ & Hfull).
  apply Hfull. vm_compute. reflexivity.
Defined.

Lemma canonicalize_selection_no_available selected available :
  Py.seq_of available = [] →
  canonicalize_selection selected available = normalize_norad_ids selected.
Proof.
  intros Ha%normalize_nil_iff. unfold canonicalize_selection. rewrite Ha.
  by destruct (normalize_norad_ids selected).
Qed.

Lemma canonicalize_selection_sublist selected available :
  canonicalize_selection selected available `sublist_of` normalize_norad_ids selected.
Proof.
  destruct (decide (normalize_norad_ids selected = [])) as [Es|Es].
  { unfold canonicalize_selection. by rewrite Es. }
  destruct (decide (normalize_norad_ids available = [])) as [Ea|Ea].
  { rewrite canonicalize_selection_no_available; [done|].
    by apply normalize_nil_iff. }
  rewrite canonicalize_selection_nonempty by done. cbv zeta.
  case_decide; [apply sublist_nil_l|apply sublist_filter].
Qed.

Lemma sublist_lt_sorted (l k : list Z) :
  l `sublist_of` k → StronglySorted Z.lt k → StronglySorted Z.lt l.
Proof.
  induction 1 as [|x l k Hsub IH|x l k Hsub IH]; intros Hk; [done|..].
  - apply StronglySorted_inv in Hk as [Hk Hx]. constructor; [by apply IH|].
    rewrite Forall_forall in Hx. rewrite Forall_forall. intros y Hy. apply Hx.
    by apply (elem_of_sublist l k y).
  - apply StronglySorted_inv in Hk as [Hk _]. by apply IH.
Qed.

Lemma canonicalize_selection_sorted selected available :
  StronglySorted Z.lt (canonicalize_selection selected available).
Proof.
  eapply sublist_lt_sorted; [apply canonicalize_selection_sublist|].
  apply normalize_sorted.
Qed.

(** C10. When the available list is empty or missing,
    [canonicalize_selection] returns the normalized selection unchanged; for
    all arguments its result is strictly ascending, hence free of
    duplicates, and is a sub-list of the normalized selection. *)
Theorem canonicalize_selection_normalized selected available :
  (Py.seq_of available = [] →
     canonicalize_selection selected available = normalize_norad_ids selected)
  ∧ StronglySorted Z.lt (canonicalize_selection selected available)
  ∧ NoDup (canonicalize_selection selected available)
  ∧ canonicalize_selection selected available `sublist_of` normalize_norad_ids selected.
Proof.
  split; [apply canonicalize_selection_no_available|].
  split; [apply canonicalize_selection_sorted|].
  split; [|apply canonicalize_selection_sublist].
  apply StronglySorted_lt_NoDup, canonicalize_selection_sorted.
Qed.

Lemma canonicalize_selection_normalized_witness :
  Py.seq_of (@None (list Z)) = []
  ∧ canonicalize_selection (Some [7; 3; 7]) None = normalize_norad_ids (Some [7; 3; 7]).
Proof.
  split; [reflexivity|].
  destruct (canonicalize_selection_normalized (Some [7; 3; 7]) None) as (Hempty & _).
  apply Hempty. reflexivity.
Defined.

(** ** Scenarios evaluated *)

(** The slugs of the docstrings of slug.py. *)
Example compute_location_slug_docstring :
  compute_location_slug 40.7128 (-74.0060) 4 = "lat40p7128_lonm74p0060"
  ∧ compute_location_slug 47.6062 (-122.3321) 4 = "lat47p6062_lonm122p3321"
  ∧ format_coordinate (-0.1234) 4 = "m0p1234".
Proof. by vm_compute. Qed.

(** [test_canonicalize_requests_applies_default_selection] and
    [test_canonicalize_requests_drops_unavailable_ids] of the repository. *)
Example canonicalize_requests_tests :
  (canonicalize_requests (weather_conn []) {[ "weather" := [5; 1; 3; 2] ]} 2).2 = 1
  ∧ col_selected_norad_ids <$>
      (canonicalize_requests (weather_conn []) {[ "weather" := [5; 1; 3; 2] ]} 2).1
    = [Some [1; 2]]
  ∧ col_selected_norad_ids <$>
      (canonicalize_requests (weather_conn [1; 4]) {[ "weather" := [1; 2; 3] ]} 12).1
    = [Some [1]]
  ∧ keys (canonicalize_requests (weather_conn [1; 4]) {[ "weather" := [1; 2; 3] ]} 12).1
    = [request_key_for "home" "weather" (Some [1])].
Proof. by vm_compute. Qed.

(** [test_upsert_dedupes_requests], [test_upsert_dedupes_by_location_key],
    [test_upsert_keeps_distinct_requests] and
    [test_canonicalize_requests_collapses_full_selection] of the
    repository. *)
Example upsert_request_tests :
  let seattle_iss :=
    test_request (Some "lat47p6062_lonm122p3321") (Some "Seattle") 47.6062 (-122.3321)
      "stations" (Some [25544; 25544]) (Some "tester") in
  let custom :=
    test_request (Some "custom-slug") (Some "Custom") 37.2296 (-80.4139)
      "stations" (Some [25544]) None in
  let derived :=
    test_request (Some "lat37p2296_lonm80p4139") (Some "Custom") 37.2296 (-80.4139)
      "stations" (Some [25544]) None in
  let nyc :=
    test_request (Some "lat40p7128_lonm74p0060") (Some "NYC") 40.7128 (-74.0060)
      "stations" (Some [25544]) None in
  let seattle_one :=
    test_request (Some "lat47p6062_lonm122p3321") (Some "Seattle") 47.6062 (-122.3321)
      "iss" (Some [25544]) None in
  let twice request request' :=
    let first := upsert_request [] request 4 "2026-01-01T00:00:00Z" in
    let second := upsert_request first.1 request' 4 "2026-01-02T00:00:00Z" in
    (length second.1, request_key first.2, request_key second.2) in
  (twice seattle_iss seattle_iss).1.1 = 1%nat
  ∧ (twice seattle_iss seattle_iss).1.2 = (twice seattle_iss seattle_iss).2
  ∧ (twice custom derived).1.1 = 1%nat
  ∧ (twice custom derived).1.2 = (twice custom derived).2
  ∧ (twice nyc seattle_one).1.1 = 2%nat
  ∧ (let conn := (upsert_request [] seattle_one 4 "2026-01-01T00:00:00Z").1 in
     let result := canonicalize_requests conn {[ "iss" := [25544] ]} 12 in
     result.2 = 1
     ∧ col_selected_norad_ids <$> result.1 = [Some []]
     ∧ keys result.1 = [request_key_for "lat47p6062_lonm122p3321" "iss" (Some [])]).
Proof. by vm_compute. Qed.

(** C2, as stated, fails: after the two upserts of the scenario the table
    does not consist of a single row with the empty selection. *)
Lemma seattle_not_single_record :
  ¬ ∃ row,
      (upsert_request
         (upsert_request [] (seattle (Some [])) 4 "2026-01-01T00:00:00Z").1
         (seattle (Some [25544])) 4 "2026-01-02T00:00:00Z").1 = [row]
      ∧ col_selected_norad_ids row = Some [].
Proof.
  intros (row & Hconn & _). apply (f_equal length) in Hconn.
  vm_compute in Hconn. discriminate.
Qed.

(** C1, as stated, fails: the record stored by one upsert of the selection
    [58164, 182700] has the canonical selection [58164] under the
    availability [58164, 25544]; both selections have the fingerprint
    [bfd20b69], so the derived key equals the current key, and the pass
    leaves the row as it is and counts nothing. *)
Lemma colliding_selection_not_rewritten :
  let conn := weather_conn [58164; 182700] in
  let available : gmap string (list Z) := {[ "weather" := [58164; 25544] ]} in
  ∃ record,
    list_requests conn = [record]
    ∧ canonical_selected available 12 record = [58164]
    ∧ selected_norad_ids record = [58164; 182700]
    ∧ request_key_for (location_slug record) (bundle_slug record)
        (Some (canonical_selected available 12 record)) = request_key record
    ∧ canonicalize_requests conn available 12 = (conn, 0)
    ∧ ¬ rewritten_in_place conn available 12 record.
Proof.
  eexists. split; [by vm_compute|]. repeat split; try by vm_compute.
  intros (row & Hrow & _ & Hsel). revert Hrow Hsel. vm_compute.
  intros Hrow%list_elem_of_singleton Hsel. subst row. discriminate.
Qed.

(** C4, as stated, fails: a record whose only id is not available is
    emptied by the first run and given the default selection by the
    second, which therefore writes and returns 1. *)
Lemma canonicalize_second_run_writes :
  let available : gmap string (list Z) := {[ "weather" := [1; 2; 3] ]} in
  let first := canonicalize_requests (weather_conn [9]) available 2 in
  let second := canonicalize_requests first.1 available 2 in
  col_selected_norad_ids <$> first.1 = [Some []]
  ∧ col_selected_norad_ids <$> second.1 = [Some [1; 2]]
  ∧ second.2 = 1
  ∧ second ≠ (first.1, 0).
Proof. by vm_compute. Qed.

(** C5 on [legacy_conn]: the row that survives is the earliest one and the
    count is the number of rows deleted, but its [last_seen] is that of the
    last duplicate merged, not the maximum over the group, and the name and
    requester of the second row are lost. *)
Theorem dedupe_forgets_earlier_merges :
  ∃ survivor,
    dedupe_requests_by_signature legacy_conn 4 = ([survivor], 2)
    ∧ col_request_key survivor = "casa--stations"
    ∧ col_first_seen survivor = "2025-01-01T00:00:00Z"
    ∧ col_last_seen survivor = "2025-03-01T00:00:00Z"
    ∧ foldr Py.max_str "" (col_last_seen <$> legacy_conn) = "2025-06-01T00:00:00Z"
    ∧ col_name survivor = None
    ∧ col_requested_by survivor = None
    ∧ foldr Py.or_str None (col_name <$> legacy_conn) = Some "Home"
    ∧ foldr Py.or_str None (col_requested_by <$> legacy_conn) = Some "alice".
Proof. eexists. split; [by vm_compute|]. by vm_compute. Qed.

(** C6, as stated, fails: on a table with rows that lack a location key one
    upsert backfills those rows and inserts a row. *)
Lemma upsert_backfills_and_inserts :
  let after := (upsert_request legacy_conn (seattle None) 4 "2026-01-01T00:00:00Z").1 in
  rows_changed legacy_conn after = 3%nat
  ∧ rows_inserted legacy_conn after = 1%nat
  ∧ ¬ (write_footprint legacy_conn after ≤ 1)%nat.
Proof.
  vm_compute. split; [done|]. split; [done|]. intros H. by apply Nat.leb_le in H.
Qed.

(** ** The table as a list of rows *)

Lemma NoDup_keys_inj (conn : Conn) row row' :
  NoDup (keys conn) → row ∈ conn → row' ∈ conn →
  col_request_key row = col_request_key row' → row = row'.
Proof.
  unfold keys. induction conn as [|r conn IH]; intros Hnd Hr Hr' Hk.
  { by apply elem_of_nil in Hr. }
  rewrite fmap_cons in Hnd. apply NoDup_cons in Hnd as [Hnotin Hnd].
  apply elem_of_cons in Hr as [->|Hr]; apply elem_of_cons in Hr' as [->|Hr']; auto.
  - exfalso. apply Hnotin. rewrite Hk. by apply list_elem_of_fmap_2.
  - exfalso. apply Hnotin. rewrite <- Hk. by apply list_elem_of_fmap_2.
Qed.

Lemma update_ext (where_ : Row → bool) (f g : Row → Row) (conn : Conn) :
  (∀ row, row ∈ conn → where_ row = true → f row = g row) →
  Sql.update where_ f conn = Sql.update where_ g conn.
Proof.
  intros Hfg. unfold Sql.update. apply list_fmap_ext.
  intros i row Hrow%list_elem_of_lookup_2. destruct (where_ row) eqn:E; auto.
Qed.

Lemma update_keys key (f : Row → Row) (conn : Conn) :
  (∀ row, col_request_key (f row) = col_request_key row) →
  keys (Sql.update (Sql.key_is key) f conn) = keys conn.
Proof.
  intros Hf. unfold keys, Sql.update. rewrite <- list_fmap_compose.
  apply list_fmap_ext. intros i row _. simpl. by destruct (Sql.key_is key row).
Qed.

Lemma update_absent key (f : Row → Row) (conn : Conn) :
  key ∉ keys conn → Sql.update (Sql.key_is key) f conn = conn.
Proof.
  intros Hk. unfold Sql.update. rewrite <- (list_fmap_id conn) at 2.
  apply list_fmap_ext. intros i row Hrow%list_elem_of_lookup_2.
  unfold Sql.key_is. rewrite bool_decide_eq_false_2; [done|].
  intros <-. apply Hk. by apply list_elem_of_fmap_2.
Qed.

Lemma update_update key (f g : Row → Row) (conn : Conn) :
  (∀ row, col_request_key (g row) = col_request_key row) →
  Sql.update (Sql.key_is key) f (Sql.update (Sql.key_is key) g conn)
    = Sql.update (Sql.key_is key) (f ∘ g) conn.
Proof.
  intros Hg. unfold Sql.update. rewrite <- list_fmap_compose.
  apply list_fmap_ext. intros i row _. simpl. unfold Sql.key_is.
  destruct (bool_decide (col_request_key row = key)) eqn:E.
  - by rewrite Hg, E.
  - by rewrite E.
Qed.

Lemma update_split key (f : Row → Row) (conn : Conn) row :
  NoDup (keys conn) → row ∈ conn → col_request_key row = key →
  ∃ l1 l2, conn = l1 ++ row :: l2
           ∧ Sql.update (Sql.key_is key) f conn = l1 ++ f row :: l2.
Proof.
  intros Hnd Hrow Hk. apply list_elem_of_split in Hrow as (l1 & l2 & ->).
  exists l1, l2. split; [done|].
  unfold keys in Hnd. rewrite fmap_app, fmap_cons in Hnd.
  apply NoDup_app in Hnd as (_ & Hl1 & Hl2). apply NoDup_cons in Hl2 as [Hl2 _].
  unfold Sql.update. rewrite fmap_app, fmap_cons.
  fold (Sql.update (Sql.key_is key) f l1). fold (Sql.update (Sql.key_is key) f l2).
  rewrite !update_absent.
  - unfold Sql.key_is. by rewrite bool_decide_eq_true_2.
  - by rewrite <- Hk.
  - rewrite <- Hk. intros Hin. apply (Hl1 _ Hin). left.
Qed.

Lemma select_fmap (where_ : Row → bool) (g : Row → Row) (conn : Conn) :
  (∀ row, row ∈ conn → where_ (g row) = where_ row) →
  Sql.select where_ (g <$> conn) = g <$> Sql.select where_ conn.
Proof.
  unfold Sql.select. induction conn as [|r conn IH]; intros Hg; [done|].
  rewrite fmap_cons, !filter_cons, Hg by left.
  rewrite IH by (intros; apply Hg; by right).
  by destruct (decide (where_ r = true)).
Qed.

Lemma filter_none {A} (P : A → Prop) `{!∀ x, Decision (P x)} (l : list A) :
  (∀ x, x ∈ l → ¬ P x) → filter P l = [].
Proof.
  induction l as [|a l IH]; intros Hall; [done|].
  rewrite filter_cons_False by (apply Hall; left).
  apply IH. intros x Hx. apply Hall. by right.
Qed.

Lemma fetchone_select_Some (where_ : Row → bool) (conn : Conn) row :
  Sql.fetchone (Sql.select where_ conn) = Some row → row ∈ conn ∧ where_ row = true.
Proof.
  unfold Sql.fetchone, Sql.select. intros Hh.
  apply head_Some in Hh as [l Hl].
  assert (row ∈ filter (λ row, where_ row = true) conn) as Hin by (rewrite Hl; left).
  by apply list_elem_of_filter in Hin as [? ?].
Qed.

Lemma fetchone_select_None (where_ : Row → bool) (conn : Conn) :
  Sql.fetchone (Sql.select where_ conn) = None ↔ ∀ row, row ∈ conn → where_ row = false.
Proof.
  unfold Sql.fetchone, Sql.select. rewrite head_None. split.
  - intros Hnil row Hrow. destruct (where_ row) eqn:E; [|done].
    assert (row ∈ filter (λ row, where_ row = true) conn) as Hin
      by by apply list_elem_of_filter.
    rewrite Hnil in Hin. by apply elem_of_nil in Hin.
  - intros Hall. apply filter_none. intros row Hrow. by rewrite (Hall _ Hrow).
Qed.

Lemma fetchone_key_None key (conn : Conn) :
  Sql.fetchone (Sql.select (Sql.key_is key) conn) = None ↔ key ∉ keys conn.
Proof.
  rewrite fetchone_select_None. unfold keys, Sql.key_is. split.
  - intros Hall (row & Hk & Hrow)%list_elem_of_fmap.
    specialize (Hall _ Hrow). by rewrite bool_decide_eq_true_2 in Hall.
  - intros Hk row Hrow. apply bool_decide_eq_false_2. intros <-.
    apply Hk. by apply list_elem_of_fmap_2.
Qed.

Lemma fetchone_key_Some key (conn : Conn) row :
  NoDup (keys conn) → row ∈ conn → col_request_key row = key →
  Sql.fetchone (Sql.select (Sql.key_is key) conn) = Some row.
Proof.
  intros Hnd Hrow Hk.
  destruct (Sql.fetchone (Sql.select (Sql.key_is key) conn)) as [row'|] eqn:E.
  - apply fetchone_select_Some in E as [Hrow' Hk'].
    apply bool_decide_eq_true in Hk'. f_equal.
    apply (NoDup_keys_inj conn); auto. congruence.
  - apply fetchone_key_None in E. exfalso. apply E. rewrite <- Hk.
    by apply list_elem_of_fmap_2.
Qed.

(** ** [ensure_location_keys] *)

Lemma compute_location_slug_nonempty lat lon precision :
  compute_location_slug lat lon precision ≠ "".
Proof. unfold compute_location_slug. discriminate. Qed.

Lemma foldl_update {B} (where_ : B → Row → bool) (set_ : B → Row → Row)
    (items : list B) (conn : Conn) :
  foldl (λ conn b, Sql.update (where_ b) (set_ b) conn) conn items
    = (λ row, foldl (λ row b, if where_ b row then set_ b row else row) row items)
        <$> conn.
Proof.
  revert conn. induction items as [|b items IH]; intros conn; simpl.
  - by rewrite list_fmap_id.
  - rewrite IH. unfold Sql.update. by rewrite <- list_fmap_compose.
Qed.

Lemma backfill_fold precision loc_key (rows : list Row) (row : Row) :
  (∀ r, r ∈ rows → col_request_key r = col_request_key row →
        location_key_for (col_lat r) (col_lon r) precision = loc_key) →
  foldl (λ row r,
           if Sql.key_is (col_request_key r) row
           then set_location_key
                  (location_key_for (col_lat r) (col_lon r) precision) row
           else row) row rows
    = if bool_decide (col_request_key row ∈ keys rows)
      then set_location_key loc_key row else row.
Proof.
  revert row. induction rows as [|r rows IH]; intros row Hloc.
  - rewrite bool_decide_eq_false_2; [done|]. apply not_elem_of_nil.
  - cbn [foldl]. unfold keys. rewrite fmap_cons. fold (keys rows).
    destruct (decide (col_request_key row = col_request_key r)) as [Hk|Hk].
    + assert (Sql.key_is (col_request_key r) row = true) as ->
        by by apply bool_decide_eq_true_2.
      rewrite (Hloc r ltac:(left) (eq_sym Hk)).
      rewrite IH by (intros; apply Hloc; [by right|done]).
      rewrite (bool_decide_eq_true_2 (_ ∈ _ :: _)) by (rewrite Hk; left).
      cbn [set_location_key col_request_key]. by case_bool_decide.
    + assert (Sql.key_is (col_request_key r) row = false) as ->
        by by apply bool_decide_eq_false_2.
      rewrite IH by (intros; apply Hloc; [by right|done]).
      assert (bool_decide (col_request_key row ∈ col_request_key r :: keys rows)
              = bool_decide (col_request_key row ∈ keys rows)) as ->; [|done].
      apply bool_decide_ext. rewrite elem_of_cons. split; [|auto].
      intros [?|?]; [congruence|done].
Qed.

Lemma ensure_location_keys_spec (conn : Conn) precision :
  NoDup (keys conn) →
  (ensure_location_keys conn precision).1 = backfill precision <$> conn.
Proof.
  intros Hnd. unfold ensure_location_keys. simpl.
  rewrite (foldl_update (λ r, Sql.key_is (col_request_key r))
             (λ r, set_location_key
                     (location_key_for (col_lat r) (col_lon r) precision))).
  apply list_fmap_ext. intros i row Hrow%list_elem_of_lookup_2.
  rewrite (backfill_fold precision
             (location_key_for (col_lat row) (col_lon row) precision)).
  - unfold backfill. destruct (location_key_missing row) eqn:E.
    + rewrite bool_decide_eq_true_2; [done|].
      apply list_elem_of_fmap_2, list_elem_of_filter. done.
    + rewrite bool_decide_eq_false_2; [done|].
      intros (r & Hk & Hr)%list_elem_of_fmap.
      apply list_elem_of_filter in Hr as [Hmiss Hr].
      assert (row = r) by by apply (NoDup_keys_inj conn). congruence.
  - intros r [_ Hr]%list_elem_of_filter Hk.
    assert (r = row) by by apply (NoDup_keys_inj conn). congruence.
Qed.

Lemma ensure_location_keys_noop (conn : Conn) precision :
  (∀ row, row ∈ conn → location_key_missing row = false) →
  ensure_location_keys conn precision = (conn, 0).
Proof.
  intros Hall. unfold ensure_location_keys.
  assert (Sql.select location_key_missing conn = []) as ->; [|done].
  apply head_None, fetchone_select_None, Hall.
Qed.

Lemma backfill_not_missing precision row :
  location_key_missing (backfill precision row) = false.
Proof.
  unfold backfill. destruct (location_key_missing row) eqn:E; [|done].
  unfold location_key_missing. cbn [set_location_key col_location_key].
  apply bool_decide_eq_false_2, compute_location_slug_nonempty.
Qed.

Lemma backfill_key precision row :
  col_request_key (backfill precision row) = col_request_key row.
Proof. unfold backfill. by destruct (location_key_missing row). Qed.

Lemma backfill_keys precision (conn : Conn) :
  keys (backfill precision <$> conn) = keys conn.
Proof.
  unfold keys. rewrite <- list_fmap_compose. apply list_fmap_ext.
  intros i row _. apply backfill_key.
Qed.

Lemma backfill_present precision row :
  location_key_missing row = false → backfill precision row = row.
Proof. unfold backfill. by intros ->. Qed.

(** ** [upsert_request] *)

(** The three branches of [upsert_request], on the table after the
    backfill. *)
Lemma upsert_request_conn (conn : Conn) request precision now :
  NoDup (keys conn) →
  let conn0 := backfill precision <$> conn in
  (upsert_request conn request precision now).1 =
    match Sql.fetchone (Sql.select (signature_of request precision) conn0) with
    | Some existing =>
        Sql.update (Sql.key_is (col_request_key existing))
          (touch_for request precision now) conn0
    | None =>
        match Sql.fetchone (Sql.select (Sql.key_is (key_of request precision)) conn0) with
        | Some _ =>
            Sql.update (Sql.key_is (key_of request precision))
              (touch_for request precision now) conn0
        | None => conn0 ++ [new_row request precision now]
        end
    end.
Proof.
  intros Hnd conn0.
  assert (NoDup (keys conn0)) as Hnd0 by (unfold conn0; by rewrite backfill_keys).
  unfold upsert_request. cbv zeta.
  rewrite ensure_location_keys_spec by done. fold conn0.
  unfold get_request_by_signature. fold (signature_of request precision).
  fold (key_of request precision).
  destruct (Sql.fetchone (Sql.select (signature_of request precision) conn0))
    as [existing|] eqn:Esig; cbn [fmap option_fmap option_map fst].
  - apply fetchone_select_Some in Esig as [Hin _].
    apply update_ext. intros row Hrow Hk%bool_decide_eq_true.
    assert (row = existing) as -> by by apply (NoDup_keys_inj conn0).
    done.
  - destruct (Sql.fetchone (Sql.select (Sql.key_is (key_of request precision)) conn0))
      as [existing|] eqn:Ekey; cbn [fst]; [|done].
    apply fetchone_select_Some in Ekey as [Hin Hkey%bool_decide_eq_true].
    apply update_ext. intros row Hrow Hk%bool_decide_eq_true.
    assert (row = existing) as -> by (apply (NoDup_keys_inj conn0); congruence).
    done.
Qed.

Lemma upsert_request_returned (conn : Conn) request precision now :
  NoDup (keys conn) →
  let conn0 := backfill precision <$> conn in
  (upsert_request conn request precision now).2 =
    match Sql.fetchone (Sql.select (signature_of request precision) conn0) with
    | Some existing => returned_existing request precision now (record_of_row existing)
    | None =>
        match Sql.fetchone (Sql.select (Sql.key_is (key_of request precision)) conn0) with
        | Some existing =>
            returned_requested request precision now (col_first_seen existing)
              (Py.or_str (col_requested_by existing) (r_requested_by request))
              (Py.or_str (col_requested_at existing) (r_requested_at request))
        | None =>
            returned_requested request precision now now
              (r_requested_by request) (r_requested_at request)
        end
    end.
Proof.
  intros Hnd conn0. unfold upsert_request. cbv zeta.
  rewrite ensure_location_keys_spec by done. fold conn0.
  unfold get_request_by_signature. fold (signature_of request precision).
  fold (key_of request precision).
  destruct (Sql.fetchone (Sql.select (signature_of request precision) conn0))
    as [existing|]; cbn [fmap option_fmap option_map snd]; [done|].
  by destruct (Sql.fetchone (Sql.select (Sql.key_is (key_of request precision)) conn0)).
Qed.

Lemma coalesce_or_str (column value : option string) :
  Sql.coalesce (Sql.coalesce column (Py.or_str column value))
               (Py.or_str (Sql.coalesce column (Py.or_str column value)) value)
    = Sql.coalesce column (Py.or_str column value).
Proof.
  destruct column as [c|]; [done|]. simpl.
  destruct value as [v|]; [done|]. done.
Qed.

Lemma or_str_coalesce (column value : option string) :
  Py.or_str (Sql.coalesce column (Py.or_str column value)) value
    = Py.or_str column value.
Proof.
  destruct column as [c|]; [done|]. simpl.
  destruct value as [v|]; simpl; [|done]. by case_decide.
Qed.

Lemma or_str_coalesce_same (column value : option string) :
  Py.or_str (Sql.coalesce column value) value = Py.or_str column value.
Proof.
  destruct column as [c|]; [done|]. simpl.
  destruct value as [v|]; simpl; [|done]. by case_decide.
Qed.

Lemma coalesce_twice {A} (column value : option A) :
  Sql.coalesce (Sql.coalesce column value) value = Sql.coalesce column value.
Proof. destruct column; [done|]. by destruct value. Qed.

Lemma touch_for_key request precision now row :
  col_request_key (touch_for request precision now row) = col_request_key row.
Proof. done. Qed.

Lemma touch_for_twice request precision now1 now2 row :
  touch_for request precision now2 (touch_for request precision now1 row)
    = set_last_seen now2 (touch_for request precision now1 row).
Proof.
  unfold touch_for, touch_row, set_last_seen.
  cbn [col_request_key col_location_slug col_location_key col_bundle_slug col_lat
       col_lon col_elevation_m col_name col_selected_norad_ids col_requested_by
       col_requested_at col_first_seen col_last_seen].
  by rewrite !coalesce_twice, !coalesce_or_str.
Qed.

Lemma touch_for_new_row request precision now1 now2 :
  touch_for request precision now2 (new_row request precision now1)
    = set_last_seen now2 (new_row request precision now1).
Proof.
  unfold touch_for, touch_row, set_last_seen, new_row.
  cbn [col_request_key col_location_slug col_location_key col_bundle_slug col_lat
       col_lon col_elevation_m col_name col_selected_norad_ids col_requested_by
       col_requested_at col_first_seen col_last_seen].
  f_equal.
  - by destruct (r_name request).
  - by destruct (r_requested_by request).
  - by destruct (r_requested_at request).
Qed.

Lemma touch_for_signature request precision now lk b payload row :
  location_key_missing row = false →
  signature_is lk b payload (touch_for request precision now row)
    = signature_is lk b payload row.
Proof.
  intros Hpresent. unfold signature_is, touch_for, touch_row.
  cbn [col_location_key col_bundle_slug col_selected_norad_ids].
  unfold location_key_missing in Hpresent.
  by destruct (col_location_key row).
Qed.

Lemma touch_for_present request precision now row :
  location_key_missing row = false →
  location_key_missing (touch_for request precision now row) = false.
Proof.
  unfold location_key_missing, touch_for, touch_row. cbn [col_location_key].
  by destruct (col_location_key row).
Qed.

Lemma new_row_present request precision now :
  location_key_missing (new_row request precision now) = false.
Proof.
  unfold location_key_missing, new_row. cbn [col_location_key].
  apply bool_decide_eq_false_2, compute_location_slug_nonempty.
Qed.

Lemma new_row_signature request precision now :
  signature_of request precision (new_row request precision now) = true.
Proof.
  unfold signature_of, signature_is, new_row.
  cbn [col_location_key col_bundle_slug col_selected_norad_ids].
  by rewrite !bool_decide_eq_true_2.
Qed.

Lemma count_key (conn : Conn) key :
  NoDup (keys conn) → key ∈ keys conn →
  length (filter (λ row, col_request_key row = key) conn) = 1%nat.
Proof.
  unfold keys. induction conn as [|r conn IH]; intros Hnd Hin.
  { by apply elem_of_nil in Hin. }
  rewrite fmap_cons in Hnd, Hin. apply NoDup_cons in Hnd as [Hr Hnd].
  rewrite filter_cons. case_decide as Hk.
  - assert (filter (λ row, col_request_key row = key) conn = []) as ->; [|done].
    apply filter_none. intros row Hrow Hk'.
    apply Hr. rewrite Hk, <- Hk'. by apply list_elem_of_fmap_2.
  - apply IH; [done|]. apply elem_of_cons in Hin as [Heq|Hin]; [congruence|done].
Qed.

Lemma backfill_all_present precision (conn : Conn) :
  (∀ row, row ∈ conn → location_key_missing row = false) →
  backfill precision <$> conn = conn.
Proof.
  intros Hall. rewrite <- (list_fmap_id conn) at 2. apply list_fmap_ext.
  intros i row Hrow%list_elem_of_lookup_2. by apply backfill_present, Hall.
Qed.

Lemma update_lookup (where_ : Row → bool) key (f : Row → Row) (conn : Conn) :
  (∀ row, row ∈ conn → where_ (f row) = where_ row) →
  Sql.fetchone (Sql.select where_ (Sql.update (Sql.key_is key) f conn))
    = (λ row, if Sql.key_is key row then f row else row)
        <$> Sql.fetchone (Sql.select where_ conn).
Proof.
  intros Hf. unfold Sql.update. rewrite select_fmap.
  - unfold Sql.fetchone. by destruct (Sql.select where_ conn).
  - intros row Hrow. destruct (Sql.key_is key row); auto.
Qed.

Lemma update_elem_of key (f : Row → Row) (conn : Conn) row :
  row ∈ Sql.update (Sql.key_is key) f conn →
  ∃ row0, row0 ∈ conn ∧ row = if Sql.key_is key row0 then f row0 else row0.
Proof.
  unfold Sql.update. intros (row0 & -> & Hrow0)%list_elem_of_fmap. eauto.
Qed.

(** What one upsert leaves behind: keys stay unique, every row has a
    location key, and the returned key is stored. *)
Lemma upsert_request_wf (conn : Conn) request precision now :
  NoDup (keys conn) →
  let result := upsert_request conn request precision now in
  NoDup (keys result.1)
  ∧ (∀ row, row ∈ result.1 → location_key_missing row = false)
  ∧ request_key result.2 ∈ keys result.1.
Proof.
  intros Hnd result. unfold result.
  rewrite upsert_request_conn, upsert_request_returned by done.
  set (conn0 := backfill precision <$> conn).
  assert (NoDup (keys conn0)) as Hnd0 by (unfold conn0; by rewrite backfill_keys).
  assert (∀ row, row ∈ conn0 → location_key_missing row = false) as Hp0.
  { intros row (row0 & -> & _)%list_elem_of_fmap. apply backfill_not_missing. }
  assert (∀ key, NoDup (keys (Sql.update (Sql.key_is key)
                                (touch_for request precision now) conn0))
                 ∧ ∀ row, row ∈ Sql.update (Sql.key_is key)
                                  (touch_for request precision now) conn0
                          → location_key_missing row = false) as Hupd.
  { intros key. split.
    - rewrite update_keys; [done|]. intros; apply touch_for_key.
    - intros row (row0 & Hrow0 & ->)%update_elem_of.
      destruct (Sql.key_is key row0); auto using touch_for_present. }
  destruct (Sql.fetchone (Sql.select (signature_of request precision) conn0))
    as [existing|] eqn:Esig.
  - destruct (Hupd (col_request_key existing)) as [H1 H2].
    split; [done|]. split; [done|].
    rewrite update_keys by (intros; apply touch_for_key).
    apply fetchone_select_Some in Esig as [Hin _].
    by apply (list_elem_of_fmap_2 col_request_key).
  - destruct (Sql.fetchone (Sql.select (Sql.key_is (key_of request precision)) conn0))
      as [existing|] eqn:Ekey.
    + destruct (Hupd (key_of request precision)) as [H1 H2].
      split; [done|]. split; [done|].
      rewrite update_keys by (intros; apply touch_for_key).
      apply fetchone_select_Some in Ekey as [Hin Hk%bool_decide_eq_true].
      cbn [returned_requested request_key]. rewrite <- Hk.
      by apply (list_elem_of_fmap_2 col_request_key).
    + apply fetchone_key_None in Ekey.
      unfold keys. rewrite fmap_app. cbn [fmap list_fmap new_row col_request_key].
      split; [|split].
      * apply NoDup_app. split; [done|]. split; [|apply NoDup_singleton].
        intros k Hk ->%list_elem_of_singleton. by apply Ekey.
      * intros row [Hrow| ->%list_elem_of_singleton]%elem_of_app;
          [by apply Hp0|apply new_row_present].
      * apply elem_of_app. right. left.
Qed.

Lemma or_str_same (value : option string) : Py.or_str value value = value.
Proof. destruct value as [v|]; [|done]. simpl. by case_decide. Qed.

Lemma returned_existing_touch request precision now1 now2 row :
  returned_existing request precision now2
      (record_of_row (touch_for request precision now1 row))
    = with_last_seen now2
        (returned_existing request precision now1 (record_of_row row)).
Proof.
  unfold returned_existing, with_last_seen, record_of_row, touch_for, touch_row.
  cbn [request_key location_slug location_key bundle_slug lat lon elevation_m name
       selected_norad_ids requested_by requested_at first_seen last_seen
       col_request_key col_location_slug col_location_key col_bundle_slug col_lat
       col_lon col_elevation_m col_name col_selected_norad_ids col_requested_by
       col_requested_at col_first_seen col_last_seen].
  rewrite or_str_coalesce_same, !or_str_coalesce. f_equal.
  destruct (col_location_key row) as [k|]; [done|].
  cbn [Sql.coalesce from_option id].
  rewrite decide_False by apply compute_location_slug_nonempty.
  by rewrite decide_True.
Qed.

Lemma returned_existing_new request precision now1 now2 :
  returned_existing request precision now2
      (record_of_row (new_row request precision now1))
    = with_last_seen now2
        (returned_requested request precision now1 now1
           (r_requested_by request) (r_requested_at request)).
Proof.
  unfold returned_existing, with_last_seen, record_of_row, new_row, returned_requested.
  cbn [request_key location_slug location_key bundle_slug lat lon elevation_m name
       selected_norad_ids requested_by requested_at first_seen last_seen
       col_request_key col_location_slug col_location_key col_bundle_slug col_lat
       col_lon col_elevation_m col_name col_selected_norad_ids col_requested_by
       col_requested_at col_first_seen col_last_seen from_option id Py.seq_of].
  rewrite !or_str_same. unfold selection_payload. rewrite normalize_idemp.
  f_equal; by rewrite decide_False by apply compute_location_slug_nonempty.
Qed.

(** The second of two calls in succession with the same request, on a
    table with unique keys: it returns the key the first call returned,
    adds no row, and leaves every row as the first call left it except that
    the row under that key has [last_seen] equal to the time of the second
    call; the returned records differ in [last_seen] only. *)
Lemma upsert_request_second_call (conn : Conn) request precision now1 now2 :
  NoDup (keys conn) →
  let first := upsert_request conn request precision now1 in
  let second := upsert_request first.1 request precision now2 in
  request_key second.2 = request_key first.2
  ∧ length (filter (λ row, col_request_key row = request_key first.2) second.1) = 1%nat
  ∧ length second.1 = length first.1
  ∧ second.1
      = Sql.update (Sql.key_is (request_key first.2)) (set_last_seen now2) first.1
  ∧ second.2 = with_last_seen now2 first.2.
Proof.
  intros Hnd first second.
  destruct (upsert_request_wf conn request precision now1 Hnd) as (Hnd1 & Hp1 & Hin1).
  fold first in Hnd1, Hp1, Hin1.
  assert (second.1
            = Sql.update (Sql.key_is (request_key first.2)) (set_last_seen now2) first.1
          ∧ second.2 = with_last_seen now2 first.2) as [Hconn Hrec].
  { unfold second.
    rewrite upsert_request_conn, upsert_request_returned by done.
    rewrite backfill_all_present by done.
    pose proof (upsert_request_conn conn request precision now1 Hnd) as Hc.
    pose proof (upsert_request_returned conn request precision now1 Hnd) as Hr.
    fold first in Hc, Hr. cbv zeta in Hc, Hr.
    set (conn0 := backfill precision <$> conn) in *.
    assert (NoDup (keys conn0)) as Hnd0 by (unfold conn0; by rewrite backfill_keys).
    assert (∀ row, row ∈ conn0 → location_key_missing row = false) as Hp0.
    { intros row (row0 & -> & _)%list_elem_of_fmap. apply backfill_not_missing. }
    destruct (Sql.fetchone (Sql.select (signature_of request precision) conn0))
      as [existing|] eqn:Esig.
    - (* signature branch *)
      pose proof Esig as [Hin Hsig]%fetchone_select_Some.
      rewrite Hc, Hr. rewrite update_lookup, Esig
        by (intros; by apply touch_for_signature, Hp0).
      cbn [fmap option_fmap option_map].
      assert (Sql.key_is (col_request_key existing) existing = true) as Hself
        by by apply bool_decide_eq_true_2.
      rewrite !Hself, touch_for_key, returned_existing_touch.
      split; [|done]. cbn [returned_existing request_key record_of_row].
      rewrite !update_update by done.
      apply update_ext. intros; apply touch_for_twice.
    - destruct (Sql.fetchone (Sql.select (Sql.key_is (key_of request precision)) conn0))
        as [existing|] eqn:Ekey.
      + (* exact-key branch *)
        pose proof Ekey as [Hin Hk%bool_decide_eq_true]%fetchone_select_Some.
        rewrite Hc, Hr. rewrite update_lookup, Esig
          by (intros; by apply touch_for_signature, Hp0).
        cbn [fmap option_fmap option_map].
        rewrite update_lookup, Ekey by done.
        cbn [fmap option_fmap option_map].
        assert (Sql.key_is (key_of request precision) existing = true) as Hself
          by by apply bool_decide_eq_true_2.
        rewrite !Hself. cbn [returned_requested request_key].
        rewrite !update_update by done. split.
        * apply update_ext. intros; apply touch_for_twice.
        * unfold returned_requested, with_last_seen, touch_for, touch_row.
          cbn [request_key location_slug location_key bundle_slug lat lon
               elevation_m name selected_norad_ids requested_by requested_at
               first_seen last_seen col_requested_by col_requested_at col_first_seen].
          by rewrite !or_str_coalesce.
      + (* insert branch *)
        pose proof Ekey as Hfresh%fetchone_key_None.
        assert (Sql.fetchone (Sql.select (signature_of request precision)
                                 (conn0 ++ [new_row request precision now1]))
                = Some (new_row request precision now1)) as Esig2.
        { unfold Sql.select in *. rewrite filter_app.
          apply head_None in Esig. rewrite Esig.
          by rewrite filter_cons_True by apply new_row_signature. }
        rewrite Hc, Hr, !Esig2, returned_existing_new. split; [|done].
        cbn [new_row col_request_key returned_requested request_key].
        unfold Sql.update. rewrite !fmap_app. f_equal.
        * apply (update_ext _ _ _ conn0). intros row Hrow Hk%bool_decide_eq_true.
          exfalso. apply Hfresh. rewrite <- Hk. by apply list_elem_of_fmap_2.
        * cbn [fmap list_fmap]. unfold Sql.key_is.
          rewrite !bool_decide_eq_true_2 by done. by rewrite touch_for_new_row. }
  assert (keys second.1 = keys first.1) as Hkeys.
  { rewrite Hconn. by apply update_keys. }
  split; [by rewrite Hrec|]. split; [|split; [|done]].
  - apply count_key; by rewrite Hkeys.
  - rewrite Hconn. unfold Sql.update. by rewrite length_fmap.
Qed.

Lemma legacy_conn_keys : NoDup (keys legacy_conn).
Proof. apply (bool_decide_unpack _). by vm_compute. Qed.

(** *** The stored record for a request *)

Lemma upsert_request_keys (conn : Conn) request precision now :
  NoDup (keys conn) →
  let result := upsert_request conn request precision now in
  keys result.1 = keys conn ∨ keys result.1 = keys conn ++ [request_key result.2].
Proof.
  intros Hnd result. unfold result.
  rewrite upsert_request_conn, upsert_request_returned by done.
  set (conn0 := backfill precision <$> conn).
  rewrite <- (backfill_keys precision conn). fold conn0.
  destruct (Sql.fetchone (Sql.select (signature_of request precision) conn0));
    [left; by apply update_keys|].
  destruct (Sql.fetchone (Sql.select (Sql.key_is (key_of request precision)) conn0));
    [left; by apply update_keys|].
  right. unfold keys. by rewrite fmap_app.
Qed.

Lemma select_update (where_ : Row → bool) key (f : Row → Row) (conn : Conn) :
  (∀ row, row ∈ conn → where_ (f row) = where_ row) →
  Sql.select where_ (Sql.update (Sql.key_is key) f conn)
    = (λ row, if Sql.key_is key row then f row else row) <$> Sql.select where_ conn.
Proof.
  intros Hf. unfold Sql.update. apply select_fmap.
  intros row Hrow. destruct (Sql.key_is key row); [by apply Hf|done].
Qed.

Lemma select_key_singleton key (conn : Conn) row :
  NoDup (keys conn) → row ∈ conn → col_request_key row = key →
  Sql.select (Sql.key_is key) conn = [row].
Proof.
  intros Hnd Hrow Hk.
  pose proof (fetchone_key_Some key conn row Hnd Hrow Hk) as Hhead.
  unfold Sql.fetchone in Hhead.
  assert (NoDup (Sql.select (Sql.key_is key) conn)) as Hnds.
  { unfold Sql.select. apply NoDup_filter. unfold keys in Hnd. by apply NoDup_fmap_1 in Hnd. }
  destruct (Sql.select (Sql.key_is key) conn) as [|r l] eqn:E; [done|].
  injection Hhead as ->. f_equal. destruct l as [|r2 l]; [done|]. exfalso.
  assert (r2 ∈ Sql.select (Sql.key_is key) conn) as Hr2 by (rewrite E; right; left).
  unfold Sql.select in Hr2.
  apply list_elem_of_filter in Hr2 as [Hk2%bool_decide_eq_true Hin2].
  assert (row = r2) as <- by (apply (NoDup_keys_inj conn); congruence).
  apply NoDup_cons in Hnds as [Hnot _]. apply Hnot. left.
Qed.

Lemma stored_for_update request precision key (f : Row → Row) (conn : Conn) :
  (∀ row, row ∈ conn →
     signature_of request precision (f row) = signature_of request precision row) →
  (∀ row, col_request_key (f row) = col_request_key row) →
  stored_for request precision (Sql.update (Sql.key_is key) f conn)
    = (λ row, if Sql.key_is key row then f row else row)
        <$> stored_for request precision conn.
Proof.
  intros Hsig Hkey. unfold stored_for.
  rewrite (select_update (signature_of request precision)) by done.
  rewrite (select_update (Sql.key_is (key_of request precision))).
  - by destruct (Sql.select (signature_of request precision) conn).
  - intros row _. unfold Sql.key_is. by rewrite Hkey.
Qed.

(** What the first call leaves as the stored record for the request, when
    at most one row carried its signature. *)
Lemma upsert_request_stored_for (conn : Conn) request precision now :
  NoDup (keys conn) →
  (length (Sql.select (signature_of request precision) (backfill precision <$> conn))
     ≤ 1)%nat →
  let result := upsert_request conn request precision now in
  ∃ row,
    stored_for request precision result.1 = [row]
    ∧ col_last_seen row = now
    ∧ request_key result.2 = col_request_key row.
Proof.
  intros Hnd Hone result.
  pose proof (upsert_request_conn conn request precision now Hnd) as Hc.
  pose proof (upsert_request_returned conn request precision now Hnd) as Hr.
  fold result in Hc, Hr. cbv zeta in Hc, Hr.
  set (conn0 := backfill precision <$> conn) in *.
  assert (NoDup (keys conn0)) as Hnd0 by (unfold conn0; by rewrite backfill_keys).
  assert (∀ row, row ∈ conn0 → location_key_missing row = false) as Hp0.
  { intros row (row0 & -> & _)%list_elem_of_fmap. apply backfill_not_missing. }
  assert (∀ key existing,
            stored_for request precision conn0 = [existing] →
            col_request_key existing = key →
            stored_for request precision
                (Sql.update (Sql.key_is key) (touch_for request precision now) conn0)
              = [touch_for request precision now existing]) as Htouch.
  { intros key existing Hstored Hk. rewrite stored_for_update.
    - rewrite Hstored. cbn [fmap list_fmap]. unfold Sql.key_is.
      by rewrite bool_decide_eq_true_2.
    - intros row Hrow. by apply touch_for_signature, Hp0.
    - intros row. apply touch_for_key. }
  unfold Sql.fetchone in Hc, Hr.
  destruct (Sql.select (signature_of request precision) conn0) as [|existing rest] eqn:Esig.
  - cbn [head] in Hc, Hr.
    destruct (head (Sql.select (Sql.key_is (key_of request precision)) conn0))
      as [existing|] eqn:Ekey.
    + (* the row under the key of the request *)
      pose proof (fetchone_select_Some _ _ _ Ekey) as [Hin Hk%bool_decide_eq_true].
      exists (touch_for request precision now existing).
      rewrite Hc, Hr. split; [|done].
      apply Htouch; [|done]. unfold stored_for. rewrite Esig.
      by apply select_key_singleton.
    + (* the inserted row *)
      exists (new_row request precision now). rewrite Hc, Hr. split; [|done].
      unfold stored_for, Sql.select in *. rewrite filter_app, Esig.
      by rewrite filter_cons_True by apply new_row_signature.
  - (* the row that carries the signature *)
    cbn [head] in Hc, Hr. cbn [length] in Hone.
    destruct rest as [|r rest]; [|cbn [length] in Hone; lia].
    exists (touch_for request precision now existing).
    rewrite Hc, Hr. split; [|done].
    apply Htouch; [|done]. unfold stored_for. by rewrite Esig.
Qed.

(** C3, amended. On a table with unique keys in which at most one row
    carries the signature of the request (location key once backfilled at
    the precision of the calls, bundle and normalized selection), calling
    [upsert_request] twice in succession with the same request leaves
    exactly one stored record for the request: the row that carries its
    signature or, when no row carries it, the row under its key.  Both
    calls return the key of that row; the first call keeps the stored keys
    in place and adds at most that key; the second call adds no row and
    leaves every field of every row as the first call left it, except
    [last_seen] of that row, which advances from the time of the first call
    to the time of the second; the returned records differ in [last_seen]
    only. *)
Theorem upsert_request_idempotent (conn : Conn) request precision now1 now2 :
  NoDup (keys conn) →
  (length (Sql.select (signature_of request precision) (backfill precision <$> conn))
     ≤ 1)%nat →
  let first := upsert_request conn request precision now1 in
  let second := upsert_request first.1 request precision now2 in
  ∃ row,
    stored_for request precision first.1 = [row]
    ∧ stored_for request precision second.1 = [set_last_seen now2 row]
    ∧ col_last_seen row = now1
    ∧ request_key first.2 = col_request_key row
    ∧ request_key second.2 = col_request_key row
    ∧ (keys first.1 = keys conn ∨ keys first.1 = keys conn ++ [col_request_key row])
    ∧ length second.1 = length first.1
    ∧ second.1
        = Sql.update (Sql.key_is (col_request_key row)) (set_last_seen now2) first.1
    ∧ second.2 = with_last_seen now2 first.2.
Proof.
  intros Hnd Hone first second.
  destruct (upsert_request_stored_for conn request precision now1 Hnd Hone)
    as (row & Hstored & Hlast & Hkey).
  pose proof (upsert_request_keys conn request precision now1 Hnd) as Hkeys.
  cbv zeta in Hkeys. rewrite Hkey in Hkeys. fold first in Hkeys.
  destruct (upsert_request_second_call conn request precision now1 now2 Hnd)
    as (Hkey2 & _ & Hlen & Hconn & Hrec).
  fold first in Hstored, Hkey, Hkey2, Hlen, Hconn, Hrec.
  fold second in Hkey2, Hlen, Hconn, Hrec.
  exists row. split; [done|]. split; [|split; [done|split; [done|split]]].
  - rewrite Hconn, stored_for_update, Hstored by done.
    cbn [fmap list_fmap]. unfold Sql.key_is. by rewrite bool_decide_eq_true_2.
  - by rewrite Hkey2.
  - split; [done|]. split; [done|]. split; [by rewrite <- Hkey|done].
Qed.

Lemma upsert_request_idempotent_witness :
  let conn := (dedupe_requests_by_signature legacy_conn 4).1 in
  let first := upsert_request conn blacksburg_request 4 "2026-01-01T00:00:00Z" in
  let second := upsert_request first.1 blacksburg_request 4 "2026-01-02T00:00:00Z" in
  ∃ row,
    stored_for blacksburg_request 4 first.1 = [row]
    ∧ stored_for blacksburg_request 4 second.1 = [set_last_seen "2026-01-02T00:00:00Z" row]
    ∧ col_last_seen row = "2026-01-01T00:00:00Z"
    ∧ request_key second.2 = col_request_key row.
Proof.
  intros conn first second.
  destruct (upsert_request_idempotent conn blacksburg_request 4
              "2026-01-01T00:00:00Z" "2026-01-02T00:00:00Z")
    as (row & H1 & H2 & H3 & _ & H5 & _).
  - apply (bool_decide_unpack _). vm_compute. exact I.
  - apply (bool_decide_unpack _). vm_compute. exact I.
  - exists row. split; [exact H1|]. split; [exact H2|]. split; [exact H3|exact H5].
Defined.

(** C3, as stated for every store state, fails on the legacy table: the
    three rows that carry the signature of the request all remain after
    the two calls, the calls resolve the request to [casa--stations] and
    not to its own key [home--stations], and the row under its own key
    keeps the [last_seen] it had. *)
Lemma upsert_request_twice_three_records :
  let first :=
    upsert_request legacy_conn blacksburg_request 4 "2026-01-01T00:00:00Z" in
  let second := upsert_request first.1 blacksburg_request 4 "2026-01-02T00:00:00Z" in
  length (stored_for blacksburg_request 4 second.1) = 3%nat
  ∧ request_key second.2 = "casa--stations"
  ∧ key_of blacksburg_request 4 = "home--stations"
  ∧ last_seen <$> get_request_by_key second.1 "home--stations"
      = Some "2025-06-01T00:00:00Z".
Proof. by vm_compute. Qed.

(** ** Write footprint of [upsert_request] *)

Lemma rows_changed_same (conn : Conn) : rows_changed conn conn = 0%nat.
Proof.
  unfold rows_changed. induction conn as [|r conn IH]; [done|].
  cbn [zip zip_with]. by rewrite filter_cons_False by (simpl; auto).
Qed.

Lemma rows_changed_app (l1 l2 k1 k2 : Conn) :
  length l1 = length k1 →
  rows_changed (l1 ++ l2) (k1 ++ k2) = (rows_changed l1 k1 + rows_changed l2 k2)%nat.
Proof.
  intros Hlen. unfold rows_changed.
  by rewrite zip_with_app, filter_app, length_app.
Qed.

Lemma rows_changed_nil_r (conn : Conn) : rows_changed conn [] = 0%nat.
Proof. unfold rows_changed. by destruct conn. Qed.

Lemma rows_changed_one (row row' : Row) (l2 : Conn) :
  (rows_changed (row :: l2) (row' :: l2) ≤ 1)%nat.
Proof.
  unfold rows_changed. cbn [zip zip_with]. rewrite filter_cons.
  pose proof (rows_changed_same l2) as Hsame. unfold rows_changed in Hsame.
  case_decide; cbn [length]; rewrite Hsame; lia.
Qed.

Lemma touch_for_identity request precision now row :
  location_key_missing row = false →
  same_identity row (touch_for request precision now row).
Proof.
  intros Hp. unfold same_identity, touch_for, touch_row.
  cbn [col_request_key col_location_slug col_location_key col_bundle_slug col_lat
       col_lon col_elevation_m col_selected_norad_ids col_first_seen].
  repeat split. unfold location_key_missing in Hp.
  by destruct (col_location_key row).
Qed.

(** C6, amended. On a table with unique keys, [upsert_request] first
    backfills the location key of the rows that lack one and changes
    nothing else there; on the table so obtained it then either appends one
    row under a key that was not stored, or rewrites one row in place,
    leaving its key, slug, location key, bundle, coordinates, elevation,
    selection and [first_seen] as they were: its footprint after the
    backfill is at most one row, and when no row lacks a location key the
    backfill changes nothing. *)
Theorem upsert_request_footprint (conn : Conn) request precision now :
  NoDup (keys conn) →
  let conn0 := (ensure_location_keys conn precision).1 in
  let result := upsert_request conn request precision now in
  conn0 = backfill precision <$> conn
  ∧ ((∀ row, row ∈ conn → location_key_missing row = false) → conn0 = conn)
  ∧ (write_footprint conn0 result.1 ≤ 1)%nat
  ∧ ((∃ row,
        result.1 = conn0 ++ [row]
        ∧ col_request_key row = request_key result.2
        ∧ request_key result.2 ∉ keys conn0)
     ∨ (∃ l1 row row' l2,
          conn0 = l1 ++ row :: l2
          ∧ result.1 = l1 ++ row' :: l2
          ∧ col_request_key row = request_key result.2
          ∧ same_identity row row')).
Proof.
  intros Hnd conn0 result.
  assert (conn0 = backfill precision <$> conn) as Hconn0
    by by apply ensure_location_keys_spec.
  split; [done|]. split.
  { intros Hall. rewrite Hconn0. by apply backfill_all_present. }
  assert (NoDup (keys conn0)) as Hnd0 by (by rewrite Hconn0, backfill_keys).
  assert (∀ row, row ∈ conn0 → location_key_missing row = false) as Hp0.
  { rewrite Hconn0. intros row (row0 & -> & _)%list_elem_of_fmap.
    apply backfill_not_missing. }
  assert (∀ existing,
            existing ∈ conn0 → col_request_key existing = request_key result.2 →
            result.1 = Sql.update (Sql.key_is (col_request_key existing))
                         (touch_for request precision now) conn0 →
            (write_footprint conn0 result.1 ≤ 1)%nat
            ∧ ∃ l1 row row' l2,
                conn0 = l1 ++ row :: l2 ∧ result.1 = l1 ++ row' :: l2
                ∧ col_request_key row = request_key result.2
                ∧ same_identity row row') as Hupdate.
  { intros existing Hin Hk Hres.
    destruct (update_split (col_request_key existing)
                (touch_for request precision now) conn0 existing Hnd0 Hin eq_refl)
      as (l1 & l2 & Hsplit & Hupd).
    rewrite <- Hres in Hupd. split.
    - unfold write_footprint, rows_inserted. rewrite Hupd. rewrite Hsplit at 1.
      rewrite rows_changed_app, rows_changed_same by done.
      pose proof (rows_changed_one existing
                    (touch_for request precision now existing) l2).
      rewrite Hsplit, !length_app. cbn [length]. lia.
    - exists l1, existing, (touch_for request precision now existing), l2.
      repeat split; try done. all: by apply touch_for_identity, Hp0. }
  pose proof (upsert_request_conn conn request precision now Hnd) as Hc.
  pose proof (upsert_request_returned conn request precision now Hnd) as Hr.
  fold result in Hc, Hr. cbv zeta in Hc, Hr. rewrite <- Hconn0 in Hc, Hr.
  destruct (Sql.fetchone (Sql.select (signature_of request precision) conn0))
    as [existing|] eqn:Esig.
  - apply fetchone_select_Some in Esig as [Hin _].
    destruct (Hupdate existing) as [Hfoot Hsplit]; [done|by rewrite Hr|done|].
    split; [done|]. by right.
  - destruct (Sql.fetchone (Sql.select (Sql.key_is (key_of request precision)) conn0))
      as [existing|] eqn:Ekey.
    + apply fetchone_select_Some in Ekey as [Hin Hk%bool_decide_eq_true].
      destruct (Hupdate existing) as [Hfoot Hsplit];
        [done|by rewrite Hr|by rewrite Hk|].
      split; [done|]. by right.
    + apply fetchone_key_None in Ekey. split.
      * unfold write_footprint, rows_inserted. rewrite Hc.
        rewrite <- (app_nil_r conn0) at 1.
        rewrite rows_changed_app, rows_changed_same by done.
        rewrite length_app. cbn [length rows_changed zip zip_with filter list_filter].
        lia.
      * left. exists (new_row request precision now). by rewrite Hc, Hr.
Qed.

Lemma upsert_request_footprint_witness :
  let conn0 := (ensure_location_keys legacy_conn 4).1 in
  let result :=
    upsert_request legacy_conn blacksburg_request 4 "2026-01-01T00:00:00Z" in
  (write_footprint conn0 result.1 ≤ 1)%nat.
Proof.
  apply (upsert_request_footprint legacy_conn blacksburg_request 4
           "2026-01-01T00:00:00Z").
  apply (bool_decide_unpack _). vm_compute. exact I.
Defined.

(** ** The scenario of two upserts that differ in the selection *)

Lemma upsert_request_fresh (conn : Conn) request precision now :
  NoDup (keys conn) →
  (∀ row, row ∈ conn → location_key_missing row = false) →
  (∀ row, row ∈ conn → signature_of request precision row = false) →
  key_of request precision ∉ keys conn →
  (upsert_request conn request precision now).1
    = conn ++ [new_row request precision now].
Proof.
  intros Hnd Hp Hsig Hkey.
  rewrite upsert_request_conn by done. rewrite backfill_all_present by done.
  apply fetchone_select_None in Hsig. apply fetchone_key_None in Hkey.
  by rewrite Hsig, Hkey.
Qed.

Lemma signature_is_other_selection lk b payload row :
  col_selected_norad_ids row ≠ Some payload → signature_is lk b payload row = false.
Proof.
  intros Hne. unfold signature_is.
  rewrite (bool_decide_eq_false_2 (col_selected_norad_ids row = _)) by done.
  by rewrite andb_false_r.
Qed.

(** C2, amended. From the empty table, at any one precision, the upsert of
    the Seattle request with the empty selection followed by the upsert of
    the same location and bundle with the selection [25544] leaves two
    rows: the first under [<location>--stations] with the selection [[]],
    the second under [<location>--stations--sel-1926cccf] with the
    selection [[25544]]; the signature lookup with the empty selection
    finds the first and the signature lookup with [[25544]] finds the
    second. *)
Theorem seattle_two_records precision now1 now2 :
  let loc := compute_location_slug 47.6062 (-122.3321) precision in
  let conn1 := (upsert_request [] (seattle (Some [])) precision now1).1 in
  let conn2 := (upsert_request conn1 (seattle (Some [25544])) precision now2).1 in
  conn2 = [new_row (seattle (Some [])) precision now1;
           new_row (seattle (Some [25544])) precision now2]
  ∧ keys conn2 = [loc +:+ "--stations"; loc +:+ "--stations--sel-1926cccf"]
  ∧ col_selected_norad_ids <$> conn2 = [Some []; Some [25544]]
  ∧ get_request_by_signature conn2 loc "stations" (Some [])
      = Some (record_of_row (new_row (seattle (Some [])) precision now1))
  ∧ get_request_by_signature conn2 loc "stations" (Some [25544])
      = Some (record_of_row (new_row (seattle (Some [25544])) precision now2)).
Proof.
  intros loc conn1 conn2.
  assert (key_of (seattle (Some [])) precision = loc +:+ "--stations") as Hk1 by done.
  assert (key_of (seattle (Some [25544])) precision
          = loc +:+ "--stations--sel-1926cccf") as Hk2 by done.
  assert (loc +:+ "--stations" ≠ loc +:+ "--stations--sel-1926cccf") as Hne.
  { intros Heq. by apply (inj (String.app loc)) in Heq. }
  assert (conn1 = [new_row (seattle (Some [])) precision now1]) as Hconn1.
  { unfold conn1. rewrite upsert_request_fresh; [done|constructor|..].
    - intros row Hrow. by apply elem_of_nil in Hrow.
    - intros row Hrow. by apply elem_of_nil in Hrow.
    - apply not_elem_of_nil. }
  assert (conn2 = [new_row (seattle (Some [])) precision now1;
                   new_row (seattle (Some [25544])) precision now2]) as Hconn2.
  { unfold conn2. rewrite Hconn1. rewrite upsert_request_fresh; [done|..].
    - apply NoDup_singleton.
    - intros row ->%list_elem_of_singleton. apply new_row_present.
    - intros row ->%list_elem_of_singleton.
      by apply signature_is_other_selection.
    - intros Hin%list_elem_of_singleton. cbn [new_row col_request_key] in Hin.
      rewrite Hk1, Hk2 in Hin. by apply Hne. }
  split; [done|]. rewrite Hconn2. split; [|split; [done|]].
  { unfold keys. cbn [fmap list_fmap new_row col_request_key]. by rewrite Hk1, Hk2. }
  unfold get_request_by_signature, Sql.select. split.
  - rewrite filter_cons_True; [done|].
    unfold signature_is. cbn [new_row col_location_key col_bundle_slug seattle
                              col_selected_norad_ids r_lat r_lon r_bundle_slug].
    by rewrite !bool_decide_eq_true_2.
  - rewrite filter_cons_False.
    + rewrite filter_cons_True; [done|]. apply new_row_signature.
    + rewrite signature_is_other_selection; done.
Qed.

(** ** [canonicalize_requests] *)

Section canonicalize.
Context (bundle_available_ids : gmap string (list Z)).
Context (max_satellites_per_request : Z).

Local Abbreviation canonical :=
  (canonical_selected bundle_available_ids max_satellites_per_request).
Local Abbreviation writes :=
  (needs_rewrite bundle_available_ids max_satellites_per_request).
Local Abbreviation step :=
  (canonicalize_step bundle_available_ids max_satellites_per_request).
Local Abbreviation new_key_of record :=
  (request_key_for (location_slug record) (bundle_slug record) (Some (canonical record))).

Lemma needs_rewrite_core record record' :
  core record = core record' → writes record = writes record'.
Proof.
  unfold core. intros [= Hk Hl Hb Hs].
  unfold needs_rewrite, canonical_selected. by rewrite Hk, Hl, Hb, Hs.
Qed.

Lemma canonical_selected_core record record' :
  core record = core record' → canonical record = canonical record'.
Proof.
  unfold core. intros [= Hk Hl Hb Hs]. unfold canonical_selected. by rewrite Hb, Hs.
Qed.

Lemma needs_rewrite_false record :
  writes record = false ↔
  canonical record = selected_norad_ids record ∨ new_key_of record = request_key record.
Proof.
  unfold needs_rewrite. repeat case_decide; split; try done; auto.
  intros [?|?]; done.
Qed.

Lemma canonicalize_step_skip st record :
  writes record = false → step st record = st.
Proof.
  destruct st as [conn n]. unfold needs_rewrite, canonicalize_step.
  by repeat case_decide.
Qed.

Lemma canonicalize_step_write conn n record :
  writes record = true →
  step (conn, n) record =
    match get_request_by_key conn (new_key_of record) with
    | Some existing =>
        (Sql.delete (Sql.key_is (request_key record))
           (merge_into (new_key_of record) existing record conn), n + 1)
    | None =>
        (Sql.update (Sql.key_is (request_key record))
           (set_key_and_selection (new_key_of record) (canonical record)) conn, n + 1)
    end.
Proof.
  unfold needs_rewrite, canonicalize_step. by repeat case_decide.
Qed.

(** The returned count is the number of fetched records that are not
    skipped. *)
Lemma canonicalize_count records st :
  (foldl step st records).2
    = st.2 + Z.of_nat (length (filter (λ record, writes record = true) records)).
Proof.
  revert st. induction records as [|record records IH]; intros [conn n].
  { simpl. lia. }
  cbn [foldl]. rewrite IH, filter_cons.
  destruct (writes record) eqn:E.
  - rewrite canonicalize_step_write by done.
    rewrite decide_True by done. cbn [length].
    destruct (get_request_by_key conn (new_key_of record)); cbn [snd]; lia.
  - rewrite canonicalize_step_skip by done. by rewrite decide_False.
Qed.

Lemma canonicalize_all_skipped records st :
  (∀ record, record ∈ records → writes record = false) →
  foldl step st records = st.
Proof.
  induction records as [|record records IH]; intros Hall; [done|].
  cbn [foldl]. rewrite canonicalize_step_skip by (apply Hall; left).
  apply IH. intros; apply Hall; by right.
Qed.

Lemma get_request_by_key_None (conn : Conn) key :
  get_request_by_key conn key = None ↔ key ∉ keys conn.
Proof.
  unfold get_request_by_key. rewrite <- fetchone_key_None.
  by destruct (Sql.fetchone (Sql.select (Sql.key_is key) conn)).
Qed.

Lemma elem_of_delete (where_ : Row → bool) (conn : Conn) row :
  row ∈ Sql.delete where_ conn ↔ row ∈ conn ∧ where_ row = false.
Proof. unfold Sql.delete. rewrite list_elem_of_filter. tauto. Qed.

Lemma delete_keys_NoDup (where_ : Row → bool) (conn : Conn) :
  NoDup (keys conn) → NoDup (keys (Sql.delete where_ conn)).
Proof.
  unfold keys, Sql.delete. intros Hnd.
  eapply sublist_NoDup; [done|]. apply fmap_sublist, sublist_filter.
Qed.

Lemma set_merged_core n b a f l row :
  core (record_of_row (set_merged n b a f l row)) = core (record_of_row row).
Proof. done. Qed.

Lemma key_of_core (row row' : Row) :
  core (record_of_row row) = core (record_of_row row') →
  col_request_key row = col_request_key row'.
Proof. unfold core. by intros [= -> _ _ _]. Qed.

Lemma core_request_key record (row : Row) :
  core (record_of_row row) = core record → col_request_key row = request_key record.
Proof. unfold core. by intros [= -> _ _ _]. Qed.

(** What a writing iteration does to the table, in terms of the four
    deciding columns: every row stored under another key keeps them, the
    row of the record disappears, and the only row that may appear carries
    the new key and the canonical selection. *)
Lemma canonicalize_step_shape conn n record todo :
  canon_inv (record :: todo) conn → writes record = true →
  let conn' := (step (conn, n) record).1 in
  NoDup (keys conn')
  ∧ (∀ row, row ∈ conn → col_request_key row ≠ request_key record →
       ∃ row', row' ∈ conn' ∧ core (record_of_row row') = core (record_of_row row))
  ∧ (∀ row', row' ∈ conn' →
       (∃ row, row ∈ conn ∧ col_request_key row ≠ request_key record
               ∧ core (record_of_row row') = core (record_of_row row))
       ∨ core (record_of_row row')
           = (new_key_of record, location_slug record, bundle_slug record,
              canonical record)).
Proof.
  intros (Hnd & Hndt & Hrows) Hw conn'. unfold conn'.
  destruct (Hrows record) as (row0 & Hin0 & Hcore0); [left|].
  pose proof (core_request_key _ _ Hcore0) as Hk0.
  rewrite canonicalize_step_write by done.
  destruct (get_request_by_key conn (new_key_of record)) as [existing|] eqn:Eget;
    cbn [fst].
  - (* merge into the row stored under the new key *)
    unfold merge_into. split; [|split].
    + apply delete_keys_NoDup. rewrite update_keys; done.
    + intros row Hrow Hk. eexists. split.
      * apply elem_of_delete. split.
        -- apply list_elem_of_fmap_2, Hrow.
        -- apply bool_decide_eq_false_2.
           destruct (Sql.key_is (new_key_of record) row); done.
      * by destruct (Sql.key_is (new_key_of record) row).
    + intros row' [(row & Hrow & ->)%update_elem_of Hk']%elem_of_delete.
      apply bool_decide_eq_false in Hk'. left. exists row. split; [done|].
      destruct (Sql.key_is (new_key_of record) row); done.
  - (* rewrite the row of the record in place *)
    apply get_request_by_key_None in Eget.
    destruct (update_split (request_key record)
                (set_key_and_selection (new_key_of record) (canonical record))
                conn row0 Hnd Hin0 Hk0) as (l1 & l2 & Hsplit & ->).
    rewrite Hsplit in Hnd, Eget. unfold keys in *.
    rewrite fmap_app, fmap_cons in Hnd, Eget |- *.
    apply NoDup_app in Hnd as (Hl1 & Hdisj & Hl2).
    apply NoDup_cons in Hl2 as [Hk0l2 Hl2].
    rewrite elem_of_app, elem_of_cons in Eget.
    split; [|split].
    + apply NoDup_app. split; [done|]. split.
      * intros k Hk [->|Hk2]%elem_of_cons.
        -- apply Eget. by left.
        -- apply (Hdisj k Hk). by right.
      * apply NoDup_cons. split; [|done]. intros Hin. apply Eget. right. by right.
    + intros row Hrow Hk. exists row. split; [|done].
      rewrite Hsplit in Hrow. rewrite elem_of_app, elem_of_cons in Hrow |- *.
      destruct Hrow as [?|[->|?]]; auto. congruence.
    + intros row' [Hrow'|[->|Hrow']%elem_of_cons]%elem_of_app.
      * left. exists row'. rewrite Hsplit, elem_of_app. split; [by left|].
        split; [|done]. intros Hk. apply (Hdisj (col_request_key row')).
        -- by apply list_elem_of_fmap_2.
        -- rewrite Hk, <- Hk0. left.
      * right. revert Hcore0. unfold core. by intros [= _ <- <- _].
      * left. exists row'. rewrite Hsplit, elem_of_app, elem_of_cons.
        split; [by right; right|]. split; [|done].
        intros Hk. apply Hk0l2. rewrite Hk0, <- Hk. by apply list_elem_of_fmap_2.
Qed.

Lemma canon_inv_init (conn : Conn) :
  NoDup (keys conn) → canon_inv (list_requests conn) conn.
Proof.
  intros Hnd. unfold canon_inv, list_requests. split; [done|]. split.
  - rewrite sorted_by_Permutation, <- list_fmap_compose. exact Hnd.
  - intros record Hrec. rewrite elem_of_sorted_by in Hrec.
    apply list_elem_of_fmap in Hrec as (row & -> & Hrow). eauto.
Qed.

Lemma canon_inv_tail record todo (conn : Conn) :
  canon_inv (record :: todo) conn → canon_inv todo conn.
Proof.
  intros (Hnd & Hndt & Hrows). rewrite fmap_cons in Hndt.
  apply NoDup_cons in Hndt as [_ Hndt]. split; [done|]. split; [done|].
  intros; apply Hrows; by right.
Qed.

Lemma canon_inv_step conn n record todo :
  canon_inv (record :: todo) conn → canon_inv todo (step (conn, n) record).1.
Proof.
  intros Hinv. destruct (writes record) eqn:Hw.
  - destruct (canonicalize_step_shape conn n record todo Hinv Hw)
      as (Hnd' & Hkeep & _).
    destruct Hinv as (Hnd & Hndt & Hrows). rewrite fmap_cons in Hndt.
    apply NoDup_cons in Hndt as [Hhead Hndt].
    split; [done|]. split; [done|].
    intros record' Hrec'. destruct (Hrows record') as (row & Hrow & Hcore); [by right|].
    destruct (Hkeep row Hrow) as (row' & Hrow' & Hcore').
    + rewrite (core_request_key _ _ Hcore). intros Hk. apply Hhead.
      rewrite <- Hk. by apply list_elem_of_fmap_2.
    + exists row'. split; [done|]. congruence.
  - rewrite canonicalize_step_skip by done. by apply canon_inv_tail in Hinv.
Qed.

(** A record with the same key as a fetched record that still awaits its
    turn is that record, as far as the pass can tell. *)
Lemma canon_inv_head conn record todo row :
  canon_inv (record :: todo) conn → row ∈ conn →
  col_request_key row = request_key record →
  core (record_of_row row) = core record.
Proof.
  intros (Hnd & _ & Hrows) Hrow Hk.
  destruct (Hrows record) as (row0 & Hrow0 & Hcore0); [left|].
  assert (row = row0) as ->; [|done].
  apply (NoDup_keys_inj conn); try done.
  by rewrite Hk, (core_request_key _ _ Hcore0).
Qed.

(** *** The canonical selection is a fixed point unless it is empty *)

Lemma length_remove_dups_le (l : list Z) : (length (remove_dups l) ≤ length l)%nat.
Proof.
  induction l as [|x l IH]; [done|]. cbn [remove_dups].
  destruct (decide_rel elem_of x l); cbn [length]; lia.
Qed.

Lemma length_normalize_le (l : list Z) :
  (length (normalize_norad_ids (Some l)) ≤ length l)%nat.
Proof.
  unfold normalize_norad_ids. cbn [Py.seq_of from_option id].
  destruct l as [|x l]; [done|].
  rewrite (Permutation_length (sorted_by_Permutation _ _)).
  apply length_remove_dups_le.
Qed.

Lemma length_slice_to (n : Z) (l : list Z) :
  0 ≤ n → Z.of_nat (length (Py.slice_to n l)) ≤ n.
Proof.
  intros Hn. unfold Py.slice_to.
  destruct (Z.ltb_spec n 0); [lia|]. rewrite length_take. lia.
Qed.

Lemma slice_to_all (n : Z) (l : list Z) :
  Z.of_nat (length l) ≤ n → Py.slice_to n l = l.
Proof.
  intros Hn. unfold Py.slice_to.
  destruct (Z.ltb_spec n 0); [lia|]. apply take_ge. lia.
Qed.

Lemma canonicalize_selection_nil available :
  canonicalize_selection (Some []) available = [].
Proof. done. Qed.

Lemma filter_all {A} (P : A → Prop) `{!∀ x, Decision (P x)} (l : list A) :
  (∀ x, x ∈ l → P x) → filter P l = l.
Proof.
  induction l as [|a l IH]; intros Hall; [done|].
  rewrite filter_cons_True by (apply Hall; left).
  f_equal. apply IH. intros x Hx. apply Hall. by right.
Qed.

Lemma canonical_selected_length record :
  0 ≤ max_satellites_per_request → canonical record ≠ [] →
  Z.of_nat (length (canonical record)) ≤ max_satellites_per_request.
Proof.
  intros Hmax. unfold canonical_selected.
  set (available := default [] (bundle_available_ids !! bundle_slug record)).
  set (selected1 := match normalize_norad_ids (Some (selected_norad_ids record)) with
                    | [] => default_selection (Some available) max_satellites_per_request
                    | _ => normalize_norad_ids (Some (selected_norad_ids record))
                    end).
  set (selected2 := match selected1 with
                    | [] => selected1
                    | _ => if max_satellites_per_request <? Z.of_nat (length selected1)
                           then Py.slice_to max_satellites_per_request selected1
                           else selected1
                    end).
  intros Hne.
  assert (Z.of_nat (length selected2) ≤ max_satellites_per_request) as Hlen2.
  { unfold selected2. destruct selected1 as [|x l] eqn:E; [simpl; lia|].
    destruct (Z.ltb_spec max_satellites_per_request (Z.of_nat (length (x :: l))));
      [by apply length_slice_to|lia]. }
  pose proof (canonicalize_selection_sublist (Some selected2) (Some available))
    as Hsub.
  apply sublist_length in Hsub.
  pose proof (length_normalize_le selected2). lia.
Qed.

Lemma canonical_selected_available record :
  let available :=
    normalize_norad_ids (Some (default [] (bundle_available_ids !! bundle_slug record))) in
  available ≠ [] → canonical record ≠ [] →
  (∀ x, x ∈ canonical record → x ∈ available) ∧ canonical record ≠ available.
Proof.
  intros available Ha. unfold canonical_selected.
  set (selected2 := match _ with [] => _ | _ => _ end).
  intros Hne.
  assert (normalize_norad_ids (Some selected2) ≠ []) as Hs.
  { intros Hnil. apply Hne. unfold canonicalize_selection. by rewrite Hnil. }
  revert Hne. rewrite canonicalize_selection_nonempty by done. cbv zeta.
  fold available. case_decide as Hfull; [done|]. intros _. split; [|done].
  by intros x [? _]%list_elem_of_filter.
Qed.

Lemma canonical_selected_fixed record record' :
  0 ≤ max_satellites_per_request →
  bundle_slug record' = bundle_slug record →
  selected_norad_ids record' = canonical record →
  canonical record ≠ [] →
  canonical record' = selected_norad_ids record'.
Proof.
  intros Hmax Hb Hs Hne.
  pose proof (canonical_selected_length record Hmax Hne) as Hlen.
  pose proof (canonical_selected_available record) as Hav. cbv zeta in Hav.
  assert (StronglySorted Z.lt (canonical record)) as Hsorted.
  { unfold canonical_selected. apply canonicalize_selection_sorted. }
  unfold canonical_selected at 1. rewrite Hb, Hs.
  set (available := default [] (bundle_available_ids !! bundle_slug record)) in *.
  rewrite normalize_fixed by done.
  destruct (canonical record) as [|c rest] eqn:Ec; [done|].
  destruct (Z.ltb_spec max_satellites_per_request (Z.of_nat (length (c :: rest))));
    [lia|].
  destruct (decide (normalize_norad_ids (Some available) = [])) as [Ha|Ha].
  - rewrite canonicalize_selection_no_available by by apply normalize_nil_iff in Ha.
    by apply normalize_fixed.
  - destruct (Hav Ha) as [Hin Hneq]; [done|].
    rewrite canonicalize_selection_nonempty; [|by rewrite normalize_fixed|done].
    cbv zeta. rewrite (normalize_fixed (c :: rest)) by done.
    rewrite filter_all by (intros; by apply Hin). by rewrite decide_False.
Qed.

(** *** Rows the pass has visited are settled *)

Lemma settled_core (row row' : Row) :
  core (record_of_row row) = core (record_of_row row') →
  settled bundle_available_ids max_satellites_per_request row →
  settled bundle_available_ids max_satellites_per_request row'.
Proof.
  intros Hcore Hs Hne. rewrite <- (needs_rewrite_core _ _ Hcore). apply Hs.
  assert (selected_norad_ids (record_of_row row)
          = selected_norad_ids (record_of_row row')) as ->; [|done].
  revert Hcore. unfold core. by intros [= _ _ _ ?].
Qed.

Lemma settled_step conn n record todo :
  0 ≤ max_satellites_per_request →
  canon_inv (record :: todo) conn →
  (∀ row, row ∈ conn → col_request_key row ∉ request_key <$> record :: todo →
          settled bundle_available_ids max_satellites_per_request row) →
  ∀ row', row' ∈ (step (conn, n) record).1 →
          col_request_key row' ∉ request_key <$> todo →
          settled bundle_available_ids max_satellites_per_request row'.
Proof.
  intros Hmax Hinv Hold row' Hrow' Hk'. rewrite fmap_cons in Hold.
  destruct (writes record) eqn:Hw.
  - destruct (canonicalize_step_shape conn n record todo Hinv Hw)
      as (_ & _ & Hshape).
    destruct (Hshape row' Hrow') as [(row & Hrow & Hk & Hcore)|Hcore].
    + apply (settled_core row); [done|]. apply Hold; [done|].
      rewrite not_elem_of_cons. split; [done|]. by rewrite <- (key_of_core _ _ Hcore).
    + intros Hsel. apply needs_rewrite_false. left.
      revert Hcore Hsel. unfold core. intros [= _ _ Hb Hs] Hsel.
      apply (canonical_selected_fixed record); try done. by rewrite <- Hs.
  - rewrite canonicalize_step_skip in Hrow' by done. cbn [fst] in Hrow'.
    destruct (decide (col_request_key row' = request_key record)) as [Hk|Hk].
    + intros _. rewrite (needs_rewrite_core _ record); [done|].
      by apply (canon_inv_head conn record todo).
    + apply Hold; [done|]. by rewrite not_elem_of_cons.
Qed.

Lemma settled_fold todo conn n :
  0 ≤ max_satellites_per_request →
  canon_inv todo conn →
  (∀ row, row ∈ conn → col_request_key row ∉ request_key <$> todo →
          settled bundle_available_ids max_satellites_per_request row) →
  ∀ row, row ∈ (foldl step (conn, n) todo).1 →
         settled bundle_available_ids max_satellites_per_request row.
Proof.
  intros Hmax. revert conn n. induction todo as [|record todo IH]; intros conn n Hinv Hold.
  - intros row Hrow. apply Hold; [done|]. apply not_elem_of_nil.
  - cbn [foldl].
    pose proof (canon_inv_step conn n record todo Hinv) as Hinv'.
    pose proof (settled_step conn n record todo Hmax Hinv Hold) as Hold'.
    destruct (step (conn, n) record) as [conn' n']. by apply IH.
Qed.

Lemma canonicalize_requests_settled (conn : Conn) :
  0 ≤ max_satellites_per_request → NoDup (keys conn) →
  ∀ row,
    row ∈ (canonicalize_requests conn bundle_available_ids max_satellites_per_request).1 →
    settled bundle_available_ids max_satellites_per_request row.
Proof.
  intros Hmax Hnd. apply settled_fold; [done|by apply canon_inv_init|].
  intros row Hrow Hk. exfalso. apply Hk. unfold list_requests.
  rewrite sorted_by_Permutation, <- list_fmap_compose.
  by apply (list_elem_of_fmap_2 (request_key ∘ record_of_row)).
Qed.

(** A record whose stored selection is empty is skipped when its bundle has
    no more available ids than the cap. *)
Lemma empty_selection_skipped record :
  0 ≤ max_satellites_per_request →
  selected_norad_ids record = [] →
  Z.of_nat (length (normalize_norad_ids
                      (Some (default [] (bundle_available_ids !! bundle_slug record)))))
    ≤ max_satellites_per_request →
  writes record = false.
Proof.
  intros Hmax Hsel Hlen. apply needs_rewrite_false. left. rewrite Hsel.
  unfold canonical_selected. rewrite Hsel.
  set (available := default [] (bundle_available_ids !! bundle_slug record)) in *.
  cbn [normalize_norad_ids Py.seq_of from_option id]. unfold default_selection.
  destruct (normalize_norad_ids (Some available)) as [|a rest] eqn:Ea; [done|].
  rewrite slice_to_all by done.
  destruct (Z.ltb_spec max_satellites_per_request (Z.of_nat (length (a :: rest))));
    [lia|].
  assert (StronglySorted Z.lt (a :: rest)) as Hsorted
    by (rewrite <- Ea; apply normalize_sorted).
  rewrite canonicalize_selection_nonempty.
  - cbv zeta. rewrite (normalize_fixed (a :: rest)), Ea by done.
    rewrite filter_all by done. by rewrite decide_True.
  - by rewrite normalize_fixed.
  - by rewrite Ea.
Qed.

(** *** A skipped record keeps its row *)

Lemma canon_inv_fold todo conn n :
  canon_inv todo conn → NoDup (keys (foldl step (conn, n) todo).1).
Proof.
  revert conn n. induction todo as [|record todo IH]; intros conn n Hinv.
  - by destruct Hinv.
  - cbn [foldl]. pose proof (canon_inv_step conn n record todo Hinv) as Hinv'.
    destruct (step (conn, n) record) as [conn' n']. by apply IH.
Qed.

Lemma skipped_row_kept todo conn n record0 :
  canon_inv todo conn → writes record0 = false →
  (∃ row, row ∈ conn ∧ core (record_of_row row) = core record0) →
  ∃ row, row ∈ (foldl step (conn, n) todo).1
         ∧ core (record_of_row row) = core record0.
Proof.
  intros Hinv Hskip. revert conn n Hinv.
  induction todo as [|record todo IH]; intros conn n Hinv Hrow; [done|].
  cbn [foldl].
  pose proof (canon_inv_step conn n record todo Hinv) as Hinv'.
  assert (∃ row, row ∈ (step (conn, n) record).1
                 ∧ core (record_of_row row) = core record0) as Hrow'.
  { destruct (writes record) eqn:Hw.
    - destruct (canonicalize_step_shape conn n record todo Hinv Hw)
        as (_ & Hkeep & _).
      destruct Hrow as (row & Hrow & Hcore).
      destruct (Hkeep row Hrow) as (row' & Hrow' & Hcore').
      + intros Hk.
        pose proof (canon_inv_head conn record todo row Hinv Hrow Hk) as Hhead.
        rewrite (needs_rewrite_core record0 record) in Hskip by congruence.
        congruence.
      + exists row'. split; [done|]. congruence.
    - by rewrite canonicalize_step_skip by done. }
  destruct (step (conn, n) record) as [conn' n']. by apply IH.
Qed.

End canonicalize.

(** C4, amended. For a fixed availability map and a cap that is not
    negative, on a table with unique keys: if every row that the first run
    of [canonicalize_requests] leaves with an empty selection belongs to a
    bundle with no more available ids than the cap, then the second run
    skips every record, leaves the table as it is and returns 0. *)
Theorem canonicalize_requests_second_run
    (conn : Conn) (bundle_available_ids : gmap string (list Z))
    (max_satellites_per_request : Z) :
  NoDup (keys conn) → 0 ≤ max_satellites_per_request →
  let first := canonicalize_requests conn bundle_available_ids max_satellites_per_request in
  (∀ row, row ∈ first.1 → Py.seq_of (col_selected_norad_ids row) = [] →
     Z.of_nat (length (normalize_norad_ids
                         (Some (default [] (bundle_available_ids !! col_bundle_slug row)))))
       ≤ max_satellites_per_request) →
  (∀ record, record ∈ list_requests first.1 →
     needs_rewrite bundle_available_ids max_satellites_per_request record = false)
  ∧ canonicalize_requests first.1 bundle_available_ids max_satellites_per_request
      = (first.1, 0).
Proof.
  intros Hnd Hmax first Hempty.
  assert (∀ record, record ∈ list_requests first.1 →
            needs_rewrite bundle_available_ids max_satellites_per_request record = false)
    as Hskip.
  { intros record Hrec. unfold list_requests in Hrec.
    rewrite elem_of_sorted_by in Hrec.
    apply list_elem_of_fmap in Hrec as (row & -> & Hrow).
    destruct (decide (selected_norad_ids (record_of_row row) = [])) as [Hsel|Hsel].
    - apply empty_selection_skipped; [done..|]. by apply Hempty.
    - by apply (canonicalize_requests_settled bundle_available_ids
                  max_satellites_per_request conn Hmax Hnd row Hrow). }
  split; [done|]. unfold canonicalize_requests at 1.
  by apply canonicalize_all_skipped.
Qed.

Lemma canonicalize_requests_second_run_witness :
  let available : gmap string (list Z) := {[ "weather" := [1; 2; 3] ]} in
  let first := canonicalize_requests (weather_conn [1; 2; 3]) available 12 in
  col_selected_norad_ids <$> first.1 = [Some []]
  ∧ canonicalize_requests first.1 available 12 = (first.1, 0).
Proof.
  intros available first. split; [by vm_compute|].
  apply (canonicalize_requests_second_run (weather_conn [1; 2; 3]) available 12).
  - apply (bool_decide_unpack _). vm_compute. exact I.
  - lia.
  - apply (proj1 (Forall_forall
             (λ row, Py.seq_of (col_selected_norad_ids row) = [] →
                     Z.of_nat (length (normalize_norad_ids
                       (Some (default [] (available !! col_bundle_slug row))))) ≤ 12)
             (canonicalize_requests (weather_conn [1; 2; 3]) available 12).1)).
    apply (bool_decide_unpack _). vm_compute. exact I.
Defined.

(** C1, amended. On a table with unique keys, a fetched record whose
    recomputed canonical selection differs from its stored selection but
    whose newly derived key equals its current key is skipped by the pass:
    afterwards a row is still stored under its key with the stored
    selection, slug and bundle it had, the selection column was not
    rewritten to the canonical selection, and the record is not counted:
    the returned count is the number of fetched records whose canonical
    selection and derived key both differ from what is stored. *)
Theorem canonicalize_requests_same_key_skipped
    (conn : Conn) (bundle_available_ids : gmap string (list Z))
    (max_satellites_per_request : Z) (record : RequestRecord) :
  NoDup (keys conn) → record ∈ list_requests conn →
  canonical_selected bundle_available_ids max_satellites_per_request record
    ≠ selected_norad_ids record →
  request_key_for (location_slug record) (bundle_slug record)
      (Some (canonical_selected bundle_available_ids max_satellites_per_request record))
    = request_key record →
  let result := canonicalize_requests conn bundle_available_ids max_satellites_per_request in
  (∃ row, row ∈ result.1 ∧ core (record_of_row row) = core record)
  ∧ ¬ rewritten_in_place conn bundle_available_ids max_satellites_per_request record
  ∧ needs_rewrite bundle_available_ids max_satellites_per_request record = false
  ∧ result.2
      = Z.of_nat (length (filter
          (λ record',
             needs_rewrite bundle_available_ids max_satellites_per_request record' = true)
          (list_requests conn))).
Proof.
  intros Hnd Hrec Hsel Hkey result.
  assert (needs_rewrite bundle_available_ids max_satellites_per_request record = false)
    as Hskip by (apply needs_rewrite_false; by right).
  pose proof (canon_inv_init conn Hnd) as Hinv.
  assert (∃ row, row ∈ result.1 ∧ core (record_of_row row) = core record) as Hkept.
  { unfold result, canonicalize_requests.
    apply skipped_row_kept; [done|done|].
    destruct Hinv as (_ & _ & Hrows). by apply Hrows. }
  split; [done|]. split; [|split; [done|]].
  - intros (row' & Hrow' & Hk' & Hsel').
    destruct Hkept as (row & Hrow & Hcore).
    assert (row' = row) as ->.
    { apply (NoDup_keys_inj result.1); try done.
      - by apply canon_inv_fold.
      - by rewrite Hk', (core_request_key _ _ Hcore). }
    revert Hcore. unfold core. intros [= _ _ _ Hs]. rewrite Hsel' in Hs. done.
  - unfold result, canonicalize_requests. by rewrite canonicalize_count.
Qed.

Lemma canonicalize_requests_same_key_skipped_witness :
  let conn := weather_conn [58164; 182700] in
  let available : gmap string (list Z) := {[ "weather" := [58164; 25544] ]} in
  let result := canonicalize_requests conn available 12 in
  canonical_selected available 12 colliding_record = [58164]
  ∧ selected_norad_ids colliding_record = [58164; 182700]
  ∧ (∃ row, row ∈ result.1 ∧ core (record_of_row row) = core colliding_record)
  ∧ needs_rewrite available 12 colliding_record = false.
Proof.
  intros conn available result.
  split; [by vm_compute|]. split; [by vm_compute|].
  destruct (canonicalize_requests_same_key_skipped conn available 12 colliding_record)
    as (Hkept & _ & Hskip & _).
  - apply (bool_decide_unpack _). vm_compute. exact I.
  - apply (bool_decide_unpack _). vm_compute. exact I.
  - vm_compute. discriminate.
  - vm_compute. reflexivity.
  - split; assumption.
Defined.

(** ** Re-reading after an upsert *)

(** The record returned by [upsert_request] can always be read back under
    its key: [upsert_request] itself performs no such read and has no
    failure branch. *)
Lemma upsert_request_readable (conn : Conn) request precision now :
  NoDup (keys conn) →
  let result := upsert_request conn request precision now in
  ∃ stored,
    get_request_by_key result.1 (request_key result.2) = Some stored
    ∧ request_key stored = request_key result.2.
Proof.
  intros Hnd result.
  destruct (upsert_request_wf conn request precision now Hnd) as (_ & _ & Hin).
  fold result in Hin.
  destruct (get_request_by_key result.1 (request_key result.2)) as [stored|] eqn:E.
  - exists stored. split; [done|]. unfold get_request_by_key in E.
    destruct (Sql.fetchone (Sql.select (Sql.key_is (request_key result.2)) result.1))
      as [row|] eqn:Erow; [|done].
    apply fetchone_select_Some in Erow as [_ Hk%bool_decide_eq_true].
    by injection E as <-.
  - by apply get_request_by_key_None in E.
Qed.

(** * Further properties *)

(** ** [ensure_location_keys] *)

(** X1. On a table with unique keys [ensure_location_keys] gives every row that
    lacks a location key the key derived from its coordinates and changes
    nothing else: afterwards no row lacks one, the rows that had one are as
    they were, the returned count is the number of rows that lacked one,
    and a second call returns 0 and changes nothing. *)
Theorem ensure_location_keys_backfills (conn : Conn) precision :
  NoDup (keys conn) →
  let result := ensure_location_keys conn precision in
  (∀ row, row ∈ result.1 → location_key_missing row = false)
  ∧ (∀ i row, conn !! i = Some row →
       result.1 !! i
         = Some (if location_key_missing row
                 then set_location_key
                        (location_key_for (col_lat row) (col_lon row) precision) row
                 else row))
  ∧ result.2
      = Z.of_nat (length (filter (λ row, location_key_missing row = true) conn))
  ∧ ensure_location_keys result.1 precision = (result.1, 0).
Proof.
  intros Hnd result.
  assert (result.1 = backfill precision <$> conn) as Hspec
    by by apply ensure_location_keys_spec.
  assert (∀ row, row ∈ result.1 → location_key_missing row = false) as Hp.
  { rewrite Hspec. intros row (row0 & -> & _)%list_elem_of_fmap.
    apply backfill_not_missing. }
  split; [done|]. split; [|split].
  - intros i row Hi. rewrite Hspec, list_lookup_fmap, Hi. done.
  - done.
  - by apply ensure_location_keys_noop.
Qed.

Lemma ensure_location_keys_backfills_witness :
  let result := ensure_location_keys legacy_conn 4 in
  result.2 = 3 ∧ ensure_location_keys result.1 4 = (result.1, 0).
Proof.
  destruct (ensure_location_keys_backfills legacy_conn 4) as (_ & _ & Hcount & Hnoop).
  - apply (bool_decide_unpack _). vm_compute. exact I.
  - split; [|exact Hnoop]. rewrite Hcount. vm_compute. reflexivity.
Defined.

(** ** Attribution under [upsert_request] *)

Lemma coalesce_or_str_value (column value : option string) :
  Sql.coalesce column (Py.or_str column value) = Sql.coalesce column value.
Proof. by destruct column. Qed.

Lemma backfill_columns precision row :
  col_request_key (backfill precision row) = col_request_key row
  ∧ col_first_seen (backfill precision row) = col_first_seen row
  ∧ col_last_seen (backfill precision row) = col_last_seen row
  ∧ col_name (backfill precision row) = col_name row
  ∧ col_requested_by (backfill precision row) = col_requested_by row
  ∧ col_requested_at (backfill precision row) = col_requested_at row
  ∧ col_selected_norad_ids (backfill precision row) = col_selected_norad_ids row
  ∧ col_bundle_slug (backfill precision row) = col_bundle_slug row
  ∧ col_location_slug (backfill precision row) = col_location_slug row.
Proof. unfold backfill. by destruct (location_key_missing row). Qed.

(** X2. First writer wins. On a table with unique keys the key that
    [upsert_request] returns is the key of a stored row that carries the
    signature of the request or, when no stored row carries it, the key of
    the request.  Every row is still stored under its key after the call,
    with its [first_seen] unchanged.  A row stored under another key than
    the returned one keeps its name, requester, request time and
    [last_seen].  The row stored under the returned key has the time of the
    call as its [last_seen], and each of its three attribution columns
    keeps its value if it had one (even the empty string) and takes the
    value of the request if it was NULL. *)
Theorem upsert_request_first_writer_wins (conn : Conn) request precision now :
  NoDup (keys conn) →
  let result := upsert_request conn request precision now in
  ((∃ row, row ∈ conn
           ∧ signature_of request precision (backfill precision row) = true
           ∧ col_request_key row = request_key result.2)
   ∨ ((∀ row, row ∈ conn → signature_of request precision (backfill precision row) = false)
      ∧ request_key result.2 = key_of request precision))
  ∧ request_key result.2 ∈ keys result.1
  ∧ ∀ row, row ∈ conn →
      ∃ row', row' ∈ result.1
        ∧ col_request_key row' = col_request_key row
        ∧ col_first_seen row' = col_first_seen row
        ∧ (col_request_key row ≠ request_key result.2 →
           col_name row' = col_name row
           ∧ col_requested_by row' = col_requested_by row
           ∧ col_requested_at row' = col_requested_at row
           ∧ col_last_seen row' = col_last_seen row)
        ∧ (col_request_key row = request_key result.2 →
           col_last_seen row' = now
           ∧ col_name row' = Sql.coalesce (col_name row) (r_name request)
           ∧ col_requested_by row'
               = Sql.coalesce (col_requested_by row) (r_requested_by request)
           ∧ col_requested_at row'
               = Sql.coalesce (col_requested_at row) (r_requested_at request)).
Proof.
  intros Hnd result.
  pose proof (upsert_request_conn conn request precision now Hnd) as Hc.
  pose proof (upsert_request_returned conn request precision now Hnd) as Hr.
  destruct (upsert_request_wf conn request precision now Hnd) as (_ & _ & Hstored).
  fold result in Hc, Hr, Hstored. cbv zeta in Hc, Hr.
  set (conn0 := backfill precision <$> conn) in *.
  split; [|split; [done|]].
  { (* the returned key *)
    destruct (Sql.fetchone (Sql.select (signature_of request precision) conn0))
      as [existing|] eqn:Esig.
    - left. apply fetchone_select_Some in Esig as [Hin Hsig].
      apply list_elem_of_fmap in Hin as (row & -> & Hrow).
      exists row. split; [done|]. split; [done|].
      rewrite Hr. cbn [returned_existing request_key record_of_row].
      symmetry. apply backfill_key.
    - right. split.
      + intros row Hrow. apply (proj1 (fetchone_select_None _ _) Esig).
        by apply list_elem_of_fmap_2.
      + rewrite Hr. by destruct (Sql.fetchone (Sql.select (Sql.key_is _) conn0)). }
  intros row Hrow.
  destruct (backfill_columns precision row)
    as (Hk & Hfs & Hls & Hn & Hby & Hat & _).
  assert (backfill precision row ∈ conn0) as Hrow0 by by apply list_elem_of_fmap_2.
  assert (∀ key, key = request_key result.2 →
            result.1 = Sql.update (Sql.key_is key)
                         (touch_for request precision now) conn0 →
            ∃ row', row' ∈ result.1
              ∧ col_request_key row' = col_request_key row
              ∧ col_first_seen row' = col_first_seen row
              ∧ (col_request_key row ≠ request_key result.2 →
                 col_name row' = col_name row
                 ∧ col_requested_by row' = col_requested_by row
                 ∧ col_requested_at row' = col_requested_at row
                 ∧ col_last_seen row' = col_last_seen row)
              ∧ (col_request_key row = request_key result.2 →
                 col_last_seen row' = now
                 ∧ col_name row' = Sql.coalesce (col_name row) (r_name request)
                 ∧ col_requested_by row'
                     = Sql.coalesce (col_requested_by row) (r_requested_by request)
                 ∧ col_requested_at row'
                     = Sql.coalesce (col_requested_at row) (r_requested_at request)))
    as Hupdate.
  { intros key Hkey ->.
    exists (if Sql.key_is key (backfill precision row)
            then touch_for request precision now (backfill precision row)
            else backfill precision row).
    split.
    { by apply (list_elem_of_fmap_2
                  (λ r, if Sql.key_is key r then touch_for request precision now r
                        else r)). }
    unfold Sql.key_is. case_bool_decide as Hkeq.
    - unfold touch_for, touch_row.
      cbn [col_request_key col_first_seen col_last_seen col_name col_requested_by
           col_requested_at].
      rewrite !coalesce_or_str_value, Hn, Hby, Hat.
      split; [done|]. split; [done|]. split; [|done].
      intros Hne. destruct Hne. by rewrite <- Hkey, <- Hkeq, Hk.
    - split; [done|]. split; [done|]. split; [done|].
      intros Heq. destruct Hkeq. by rewrite Hkey, <- Heq, Hk. }
  destruct (Sql.fetchone (Sql.select (signature_of request precision) conn0))
    as [existing|] eqn:Esig.
  - apply (Hupdate (col_request_key existing)); [by rewrite Hr|done].
  - destruct (Sql.fetchone (Sql.select (Sql.key_is (key_of request precision)) conn0))
      as [existing|] eqn:Ekey.
    + apply (Hupdate (key_of request precision)); [by rewrite Hr|done].
    + exists (backfill precision row). rewrite Hc.
      split; [apply elem_of_app; by left|]. split; [done|]. split; [done|].
      split; [done|]. intros Heq. exfalso.
      apply fetchone_key_None in Ekey. apply Ekey.
      rewrite Hr in Heq. cbn [returned_requested request_key] in Heq.
      rewrite <- Heq, <- Hk. by apply (list_elem_of_fmap_2 col_request_key).
Qed.

Lemma upsert_request_first_writer_wins_witness :
  let result :=
    upsert_request legacy_conn blacksburg_request 4 "2026-01-01T00:00:00Z" in
  request_key result.2 = "casa--stations"
  ∧ ∃ row',
      row' ∈ result.1
      ∧ col_request_key row' = "casa--stations"
      ∧ col_first_seen row' = "2025-01-01T00:00:00Z"
      ∧ col_last_seen row' = "2026-01-01T00:00:00Z"
      ∧ col_name row' = Some "Home again"
      ∧ col_requested_by row' = Some "bob".
Proof.
  intros result.
  assert (request_key result.2 = "casa--stations") as Hkey by (vm_compute; reflexivity).
  split; [exact Hkey|].
  destruct (upsert_request_first_writer_wins legacy_conn blacksburg_request 4
              "2026-01-01T00:00:00Z") as (_ & _ & Hrows).
  - apply (bool_decide_unpack _). vm_compute. exact I.
  - destruct (Hrows (blacksburg "casa" None None
                       "2025-01-01T00:00:00Z" "2025-01-01T00:00:00Z"))
      as (row' & Hrow' & Hk & Hfs & _ & Htouched); [left|].
    destruct Htouched as (Hls & Hn & Hby & _); [symmetry; exact Hkey|].
    exists row'. split; [exact Hrow'|]. split; [exact Hk|]. split; [exact Hfs|].
    split; [exact Hls|]. split; [exact Hn|exact Hby].
Defined.

(** ** Round trip of a request that matches nothing *)

Lemma record_of_new_row request precision now :
  record_of_row (new_row request precision now)
    = returned_requested request precision now now
        (r_requested_by request) (r_requested_at request).
Proof.
  unfold record_of_row, new_row, returned_requested.
  cbn [col_request_key col_location_slug col_location_key col_bundle_slug col_lat
       col_lon col_elevation_m col_name col_selected_norad_ids col_requested_by
       col_requested_at col_first_seen col_last_seen from_option id Py.seq_of].
  unfold selection_payload. by rewrite normalize_idemp.
Qed.

(** X3. On a table with unique keys whose rows all have a location key, a
    request that neither lookup finds is inserted: the table grows by one
    row, [first_seen] and [last_seen] of the returned record are the time
    of the call, its selection is the normalized selection of the request,
    and both [get_request_by_key] with the returned key and
    [get_request_by_signature] with the signature of the request read back
    exactly the returned record. *)
Theorem upsert_request_insert_round_trip (conn : Conn) request precision now :
  NoDup (keys conn) →
  (∀ row, row ∈ conn → location_key_missing row = false) →
  get_request_by_signature conn
    (location_key_for (r_lat request) (r_lon request) precision)
    (r_bundle_slug request) (r_selected_norad_ids request) = None →
  get_request_by_key conn
    (request_key_for (resolved_location_slug request precision)
       (r_bundle_slug request) (r_selected_norad_ids request)) = None →
  let result := upsert_request conn request precision now in
  length result.1 = S (length conn)
  ∧ first_seen result.2 = now
  ∧ last_seen result.2 = now
  ∧ selected_norad_ids result.2 = normalize_norad_ids (r_selected_norad_ids request)
  ∧ get_request_by_key result.1 (request_key result.2) = Some result.2
  ∧ get_request_by_signature result.1
      (location_key_for (r_lat request) (r_lon request) precision)
      (r_bundle_slug request) (r_selected_norad_ids request) = Some result.2.
Proof.
  intros Hnd Hp Hsig Hkey result.
  assert (key_of request precision
          = request_key_for (resolved_location_slug request precision)
              (r_bundle_slug request) (r_selected_norad_ids request)) as Hkeyof.
  { unfold key_of, request_key_for. by rewrite normalize_idemp. }
  assert (∀ row, signature_of request precision row
                 = signature_is
                     (location_key_for (r_lat request) (r_lon request) precision)
                     (r_bundle_slug request)
                     (selection_payload (r_selected_norad_ids request)) row) as Hsigof.
  { intros row. unfold signature_of, selection_payload. by rewrite normalize_idemp. }
  rewrite <- Hkeyof in Hkey. apply get_request_by_key_None in Hkey.
  assert (∀ row, row ∈ conn → signature_of request precision row = false) as Hnone.
  { unfold get_request_by_signature in Hsig.
    destruct (Sql.fetchone _) eqn:E in Hsig; [done|].
    intros row Hrow. rewrite Hsigof.
    by apply (proj1 (fetchone_select_None _ conn) E). }
  pose proof (upsert_request_conn conn request precision now Hnd) as Hc.
  pose proof (upsert_request_returned conn request precision now Hnd) as Hr.
  fold result in Hc, Hr. cbv zeta in Hc, Hr.
  rewrite backfill_all_present in Hc, Hr by done.
  rewrite (proj2 (fetchone_select_None _ conn) Hnone) in Hc, Hr.
  rewrite (proj2 (fetchone_key_None _ conn) Hkey) in Hc, Hr.
  rewrite Hc, Hr, <- record_of_new_row.
  split; [rewrite length_app; simpl; lia|].
  split; [done|]. split; [done|].
  split; [by rewrite record_of_new_row|].
  assert (NoDup (keys (conn ++ [new_row request precision now]))) as Hnd'.
  { unfold keys. rewrite fmap_app. apply NoDup_app. split; [done|].
    split; [|apply NoDup_singleton].
    intros k Hk ->%list_elem_of_singleton. by apply Hkey. }
  split.
  - unfold get_request_by_key.
    rewrite (fetchone_key_Some _ _ (new_row request precision now)); try done.
    apply elem_of_app. right. left.
  - unfold get_request_by_signature, Sql.select. rewrite filter_app.
    rewrite (filter_none _ conn).
    + rewrite filter_cons_True; [done|]. rewrite <- Hsigof. apply new_row_signature.
    + intros row Hrow. rewrite <- Hsigof, (Hnone row Hrow). done.
Qed.

Lemma upsert_request_insert_round_trip_witness :
  let result := upsert_request [] (seattle (Some [25544; 25544])) 4 "2026-01-01T00:00:00Z" in
  get_request_by_key result.1 (request_key result.2) = Some result.2
  ∧ selected_norad_ids result.2 = [25544].
Proof.
  destruct (upsert_request_insert_round_trip [] (seattle (Some [25544; 25544])) 4
              "2026-01-01T00:00:00Z") as (_ & _ & _ & Hsel & Hget & _).
  - constructor.
  - intros row Hrow. inversion Hrow.
  - reflexivity.
  - reflexivity.
  - split; [exact Hget|]. rewrite Hsel. vm_compute. reflexivity.
Defined.

(** ** Sequences of upserts *)

Lemma update_elem_of_2 key (f : Row → Row) (conn : Conn) row :
  row ∈ conn →
  (if Sql.key_is key row then f row else row) ∈ Sql.update (Sql.key_is key) f conn.
Proof.
  intros Hrow. unfold Sql.update.
  by apply (list_elem_of_fmap_2 (λ r, if Sql.key_is key r then f r else r)).
Qed.

Lemma upsert_request_recognises (conn : Conn) request precision now :
  NoDup (keys conn) →
  recognised request precision (upsert_request conn request precision now).1.
Proof.
  intros Hnd. rewrite upsert_request_conn by done.
  set (conn0 := backfill precision <$> conn).
  assert (∀ row, row ∈ conn0 → location_key_missing row = false) as Hp0.
  { intros row (row0 & -> & _)%list_elem_of_fmap. apply backfill_not_missing. }
  destruct (Sql.fetchone (Sql.select (signature_of request precision) conn0))
    as [existing|] eqn:Esig.
  - apply fetchone_select_Some in Esig as [Hin Hsig]. left.
    exists (touch_for request precision now existing). split.
    + assert (touch_for request precision now existing
              = if Sql.key_is (col_request_key existing) existing
                then touch_for request precision now existing else existing) as ->.
      { unfold Sql.key_is. by rewrite bool_decide_eq_true_2. }
      by apply update_elem_of_2.
    + unfold signature_of. rewrite touch_for_signature by by apply Hp0. exact Hsig.
  - destruct (Sql.fetchone (Sql.select (Sql.key_is (key_of request precision)) conn0))
      as [existing|] eqn:Ekey.
    + right. rewrite update_keys by done.
      apply fetchone_select_Some in Ekey as [Hin Hk%bool_decide_eq_true].
      rewrite <- Hk. by apply list_elem_of_fmap_2.
    + left. exists (new_row request precision now).
      split; [apply elem_of_app; right; left|apply new_row_signature].
Qed.

Lemma recognised_preserved (conn : Conn) request precision request' precision' now' :
  NoDup (keys conn) →
  (∀ row, row ∈ conn → location_key_missing row = false) →
  recognised request precision conn →
  recognised request precision (upsert_request conn request' precision' now').1.
Proof.
  intros Hnd Hp Hrec. rewrite upsert_request_conn by done.
  rewrite backfill_all_present by done.
  assert (∀ key,
            recognised request precision
              (Sql.update (Sql.key_is key) (touch_for request' precision' now') conn))
    as Hupdate.
  { intros key. destruct Hrec as [(row & Hrow & Hsig)|Hk].
    - left.
      exists (if Sql.key_is key row then touch_for request' precision' now' row else row).
      split; [by apply update_elem_of_2|].
      destruct (Sql.key_is key row); [|done].
        unfold signature_of. rewrite touch_for_signature by by apply Hp. exact Hsig.
    - right. by rewrite update_keys. }
  destruct (Sql.fetchone (Sql.select (signature_of request' precision') conn));
    [apply Hupdate|].
  destruct (Sql.fetchone (Sql.select (Sql.key_is (key_of request' precision')) conn));
    [apply Hupdate|].
  destruct Hrec as [(row & Hrow & Hsig)|Hk].
  - left. exists row. split; [apply elem_of_app; by left|done].
  - right. unfold keys. rewrite fmap_app. apply elem_of_app. by left.
Qed.

Lemma recognised_no_insert (conn : Conn) request precision now :
  NoDup (keys conn) →
  (∀ row, row ∈ conn → location_key_missing row = false) →
  recognised request precision conn →
  keys (upsert_request conn request precision now).1 = keys conn.
Proof.
  intros Hnd Hp Hrec. rewrite upsert_request_conn by done.
  rewrite backfill_all_present by done.
  destruct (Sql.fetchone (Sql.select (signature_of request precision) conn))
    as [existing|] eqn:Esig; [by apply update_keys|].
  destruct (Sql.fetchone (Sql.select (Sql.key_is (key_of request precision)) conn))
    as [existing|] eqn:Ekey; [by apply update_keys|].
  exfalso. destruct Hrec as [(row & Hrow & Hsig)|Hk].
  - rewrite (proj1 (fetchone_select_None _ conn) Esig row Hrow) in Hsig. done.
  - by apply fetchone_key_None in Ekey.
Qed.

Lemma upsert_all_wf (conn : Conn) calls :
  NoDup (keys conn) →
  (∀ row, row ∈ conn → location_key_missing row = false) →
  NoDup (keys (upsert_all conn calls))
  ∧ ∀ row, row ∈ upsert_all conn calls → location_key_missing row = false.
Proof.
  revert conn. induction calls as [|call calls IH]; intros conn Hnd Hp; [done|].
  destruct (upsert_request_wf conn call.1.1 call.1.2 call.2 Hnd) as (Hnd' & Hp' & _).
  by apply IH.
Qed.

Lemma upsert_all_recognised (conn : Conn) calls request precision :
  NoDup (keys conn) →
  (∀ row, row ∈ conn → location_key_missing row = false) →
  recognised request precision conn →
  recognised request precision (upsert_all conn calls).
Proof.
  revert conn. induction calls as [|call calls IH]; intros conn Hnd Hp Hrec; [done|].
  destruct (upsert_request_wf conn call.1.1 call.1.2 call.2 Hnd) as (Hnd' & Hp' & _).
  apply IH; [done..|]. by apply recognised_preserved.
Qed.

(** X4. Once a request has been upserted, upserting it again at the same
    precision never inserts a row, whatever other upserts were made in
    between: the list of stored keys is the same before and after the
    repeated call. *)
Theorem upsert_request_never_inserts_twice
    (conn : Conn) request precision now now' calls :
  NoDup (keys conn) →
  let once := (upsert_request conn request precision now).1 in
  let later := upsert_all once calls in
  keys (upsert_request later request precision now').1 = keys later.
Proof.
  intros Hnd once later.
  destruct (upsert_request_wf conn request precision now Hnd) as (Hnd1 & Hp1 & _).
  destruct (upsert_all_wf once calls Hnd1 Hp1) as [Hnd2 Hp2].
  apply recognised_no_insert; [done..|].
  apply upsert_all_recognised; [done..|]. by apply upsert_request_recognises.
Qed.

Lemma upsert_request_never_inserts_twice_witness :
  let once :=
    (upsert_request legacy_conn blacksburg_request 4 "2026-01-01T00:00:00Z").1 in
  let later :=
    upsert_all once [(seattle None, 6%nat, "2026-01-02T00:00:00Z");
                     (weather_request [1; 2], 4%nat, "2026-01-03T00:00:00Z")] in
  keys (upsert_request later blacksburg_request 4 "2026-01-04T00:00:00Z").1 = keys later.
Proof.
  apply (upsert_request_never_inserts_twice legacy_conn blacksburg_request 4).
  apply (bool_decide_unpack _). vm_compute. exact I.
Defined.

(** ** [migrate_yaml_requests] *)

Lemma migrate_yaml_requests_conn (conn : Conn) precision loaded records :
  (foldl (λ st req,
            let result := upsert_request st.1 req.1 precision req.2 in
            (result.1, st.2 ++ [result.2]))
         (conn, records) loaded).1
    = upsert_all conn ((λ req, (req.1, precision, req.2)) <$> loaded).
Proof.
  revert conn records. induction loaded as [|req loaded IH]; intros conn records; [done|].
  cbn [foldl fmap list_fmap]. by rewrite IH.
Qed.

(** X5. The import of a batch of request definitions on a table with unique
    keys: one record is returned per definition, each under a key that is
    stored afterwards; the keys stored before stay where they were and new
    keys are appended, so the table grows by at most one row per
    definition; keys stay unique. *)
Theorem migrate_yaml_requests_appends (conn : Conn) precision loaded :
  NoDup (keys conn) →
  let result := migrate_yaml_requests conn precision loaded in
  length result.2 = length loaded
  ∧ NoDup (keys result.1)
  ∧ keys conn `prefix_of` keys result.1
  ∧ (length result.1 ≤ length conn + length loaded)%nat
  ∧ ∀ record, record ∈ result.2 → request_key record ∈ keys result.1.
Proof.
  intros Hnd result. unfold result, migrate_yaml_requests.
  assert (∀ records,
            let result :=
              foldl (λ st req,
                       let result := upsert_request st.1 req.1 precision req.2 in
                       (result.1, st.2 ++ [result.2])) (conn, records) loaded in
            (∀ record, record ∈ records → request_key record ∈ keys conn) →
            length result.2 = (length records + length loaded)%nat
            ∧ NoDup (keys result.1)
            ∧ keys conn `prefix_of` keys result.1
            ∧ (length result.1 ≤ length conn + length loaded)%nat
            ∧ ∀ record, record ∈ result.2 → request_key record ∈ keys result.1)
    as Hgen.
  { clear result. revert conn Hnd.
    induction loaded as [|req loaded IH]; intros conn Hnd records result Hrecs.
    - unfold result. cbn [foldl fst snd length]. repeat split; try done; lia.
    - unfold result. cbn [foldl fst snd].
      destruct (upsert_request_wf conn req.1 precision req.2 Hnd) as (Hnd' & _ & Hin').
      pose proof (upsert_request_keys conn req.1 precision req.2 Hnd) as Hkeys.
      cbv zeta in Hkeys.
      set (step := upsert_request conn req.1 precision req.2) in *.
      assert (keys conn `prefix_of` keys step.1) as Hprefix.
      { destruct Hkeys as [->| ->]; [done|by apply prefix_app_r]. }
      assert (length step.1 ≤ S (length conn))%nat as Hlen.
      { rewrite <- (length_fmap col_request_key step.1),
                <- (length_fmap col_request_key conn).
        fold (keys step.1) (keys conn).
        destruct Hkeys as [->| ->]; [lia|]. rewrite length_app. simpl. lia. }
      destruct (IH step.1 Hnd' (records ++ [step.2])) as (H1 & H2 & H3 & H4 & H5).
      { intros record [Hrec| ->%list_elem_of_singleton]%elem_of_app; [|done].
        apply (elem_of_prefix (keys conn)); auto. }
      rewrite length_app in H1. cbn [length] in *.
      repeat split; try done; [lia|by etrans|lia]. }
  destruct (Hgen []) as (H1 & H2 & H3 & H4 & H5).
  { intros record Hrec. by apply elem_of_nil in Hrec. }
  done.
Qed.

Lemma migrate_yaml_requests_appends_witness :
  let result :=
    migrate_yaml_requests legacy_conn 4
      [(seattle None, "2026-01-01T00:00:00Z"); (seattle None, "2026-01-02T00:00:00Z")] in
  length result.2 = 2%nat ∧ keys legacy_conn `prefix_of` keys result.1.
Proof.
  destruct (migrate_yaml_requests_appends legacy_conn 4
              [(seattle None, "2026-01-01T00:00:00Z");
               (seattle None, "2026-01-02T00:00:00Z")])
    as (Hlen & _ & Hprefix & _).
  - apply (bool_decide_unpack _). vm_compute. exact I.
  - split; [exact Hlen|exact Hprefix].
Defined.

Lemma upsert_all_recognises_each (conn : Conn) calls :
  NoDup (keys conn) →
  ∀ call, call ∈ calls → recognised call.1.1 call.1.2 (upsert_all conn calls).
Proof.
  revert conn. induction calls as [|call0 calls IH]; intros conn Hnd call Hcall.
  { by apply elem_of_nil in Hcall. }
  destruct (upsert_request_wf conn call0.1.1 call0.1.2 call0.2 Hnd) as (Hnd' & Hp' & _).
  cbn [upsert_all foldl]. fold (upsert_all (upsert_request conn call0.1.1 call0.1.2 call0.2).1 calls).
  apply elem_of_cons in Hcall as [->|Hcall].
  - apply upsert_all_recognised; [done..|]. by apply upsert_request_recognises.
  - by apply IH.
Qed.

Lemma upsert_all_recognised_keys (conn : Conn) calls :
  NoDup (keys conn) →
  (∀ row, row ∈ conn → location_key_missing row = false) →
  (∀ call, call ∈ calls → recognised call.1.1 call.1.2 conn) →
  keys (upsert_all conn calls) = keys conn.
Proof.
  revert conn. induction calls as [|call calls IH]; intros conn Hnd Hp Hrec; [done|].
  destruct (upsert_request_wf conn call.1.1 call.1.2 call.2 Hnd) as (Hnd' & Hp' & _).
  cbn [upsert_all foldl]. fold (upsert_all (upsert_request conn call.1.1 call.1.2 call.2).1 calls).
  rewrite IH; [|done..|].
  - apply recognised_no_insert; [done..|]. apply Hrec. left.
  - intros call' Hcall'. apply recognised_preserved; [done..|]. apply Hrec. by right.
Qed.

(** X6. Importing again definitions that were imported before adds no row:
    after one import of a batch at a precision, a second import at that
    precision of requests taken from the same batch leaves the list of
    stored keys as it is. *)
Theorem migrate_yaml_requests_again (conn : Conn) precision loaded loaded' :
  NoDup (keys conn) →
  (∀ req', req' ∈ loaded' → ∃ req, req ∈ loaded ∧ req.1 = req'.1) →
  let first := migrate_yaml_requests conn precision loaded in
  let second := migrate_yaml_requests first.1 precision loaded' in
  keys second.1 = keys first.1.
Proof.
  intros Hnd Hsame first second. unfold second, first, migrate_yaml_requests.
  rewrite !migrate_yaml_requests_conn.
  set (calls := (λ req, (req.1, precision, req.2)) <$> loaded).
  set (calls' := (λ req, (req.1, precision, req.2)) <$> loaded').
  destruct loaded' as [|req0 loaded'']; [done|].
  destruct (Hsame req0) as (req1 & Hreq1 & _); [left|].
  destruct loaded as [|req loaded]; [by apply elem_of_nil in Hreq1|].
  assert (NoDup (keys (upsert_all conn calls))
          ∧ ∀ row, row ∈ upsert_all conn calls → location_key_missing row = false)
    as [Hnd1 Hp1].
  { unfold calls. cbn [fmap list_fmap upsert_all foldl].
    destruct (upsert_request_wf conn req.1 precision req.2 Hnd) as (Hnd' & Hp' & _).
    by apply upsert_all_wf. }
  apply upsert_all_recognised_keys; [done..|].
  intros call (req' & -> & Hreq')%list_elem_of_fmap. cbn [fst snd].
  destruct (Hsame req' Hreq') as (req2 & Hreq2 & <-).
  apply (upsert_all_recognises_each conn calls Hnd (req2.1, precision, req2.2)).
  by apply (list_elem_of_fmap_2 (λ req, (req.1, precision, req.2))).
Qed.

Lemma migrate_yaml_requests_again_witness :
  let batch :=
    [(blacksburg_request, "2026-01-01T00:00:00Z"); (seattle None, "2026-01-01T00:00:01Z")] in
  let first := migrate_yaml_requests legacy_conn 4 batch in
  let second :=
    migrate_yaml_requests first.1 4 [(seattle None, "2026-02-01T00:00:00Z")] in
  keys second.1 = keys first.1.
Proof.
  apply (migrate_yaml_requests_again legacy_conn 4).
  - apply (bool_decide_unpack _). vm_compute. exact I.
  - intros req' Hreq'. apply list_elem_of_singleton in Hreq'. subst req'.
    exists (seattle None, "2026-01-01T00:00:01Z"). split; [|reflexivity].
    right. left.
Defined.

(** ** [dedupe_requests_by_signature] *)

Lemma delete_length_one key (conn : Conn) :
  NoDup (keys conn) → key ∈ keys conn →
  S (length (Sql.delete (Sql.key_is key) conn)) = length conn.
Proof.
  intros Hnd Hin. apply list_elem_of_fmap in Hin as (row & -> & Hrow).
  apply list_elem_of_split in Hrow as (l1 & l2 & ->).
  unfold keys in Hnd. rewrite fmap_app, fmap_cons in Hnd.
  apply NoDup_app in Hnd as (_ & Hl1 & Hl2). apply NoDup_cons in Hl2 as [Hl2 _].
  unfold Sql.delete. rewrite filter_app, filter_cons_False.
  - rewrite !filter_all, !length_app; [simpl; lia|..].
    + intros r Hr. apply bool_decide_eq_false_2. intros Hk. apply Hl2.
      rewrite <- Hk. by apply list_elem_of_fmap_2.
    + intros r Hr. apply bool_decide_eq_false_2. intros Hk.
      apply (Hl1 (col_request_key r)); [by apply list_elem_of_fmap_2|].
      rewrite Hk. left.
  - unfold Sql.key_is. by rewrite bool_decide_eq_true_2.
Qed.

Lemma merge_into_keys key existing record (conn : Conn) :
  keys (merge_into key existing record conn) = keys conn.
Proof. unfold merge_into. by apply update_keys. Qed.

Lemma merge_into_elem_of key existing record (conn : Conn) row' :
  row' ∈ merge_into key existing record conn →
  ∃ row, row ∈ conn ∧ col_request_key row' = col_request_key row
         ∧ row_signature row' = row_signature row
         ∧ col_location_key row' = col_location_key row.
Proof.
  unfold merge_into. intros (row & Hrow & ->)%update_elem_of.
  exists row. split; [done|]. by destruct (Sql.key_is key row).
Qed.

Lemma merge_into_elem_of_2 key existing record (conn : Conn) row :
  row ∈ conn →
  ∃ row', row' ∈ merge_into key existing record conn
          ∧ col_request_key row' = col_request_key row
          ∧ row_signature row' = row_signature row.
Proof.
  intros Hrow. unfold merge_into. eexists. split; [by apply update_elem_of_2|].
  by destruct (Sql.key_is key row).
Qed.

Lemma dedupe_step_inv total record todo st :
  dedupe_inv total (record :: todo) st →
  dedupe_inv total todo (dedupe_step st record).
Proof.
  intros (Hnd & Hndt & Hrows & Hkept & Hseen & Hcount).
  rewrite fmap_cons in Hndt. apply NoDup_cons in Hndt as [Hhead Hndt].
  destruct (Hrows record) as (row0 & Hrow0 & Hk0 & Hsig0); [left|].
  unfold dedupe_step. fold (signature_of_record record).
  destruct (dd_seen st !! signature_of_record record) as [existing|] eqn:Elook.
  - (* a duplicate: merge and delete *)
    assert (request_key existing ≠ request_key record) as Hne.
    { intros Heq. apply (Hseen _ _ Elook). rewrite fmap_cons, Heq. left. }
    unfold dedupe_inv. cbn [dd_conn dd_seen dd_removed].
    split; [|split; [done|split; [|split; [|split]]]].
    + apply delete_keys_NoDup. by rewrite merge_into_keys.
    + intros record' Hrec'.
      destruct (Hrows record') as (row & Hrow & Hk & Hsig); [by right|].
      destruct (merge_into_elem_of_2 (request_key existing) existing record
                  (dd_conn st) row Hrow) as (row' & Hrow' & Hk' & Hsig').
      exists row'. split; [|split; congruence].
      apply elem_of_delete. split; [done|]. apply bool_decide_eq_false_2.
      rewrite Hk', Hk. intros Heq. apply Hhead. rewrite <- Heq.
      by apply list_elem_of_fmap_2.
    + intros row' [Hrow' Hkr%bool_decide_eq_false]%elem_of_delete.
      apply merge_into_elem_of in Hrow' as (row & Hrow & Hk & Hsig & _).
      rewrite Hk, Hsig. rewrite Hk in Hkr.
      destruct (Hkept row Hrow) as [Hin|Hold]; [|by right].
      left. rewrite fmap_cons in Hin. apply elem_of_cons in Hin as [?|?]; done.
    + intros signature record' Hlook Hin. apply (Hseen _ _ Hlook).
      rewrite fmap_cons. by right.
    + assert (S (length (Sql.delete (Sql.key_is (request_key record))
                           (merge_into (request_key existing) existing record
                              (dd_conn st)))) = length (dd_conn st)) as Hlen.
      { rewrite delete_length_one.
        - unfold merge_into, Sql.update. by rewrite length_fmap.
        - by rewrite merge_into_keys.
        - rewrite merge_into_keys, <- Hk0. by apply list_elem_of_fmap_2. }
      lia.
  - (* the first record of its signature: remember it *)
    unfold dedupe_inv. cbn [dd_conn dd_seen dd_removed].
    split; [done|]. split; [done|]. split; [|split; [|split; [|done]]].
    + intros record' Hrec'. apply Hrows. by right.
    + intros row Hrow. destruct (Hkept row Hrow) as [Hin|(record' & Hlook & Hk)].
      * rewrite fmap_cons in Hin. apply elem_of_cons in Hin as [Hk|Hin]; [|by left].
        right. exists record.
        assert (row = row0) as -> by (apply (NoDup_keys_inj (dd_conn st)); congruence).
        rewrite Hsig0, lookup_insert_eq. done.
      * right. exists record'. rewrite lookup_insert_ne; [done|]. congruence.
    + intros signature record' Hlook.
      destruct (decide (signature_of_record record = signature)) as [<-|Hsne].
      * rewrite lookup_insert_eq in Hlook. by injection Hlook as <-.
      * rewrite lookup_insert_ne in Hlook by done.
        intros Hin. apply (Hseen _ _ Hlook). rewrite fmap_cons. by right.
Qed.

Lemma dedupe_fold_inv total todo st :
  dedupe_inv total todo st → dedupe_inv total [] (foldl dedupe_step st todo).
Proof.
  revert st. induction todo as [|record todo IH]; intros st Hinv; [done|].
  cbn [foldl]. by apply IH, dedupe_step_inv.
Qed.

Lemma dedupe_step_keeps st record :
  keys (dd_conn (dedupe_step st record)) `sublist_of` keys (dd_conn st)
  ∧ ((∀ row, row ∈ dd_conn st → location_key_missing row = false) →
     ∀ row, row ∈ dd_conn (dedupe_step st record) → location_key_missing row = false).
Proof.
  unfold dedupe_step.
  destruct (dd_seen st !! _) as [existing|]; cbn [dd_conn]; [|done].
  split.
  - rewrite <- (merge_into_keys (request_key existing) existing record (dd_conn st)).
    unfold keys, Sql.delete. apply fmap_sublist, sublist_filter.
  - intros Hp row' [Hrow' _]%elem_of_delete.
    apply merge_into_elem_of in Hrow' as (row & Hrow & _ & _ & Hlk).
    specialize (Hp row Hrow). unfold location_key_missing in *. by rewrite Hlk.
Qed.

Lemma dedupe_fold_keeps todo st :
  keys (dd_conn (foldl dedupe_step st todo)) `sublist_of` keys (dd_conn st)
  ∧ ((∀ row, row ∈ dd_conn st → location_key_missing row = false) →
     ∀ row, row ∈ dd_conn (foldl dedupe_step st todo) →
            location_key_missing row = false).
Proof.
  revert st. induction todo as [|record todo IH]; intros st; [done|].
  cbn [foldl]. destruct (IH (dedupe_step st record)) as [Hsub Hp].
  destruct (dedupe_step_keeps st record) as [Hsub' Hp'].
  split; [by etrans|auto].
Qed.

Lemma dedupe_requests_by_signature_rows (conn : Conn) precision :
  NoDup (keys conn) →
  let result := dedupe_requests_by_signature conn precision in
  NoDup (row_signature <$> result.1)
  ∧ NoDup (keys result.1)
  ∧ keys result.1 `sublist_of` keys conn
  ∧ (∀ row, row ∈ result.1 → location_key_missing row = false)
  ∧ result.2 + Z.of_nat (length result.1) = Z.of_nat (length conn).
Proof.
  intros Hnd result. unfold result, dedupe_requests_by_signature. cbn [fst snd].
  rewrite ensure_location_keys_spec by done.
  set (conn0 := backfill precision <$> conn).
  set (records := Py.sorted_by _ (list_requests conn0)).
  set (st0 := {| dd_conn := conn0; dd_seen := ∅; dd_removed := 0 |}).
  assert (NoDup (keys conn0)) as Hnd0 by (unfold conn0; by rewrite backfill_keys).
  assert (records ≡ₚ record_of_row <$> conn0) as Hperm.
  { unfold records, list_requests. by rewrite !sorted_by_Permutation. }
  assert (dedupe_inv (length conn) records st0) as Hinv.
  { unfold dedupe_inv, st0. cbn [dd_conn dd_seen dd_removed].
    split; [done|]. split; [|split; [|split; [|split]]].
    - rewrite Hperm, <- list_fmap_compose. exact Hnd0.
    - intros record Hrec. rewrite Hperm in Hrec.
      apply list_elem_of_fmap in Hrec as (row & -> & Hrow). by exists row.
    - intros row Hrow. left. rewrite Hperm, <- list_fmap_compose.
      by apply (list_elem_of_fmap_2 (request_key ∘ record_of_row)).
    - intros signature record Hlook. by rewrite lookup_empty in Hlook.
    - unfold conn0. rewrite length_fmap. lia. }
  apply dedupe_fold_inv in Hinv.
  destruct Hinv as (Hnd' & _ & _ & Hkept & _ & Hcount).
  destruct (dedupe_fold_keeps records st0) as [Hsub Hp].
  split; [|split; [done|split; [|split; [|done]]]].
  - apply NoDup_fmap_2_strong; [|by apply NoDup_fmap_1 in Hnd'].
    intros row1 row2 Hrow1 Hrow2 Hsig.
    destruct (Hkept row1 Hrow1) as [Hin|(record1 & Hlook1 & Hk1)];
      [by apply elem_of_nil in Hin|].
    destruct (Hkept row2 Hrow2) as [Hin|(record2 & Hlook2 & Hk2)];
      [by apply elem_of_nil in Hin|].
    apply (NoDup_keys_inj _ _ _ Hnd' Hrow1 Hrow2). rewrite Hsig in Hlook1. congruence.
  - etrans; [exact Hsub|]. unfold st0, conn0. cbn [dd_conn]. by rewrite backfill_keys.
  - apply Hp. unfold st0, conn0. cbn [dd_conn].
    intros row (row0 & -> & _)%list_elem_of_fmap. apply backfill_not_missing.
Qed.

(** X7. Signature uniqueness. On a table with unique keys,
    [dedupe_requests_by_signature] leaves no two rows with the same
    signature (location key, bundle, normalized selection); every row then
    has a location key; the rows that remain are rows that were stored, in
    their order and under their keys; and the returned count is the number
    of rows removed. *)
Theorem dedupe_requests_by_signature_unique (conn : Conn) precision :
  NoDup (keys conn) →
  let result := dedupe_requests_by_signature conn precision in
  NoDup (row_signature <$> result.1)
  ∧ NoDup (keys result.1)
  ∧ keys result.1 `sublist_of` keys conn
  ∧ (∀ row, row ∈ result.1 → location_key_missing row = false)
  ∧ result.2 + Z.of_nat (length result.1) = Z.of_nat (length conn).
Proof. apply dedupe_requests_by_signature_rows. Qed.

Lemma dedupe_requests_by_signature_unique_witness :
  let result := dedupe_requests_by_signature legacy_conn 4 in
  NoDup (row_signature <$> result.1)
  ∧ result.2 + Z.of_nat (length result.1) = 3.
Proof.
  destruct (dedupe_requests_by_signature_unique legacy_conn 4)
    as (Hsig & _ & _ & _ & Hcount).
  - apply (bool_decide_unpack _). vm_compute. exact I.
  - split; [exact Hsig|exact Hcount].
Defined.

(** *** Sorting with a total preorder *)

Section sorted_by_order.
Context {A : Type} (leb : A → A → bool).
Context (leb_total : ∀ a b, leb a b = true ∨ leb b a = true).
Context (leb_trans : ∀ a b c, leb a b = true → leb b c = true → leb a c = true).

Lemma insert_by_sorted a l :
  StronglySorted (λ x y, leb x y = true) l →
  StronglySorted (λ x y, leb x y = true) (Py.insert_by leb a l).
Proof.
  induction 1 as [|y l Hl IH Hy]; simpl; [repeat constructor|].
  destruct (leb a y) eqn:E.
  - constructor; [by constructor|]. constructor; [done|].
    eapply Forall_impl; [exact Hy|]. intros z Hz. by apply (leb_trans a y z).
  - constructor; [done|]. rewrite Forall_forall. intros z Hz.
    rewrite insert_by_Permutation in Hz. apply elem_of_cons in Hz as [->|Hz].
    + destruct (leb_total a y) as [Hay|Hya]; congruence.
    + rewrite Forall_forall in Hy. by apply Hy.
Qed.

Lemma sorted_by_sorted l :
  StronglySorted (λ x y, leb x y = true) (Py.sorted_by leb l).
Proof.
  induction l as [|a l IH]; simpl; [constructor|]. by apply insert_by_sorted.
Qed.

End sorted_by_order.

Lemma string_leb_trans (a b c : string) :
  String.leb a b = true → String.leb b c = true → String.leb a c = true.
Proof.
  intros Hab Hbc. apply Is_true_true. apply Is_true_true in Hab, Hbc.
  change (String.le a c). by trans b.
Qed.

Lemma string_ltb_leb (a b : string) :
  String.leb a b = true → String.ltb b a = false.
Proof.
  unfold String.leb, String.ltb. rewrite (String.compare_antisym b a).
  by destruct (String.compare a b).
Qed.

Lemma min_str_leb (a b : string) : String.leb a b = true → Py.min_str a b = a.
Proof. intros Hab. unfold Py.min_str. by rewrite string_ltb_leb. Qed.

Lemma first_seen_leb_refl record : first_seen_leb record record = true.
Proof.
  unfold first_seen_leb. destruct (String.leb_total (first_seen record) (first_seen record));
    done.
Qed.

(** *** A table without duplicates *)

Lemma dedupe_fold_distinct todo st :
  NoDup (signature_of_record <$> todo) →
  (∀ record, record ∈ todo → dd_seen st !! signature_of_record record = None) →
  dd_conn (foldl dedupe_step st todo) = dd_conn st
  ∧ dd_removed (foldl dedupe_step st todo) = dd_removed st.
Proof.
  revert st. induction todo as [|record todo IH]; intros st Hnd Hnone; [done|].
  rewrite fmap_cons in Hnd. apply NoDup_cons in Hnd as [Hhead Hnd].
  cbn [foldl].
  assert (dedupe_step st record
          = {| dd_conn := dd_conn st;
               dd_seen := <[signature_of_record record := record]> (dd_seen st);
               dd_removed := dd_removed st |}) as ->.
  { unfold dedupe_step. fold (signature_of_record record).
    by rewrite Hnone by left. }
  destruct (IH {| dd_conn := dd_conn st;
                  dd_seen := <[signature_of_record record := record]> (dd_seen st);
                  dd_removed := dd_removed st |}) as [H1 H2]; [done| |done].
  intros record' Hrec'. cbn [dd_seen]. rewrite lookup_insert_ne.
  - apply Hnone. by right.
  - intros Heq. apply Hhead. rewrite Heq. by apply list_elem_of_fmap_2.
Qed.

(** X8. When no two rows share a signature once the location keys are
    backfilled, [dedupe_requests_by_signature] removes nothing: it returns
    0 and leaves the backfilled table. *)
Theorem dedupe_requests_by_signature_distinct (conn : Conn) precision :
  NoDup (keys conn) →
  NoDup (row_signature <$> (ensure_location_keys conn precision).1) →
  dedupe_requests_by_signature conn precision
    = ((ensure_location_keys conn precision).1, 0).
Proof.
  intros Hnd Hsig. unfold dedupe_requests_by_signature.
  set (conn0 := (ensure_location_keys conn precision).1) in *.
  set (records := Py.sorted_by _ (list_requests conn0)).
  assert (records ≡ₚ record_of_row <$> conn0) as Hperm.
  { unfold records, list_requests. by rewrite !sorted_by_Permutation. }
  destruct (dedupe_fold_distinct records
              {| dd_conn := conn0; dd_seen := ∅; dd_removed := 0 |}) as [H1 H2].
  - rewrite Hperm, <- list_fmap_compose. exact Hsig.
  - intros record _. apply lookup_empty.
  - by rewrite H1, H2.
Qed.

Lemma dedupe_requests_by_signature_distinct_witness :
  let conn :=
    (upsert_request
       (upsert_request [] (seattle (Some [])) 4 "2026-01-01T00:00:00Z").1
       (seattle (Some [25544])) 4 "2026-01-02T00:00:00Z").1 in
  dedupe_requests_by_signature conn 4 = ((ensure_location_keys conn 4).1, 0).
Proof.
  apply dedupe_requests_by_signature_distinct.
  - apply (bool_decide_unpack _). vm_compute. exact I.
  - apply (bool_decide_unpack _). vm_compute. exact I.
Defined.

(** *** The earliest record of a signature survives *)

Lemma dedupe_step_order visited record todo st :
  Forall (λ record', first_seen_leb record record' = true) todo →
  dedupe_order_inv visited (record :: todo) st →
  dedupe_order_inv (visited ++ [record]) todo (dedupe_step st record).
Proof.
  intros Hsorted (Hseen & Hfirst & Hvis). rewrite Forall_forall in Hsorted.
  unfold dedupe_step. fold (signature_of_record record).
  destruct (dd_seen st !! signature_of_record record) as [existing|] eqn:Elook;
    unfold dedupe_order_inv; cbn [dd_conn dd_seen dd_removed].
  - (* a duplicate: the remembered record is not later *)
    destruct (Hseen _ _ Elook) as (Hexv & _ & Hexle).
    assert (first_seen_leb existing record = true) as Hle by (apply Hexle; left).
    split; [|split].
    + intros signature record' Hlook.
      destruct (Hseen _ _ Hlook) as (Hv & Hsig & Hle').
      split; [apply elem_of_app; by left|]. split; [done|].
      intros r Hr. apply Hle'. by right.
    + intros row' rec [Hrow' _]%elem_of_delete Hrec Hk.
      unfold merge_into in Hrow'. apply update_elem_of in Hrow' as (row & Hrow & ->).
      rewrite <- app_assoc in Hrec. cbn [app] in Hrec.
      destruct (Sql.key_is (request_key existing) row) eqn:Ekey.
      * apply bool_decide_eq_true in Ekey.
        cbn [set_merged col_first_seen col_request_key] in *.
        rewrite min_str_leb by exact Hle.
        rewrite <- (Hfirst row rec Hrow Hrec Hk).
        symmetry. apply (Hfirst row existing Hrow); [|done].
        apply elem_of_app. by left.
      * by apply (Hfirst row rec).
    + intros rec [Hrec|Hrec%list_elem_of_singleton]%elem_of_app.
      * by apply Hvis.
      * subst rec. by exists existing.
  - (* the first record of its signature *)
    split; [|split].
    + intros signature record' Hlook.
      destruct (decide (signature_of_record record = signature)) as [<-|Hsne].
      * rewrite lookup_insert_eq in Hlook. injection Hlook as <-.
        split; [apply elem_of_app; right; by apply list_elem_of_singleton|].
        split; [done|]. exact Hsorted.
      * rewrite lookup_insert_ne in Hlook by done.
        destruct (Hseen _ _ Hlook) as (Hv & Hsig & Hle').
        split; [apply elem_of_app; by left|]. split; [done|].
        intros r Hr. apply Hle'. by right.
    + intros row rec Hrow Hrec Hk.
      rewrite <- app_assoc in Hrec. cbn [app] in Hrec. by apply (Hfirst row rec).
    + intros rec [Hrec|Hrec%list_elem_of_singleton]%elem_of_app.
      * destruct (Hvis rec Hrec) as (kept & Hlook & Hle).
        exists kept. split; [|done]. rewrite lookup_insert_ne; [done|].
        intros Heq. rewrite Heq in Elook. congruence.
      * subst rec. exists record. rewrite lookup_insert_eq.
        split; [done|apply first_seen_leb_refl].
Qed.

Lemma dedupe_fold_order visited todo st :
  StronglySorted (λ a b, first_seen_leb a b = true) todo →
  dedupe_order_inv visited todo st →
  dedupe_order_inv (visited ++ todo) [] (foldl dedupe_step st todo).
Proof.
  revert visited st. induction todo as [|record todo IH]; intros visited st Hsorted Hinv.
  { by rewrite app_nil_r. }
  apply StronglySorted_inv in Hsorted as [Hsorted Hhead].
  cbn [foldl]. rewrite (cons_middle record visited todo), app_assoc.
  apply IH; [done|]. by apply dedupe_step_order.
Qed.

Lemma dedupe_step_survivors total record todo st :
  dedupe_inv total (record :: todo) st →
  (∀ signature kept, dd_seen st !! signature = Some kept →
     ∃ row, row ∈ dd_conn st
            ∧ col_request_key row = request_key kept
            ∧ row_signature row = signature) →
  ∀ signature kept, dd_seen (dedupe_step st record) !! signature = Some kept →
    ∃ row, row ∈ dd_conn (dedupe_step st record)
           ∧ col_request_key row = request_key kept
           ∧ row_signature row = signature.
Proof.
  intros (Hnd & Hndt & Hrows & Hkept & Hseen & Hcount) Hsurv.
  unfold dedupe_step. fold (signature_of_record record).
  destruct (dd_seen st !! signature_of_record record) as [existing|] eqn:Elook;
    cbn [dd_conn dd_seen].
  - (* a duplicate: the rows of the remembered records are not the deleted one *)
    intros signature kept Hlook.
    destruct (Hsurv _ _ Hlook) as (row & Hrow & Hk & Hsig).
    destruct (merge_into_elem_of_2 (request_key existing) existing record
                (dd_conn st) row Hrow) as (row' & Hrow' & Hk' & Hsig').
    exists row'. split; [|split; congruence].
    apply elem_of_delete. split; [done|]. apply bool_decide_eq_false_2.
    rewrite Hk', Hk. intros Heq. apply (Hseen _ _ Hlook).
    rewrite fmap_cons, Heq. left.
  - (* the first record of its signature: its row is in the table *)
    intros signature kept Hlook.
    destruct (decide (signature_of_record record = signature)) as [<-|Hsne].
    + rewrite lookup_insert_eq in Hlook. injection Hlook as <-.
      destruct (Hrows record) as (row & Hrow & Hk & Hsig); [left|]. by exists row.
    + rewrite lookup_insert_ne in Hlook by done. by apply Hsurv.
Qed.

Lemma dedupe_fold_survivors total todo st :
  dedupe_inv total todo st →
  (∀ signature kept, dd_seen st !! signature = Some kept →
     ∃ row, row ∈ dd_conn st
            ∧ col_request_key row = request_key kept
            ∧ row_signature row = signature) →
  ∀ signature kept, dd_seen (foldl dedupe_step st todo) !! signature = Some kept →
    ∃ row, row ∈ dd_conn (foldl dedupe_step st todo)
           ∧ col_request_key row = request_key kept
           ∧ row_signature row = signature.
Proof.
  revert st. induction todo as [|record todo IH]; intros st Hinv Hsurv; [done|].
  cbn [foldl]. apply IH; [by apply dedupe_step_inv|].
  by apply (dedupe_step_survivors total record todo).
Qed.

(** X9. The earliest of each group survives. On a table with unique keys,
    for every stored row [dedupe_requests_by_signature] leaves a row of the
    same signature that was not first seen later; and every row it leaves
    is a stored row of that signature under its own key and with its own
    [first_seen], such that no stored row of that signature was first seen
    earlier (signatures read after the backfill of the location keys,
    timestamps compared as strings, as the source compares them). *)
Theorem dedupe_requests_by_signature_keeps_earliest (conn : Conn) precision :
  NoDup (keys conn) →
  let result := dedupe_requests_by_signature conn precision in
  (∀ row0, row0 ∈ conn →
     ∃ row, row ∈ result.1
            ∧ row_signature row = row_signature (backfill precision row0)
            ∧ String.leb (col_first_seen row) (col_first_seen row0) = true)
  ∧ (∀ row, row ∈ result.1 →
       (∃ row0, row0 ∈ conn
                ∧ col_request_key row0 = col_request_key row
                ∧ col_first_seen row0 = col_first_seen row
                ∧ row_signature (backfill precision row0) = row_signature row)
       ∧ ∀ row1, row1 ∈ conn →
           row_signature (backfill precision row1) = row_signature row →
           String.leb (col_first_seen row) (col_first_seen row1) = true).
Proof.
  intros Hnd result. unfold result, dedupe_requests_by_signature. cbn [fst snd].
  rewrite ensure_location_keys_spec by done.
  set (conn0 := backfill precision <$> conn).
  set (records := Py.sorted_by _ (list_requests conn0)).
  set (st0 := {| dd_conn := conn0; dd_seen := ∅; dd_removed := 0 |}).
  assert (NoDup (keys conn0)) as Hnd0 by (unfold conn0; by rewrite backfill_keys).
  assert (records ≡ₚ record_of_row <$> conn0) as Hperm.
  { unfold records, list_requests. by rewrite !sorted_by_Permutation. }
  assert (∀ record, record ∈ records ↔
            ∃ row0, row0 ∈ conn ∧ record = record_of_row (backfill precision row0))
    as Hrecords.
  { intros record. rewrite Hperm. unfold conn0. rewrite <- list_fmap_compose.
    rewrite list_elem_of_fmap. split; intros (row0 & H1 & H2); exists row0; done. }
  assert (dedupe_inv (length conn) records st0) as Hinv.
  { unfold dedupe_inv, st0. cbn [dd_conn dd_seen dd_removed].
    split; [done|]. split; [|split; [|split; [|split]]].
    - rewrite Hperm, <- list_fmap_compose. exact Hnd0.
    - intros record Hrec. rewrite Hperm in Hrec.
      apply list_elem_of_fmap in Hrec as (r & -> & Hr). by exists r.
    - intros r Hr. left. rewrite Hperm, <- list_fmap_compose.
      by apply (list_elem_of_fmap_2 (request_key ∘ record_of_row)).
    - intros signature record Hlook. by rewrite lookup_empty in Hlook.
    - unfold conn0. rewrite length_fmap. lia. }
  assert (∀ signature kept, dd_seen (foldl dedupe_step st0 records) !! signature = Some kept →
            ∃ row, row ∈ dd_conn (foldl dedupe_step st0 records)
                   ∧ col_request_key row = request_key kept
                   ∧ row_signature row = signature) as Hsurv.
  { apply (dedupe_fold_survivors (length conn)); [done|].
    unfold st0. cbn [dd_seen dd_conn].
    intros signature kept Hlook. by rewrite lookup_empty in Hlook. }
  apply dedupe_fold_inv in Hinv. destruct Hinv as (_ & _ & _ & Hkept & _ & _).
  assert (dedupe_order_inv [] records st0) as Hord.
  { unfold dedupe_order_inv, st0. cbn [dd_conn dd_seen dd_removed app].
    split; [|split].
    - intros signature record Hlook. by rewrite lookup_empty in Hlook.
    - intros r record Hr Hrec Hk. rewrite Hperm in Hrec.
      apply list_elem_of_fmap in Hrec as (r' & -> & Hr').
      by rewrite (NoDup_keys_inj conn0 r r' Hnd0 Hr Hr' Hk).
    - intros record Hrec. by apply elem_of_nil in Hrec. }
  apply dedupe_fold_order in Hord.
  2:{ apply (sorted_by_sorted (λ a b, String.leb (first_seen a) (first_seen b))).
      - intros a b. destruct (String.leb_total (first_seen a) (first_seen b)); auto.
      - intros a b c. apply string_leb_trans. }
  cbn [app] in Hord. destruct Hord as (Hseen & Hfirst & Hvis).
  split.
  { (* every group keeps a row, and that row is not later *)
    intros row0 Hrow0.
    destruct (Hvis (record_of_row (backfill precision row0))) as (kept & Hlook & Hle).
    { apply Hrecords. by exists row0. }
    destruct (Hsurv _ _ Hlook) as (row & Hrow & Hk & Hsig).
    destruct (Hseen _ _ Hlook) as (Hkv & _ & _).
    exists row. split; [done|]. split; [done|].
    rewrite (Hfirst row kept); [|done|by rewrite app_nil_r|done].
    unfold first_seen_leb in Hle. cbn [record_of_row first_seen] in Hle.
    destruct (backfill_columns precision row0) as (_ & Hbf & _). by rewrite Hbf in Hle. }
  intros row Hrow.
  destruct (Hkept row Hrow) as [Hin|(record & Hlook & Hk)];
    [by apply elem_of_nil in Hin|].
  destruct (Hseen _ _ Hlook) as (Hrec & Hsig & _).
  split.
  - pose proof Hrec as (row0 & Hrow0 & Erec)%Hrecords.
    exists row0. split; [done|].
    assert (col_first_seen row = first_seen record) as Hfs.
    { apply Hfirst; [done|by rewrite app_nil_r|done]. }
    destruct (backfill_columns precision row0) as (Hbk & Hbf & _).
    rewrite Hfs, <- Hk, <- Hsig, Erec. cbn [record_of_row request_key first_seen].
    split; [done|]. split; [done|]. done.
  - intros row1 Hrow1 Hsig1.
    destruct (Hvis (record_of_row (backfill precision row1))) as (kept & Hlook1 & Hle).
    { apply Hrecords. by exists row1. }
    change (signature_of_record (record_of_row (backfill precision row1)))
      with (row_signature (backfill precision row1)) in Hlook1.
    rewrite Hsig1, Hlook in Hlook1. injection Hlook1 as <-.
    unfold first_seen_leb in Hle. cbn [record_of_row first_seen] in Hle.
    destruct (backfill_columns precision row1) as (_ & Hbf & _). rewrite Hbf in Hle.
    rewrite (Hfirst row record); [done|done|by rewrite app_nil_r|done].
Qed.

Lemma dedupe_requests_by_signature_keeps_earliest_witness :
  ∃ row,
    row ∈ (dedupe_requests_by_signature legacy_conn 4).1
    ∧ row_signature row
        = row_signature
            (backfill 4
               (blacksburg "villa" None None
                  "2025-03-01T00:00:00Z" "2025-03-01T00:00:00Z"))
    ∧ String.leb (col_first_seen row) "2025-03-01T00:00:00Z" = true.
Proof.
  destruct (dedupe_requests_by_signature_keeps_earliest legacy_conn 4) as [Hsurvives _].
  - apply (bool_decide_unpack _). vm_compute. exact I.
  - apply (Hsurvives (blacksburg "villa" None None
                        "2025-03-01T00:00:00Z" "2025-03-01T00:00:00Z")).
    right. right. left.
Defined.

(** ** [list_requests] *)

Lemma string_compare_refl (a : string) : String.compare a a = Eq.
Proof.
  pose proof (String.compare_antisym a a) as H. by destruct (String.compare a a).
Qed.

Lemma string_compare_Lt (a b : string) :
  String.compare a b = Lt ↔ String.leb a b = true ∧ a ≠ b.
Proof.
  unfold String.leb. split.
  - intros H. rewrite H. split; [done|]. intros ->. by rewrite string_compare_refl in H.
  - intros [Hle Hne]. destruct (String.compare a b) eqn:E; [|done|done].
    by apply String.compare_eq_iff in E.
Qed.

Lemma string_compare_Lt_trans (a b c : string) :
  String.compare a b = Lt → String.compare b c = Lt → String.compare a c = Lt.
Proof.
  rewrite !string_compare_Lt. intros [Hab Hne] [Hbc Hne']. split.
  - by apply (string_leb_trans a b c).
  - intros ->. apply Hne. by apply String.leb_antisym.
Qed.

Lemma order_by_slug_bundle_key_total a b :
  order_by_slug_bundle_key a b = true ∨ order_by_slug_bundle_key b a = true.
Proof.
  unfold order_by_slug_bundle_key.
  rewrite (String.compare_antisym (location_slug a) (location_slug b)).
  rewrite (String.compare_antisym (bundle_slug a) (bundle_slug b)).
  destruct (String.compare (location_slug b) (location_slug a)); cbn; auto.
  destruct (String.compare (bundle_slug b) (bundle_slug a)); cbn; auto.
  apply String.leb_total.
Qed.

Lemma order_by_slug_bundle_key_trans a b c :
  order_by_slug_bundle_key a b = true → order_by_slug_bundle_key b c = true →
  order_by_slug_bundle_key a c = true.
Proof.
  unfold order_by_slug_bundle_key.
  destruct (String.compare (location_slug a) (location_slug b)) eqn:E1; [| |done].
  - apply String.compare_eq_iff in E1. rewrite E1.
    destruct (String.compare (location_slug b) (location_slug c)); [|done|done].
    destruct (String.compare (bundle_slug a) (bundle_slug b)) eqn:E2; [| |done].
    + apply String.compare_eq_iff in E2. rewrite E2.
      destruct (String.compare (bundle_slug b) (bundle_slug c)); [|done|done].
      apply string_leb_trans.
    + intros _. destruct (String.compare (bundle_slug b) (bundle_slug c)) eqn:E3;
        [| |done].
      * apply String.compare_eq_iff in E3. by rewrite <- E3, E2.
      * by rewrite (string_compare_Lt_trans _ _ _ E2 E3).
  - intros _. destruct (String.compare (location_slug b) (location_slug c)) eqn:E3;
      [| |done].
    + apply String.compare_eq_iff in E3. by rewrite <- E3, E1.
    + by rewrite (string_compare_Lt_trans _ _ _ E1 E3).
Qed.

Lemma order_by_slug_bundle_key_antisym a b :
  order_by_slug_bundle_key a b = true → order_by_slug_bundle_key b a = true →
  request_key a = request_key b.
Proof.
  unfold order_by_slug_bundle_key.
  rewrite (String.compare_antisym (location_slug b) (location_slug a)).
  rewrite (String.compare_antisym (bundle_slug b) (bundle_slug a)).
  destruct (String.compare (location_slug a) (location_slug b)); cbn; [|done|done].
  destruct (String.compare (bundle_slug a) (bundle_slug b)); cbn; [|done|done].
  apply String.leb_antisym.
Qed.

Lemma list_requests_Permutation (conn : Conn) :
  list_requests conn ≡ₚ record_of_row <$> conn.
Proof. unfold list_requests. apply sorted_by_Permutation. Qed.

Lemma length_list_requests (conn : Conn) : length (list_requests conn) = length conn.
Proof. by rewrite list_requests_Permutation, length_fmap. Qed.

Lemma list_requests_StronglySorted (conn : Conn) :
  StronglySorted (λ a b, order_by_slug_bundle_key a b = true) (list_requests conn).
Proof.
  unfold list_requests. apply sorted_by_sorted.
  - apply order_by_slug_bundle_key_total.
  - apply order_by_slug_bundle_key_trans.
Qed.

(** X10. [list_requests] returns one record per row, each the conversion of its
    row, in the order of [ORDER BY location_slug, bundle_slug,
    request_key]: a record is never after a record that follows it. *)
Theorem list_requests_sorted (conn : Conn) :
  list_requests conn ≡ₚ record_of_row <$> conn
  ∧ length (list_requests conn) = length conn
  ∧ StronglySorted (λ a b, order_by_slug_bundle_key a b = true) (list_requests conn).
Proof.
  split; [apply list_requests_Permutation|].
  split; [apply length_list_requests|apply list_requests_StronglySorted].
Qed.

(** X11. With unique request keys the list that [list_requests] returns does not
    depend on the order in which the rows were stored. *)
Theorem list_requests_rowid_independent (conn conn' : Conn) :
  NoDup (keys conn) → conn ≡ₚ conn' → list_requests conn = list_requests conn'.
Proof.
  intros Hnd Hperm.
  pose proof (list_requests_Permutation conn) as Hp.
  pose proof (list_requests_Permutation conn') as Hp'.
  pose proof (list_requests_StronglySorted conn) as Hs.
  pose proof (list_requests_StronglySorted conn') as Hs'.
  apply (StronglySorted_unique_strong (λ a b, order_by_slug_bundle_key a b = true));
    [|done|done|by rewrite Hp, Hp', Hperm].
  intros x1 x2 Hx1 Hx2 H12 H21. rewrite Hp in Hx1. rewrite Hp', <- Hperm in Hx2.
  apply list_elem_of_fmap in Hx1 as (r1 & -> & Hr1).
  apply list_elem_of_fmap in Hx2 as (r2 & -> & Hr2).
  f_equal. apply (NoDup_keys_inj conn r1 r2 Hnd Hr1 Hr2).
  by apply (order_by_slug_bundle_key_antisym _ _ H12 H21).
Qed.

Lemma list_requests_rowid_independent_witness :
  list_requests legacy_conn = list_requests (reverse legacy_conn).
Proof.
  apply list_requests_rowid_independent.
  - apply (bool_decide_unpack _). vm_compute. exact I.
  - symmetry. apply reverse_Permutation.
Defined.

(** ** [default_selection] *)

(** X12. For a bound that is not negative, [default_selection] picks the
    smallest distinct available ids, as many as the bound allows: the
    result is a prefix of the normalized ids, strictly ascending, of length
    [min max_satellites (number of distinct ids)], and every available id
    left out is larger than every id picked. *)
Theorem default_selection_smallest (available : option (list Z)) (max_satellites : Z) :
  0 ≤ max_satellites →
  let chosen := default_selection available max_satellites in
  chosen `prefix_of` normalize_norad_ids available
  ∧ Z.of_nat (length chosen)
      = Z.min max_satellites (Z.of_nat (length (normalize_norad_ids available)))
  ∧ StronglySorted Z.lt chosen
  ∧ ∀ x y, x ∈ chosen → y ∈ Py.seq_of available → y ∉ chosen → x < y.
Proof.
  intros Hmax chosen.
  assert (chosen = take (Z.to_nat max_satellites) (normalize_norad_ids available)) as ->.
  { unfold chosen, default_selection, Py.slice_to.
    destruct (Z.ltb_spec max_satellites 0); [lia|].
    destruct (normalize_norad_ids available); [by rewrite take_nil|done]. }
  pose proof (normalize_sorted available) as Hsorted.
  split; [apply prefix_take|]. split; [rewrite length_take; lia|]. split.
  - eapply sublist_lt_sorted; [apply sublist_take|done].
  - intros x y Hx Hy Hnot. apply elem_of_normalize in Hy.
    rewrite <- (take_drop (Z.to_nat max_satellites) (normalize_norad_ids available))
      in Hsorted, Hy.
    apply elem_of_app in Hy as [Hy|Hy]; [done|].
    by apply (StronglySorted_app_1_elem_of Z.lt _ _ x y Hsorted).
Qed.

Lemma default_selection_smallest_witness :
  default_selection (Some [5; 3; 9; 3; 1]) 2 `prefix_of` [1; 3; 5; 9]
  ∧ ∀ x, x ∈ default_selection (Some [5; 3; 9; 3; 1]) 2 → x < 9.
Proof.
  destruct (default_selection_smallest (Some [5; 3; 9; 3; 1]) 2) as (Hp & _ & _ & Hlt).
  - lia.
  - split; [exact Hp|]. intros x Hx. apply (Hlt x 9 Hx).
    + apply (bool_decide_unpack _). vm_compute. exact I.
    + apply (bool_decide_unpack _). vm_compute. exact I.
Defined.

(** ** [canonicalize_requests] as a whole *)

Lemma canonical_selected_no_available
    (bundle_available_ids : gmap string (list Z)) (max_satellites_per_request : Z) record :
  0 ≤ max_satellites_per_request →
  default [] (bundle_available_ids !! bundle_slug record) = [] →
  canonical_selected bundle_available_ids max_satellites_per_request record
    = take (Z.to_nat max_satellites_per_request)
        (normalize_norad_ids (Some (selected_norad_ids record))).
Proof.
  intros Hmax Hav. unfold canonical_selected. rewrite Hav.
  pose proof (normalize_sorted (Some (selected_norad_ids record))) as Hsorted.
  destruct (normalize_norad_ids (Some (selected_norad_ids record))) as [|x l] eqn:E.
  { by rewrite take_nil. }
  rewrite canonicalize_selection_no_available by done.
  destruct (Z.ltb_spec max_satellites_per_request (Z.of_nat (length (x :: l)))).
  - unfold Py.slice_to. destruct (Z.ltb_spec max_satellites_per_request 0); [lia|].
    apply normalize_fixed. eapply sublist_lt_sorted; [apply sublist_take|done].
  - rewrite take_ge by lia. by apply normalize_fixed.
Qed.

(** X13. Without availability data for the bundles of the table (the bundle is
    not in the map, or has no available ids), a pass over a table whose
    stored selections are strictly ascending and within the cap writes
    nothing and returns 0. *)
Theorem canonicalize_requests_without_availability
    (conn : Conn) (bundle_available_ids : gmap string (list Z))
    (max_satellites_per_request : Z) :
  0 ≤ max_satellites_per_request →
  (∀ row, row ∈ conn →
     default [] (bundle_available_ids !! col_bundle_slug row) = []
     ∧ StronglySorted Z.lt (Py.seq_of (col_selected_norad_ids row))
     ∧ Z.of_nat (length (Py.seq_of (col_selected_norad_ids row)))
         ≤ max_satellites_per_request) →
  canonicalize_requests conn bundle_available_ids max_satellites_per_request = (conn, 0).
Proof.
  intros Hmax Hrows. unfold canonicalize_requests.
  apply canonicalize_all_skipped. intros record Hrec.
  unfold list_requests in Hrec. rewrite elem_of_sorted_by in Hrec.
  apply list_elem_of_fmap in Hrec as (row & -> & Hrow).
  destruct (Hrows row Hrow) as (Hav & Hsorted & Hlen).
  apply needs_rewrite_false. left.
  rewrite canonical_selected_no_available by done.
  cbn [record_of_row selected_norad_ids].
  rewrite normalize_fixed by done. apply take_ge. lia.
Qed.

Lemma canonicalize_requests_without_availability_witness :
  let conn :=
    (upsert_request
       (upsert_request [] (seattle (Some [])) 4 "2026-01-01T00:00:00Z").1
       (seattle (Some [25544; 20580])) 4 "2026-01-02T00:00:00Z").1 in
  canonicalize_requests conn {[ "weather" := [33591] ]} 12 = (conn, 0).
Proof.
  intros conn. apply canonicalize_requests_without_availability; [lia|].
  apply (proj1 (Forall_forall
           (λ row, default [] (({[ "weather" := [33591] ]} : gmap string (list Z))
                                 !! col_bundle_slug row) = []
                   ∧ StronglySorted Z.lt (Py.seq_of (col_selected_norad_ids row))
                   ∧ Z.of_nat (length (Py.seq_of (col_selected_norad_ids row))) ≤ 12)
           conn)).
  repeat constructor; vm_compute; congruence.
Defined.

Lemma same_location_refl row : same_location row row.
Proof. by repeat split. Qed.

Lemma same_location_trans row1 row2 row3 :
  same_location row1 row2 → same_location row2 row3 → same_location row1 row3.
Proof.
  unfold same_location. intros (?&?&?&?&?&?) (?&?&?&?&?&?). repeat split; congruence.
Qed.

Lemma canonicalize_step_rows
    (bundle_available_ids : gmap string (list Z)) (max_satellites_per_request : Z)
    conn n record :
  let conn' :=
    (canonicalize_step bundle_available_ids max_satellites_per_request (conn, n) record).1 in
  (length conn' ≤ length conn)%nat
  ∧ ∀ row', row' ∈ conn' → ∃ row, row ∈ conn ∧ same_location row row'.
Proof.
  destruct (needs_rewrite bundle_available_ids max_satellites_per_request record) eqn:E.
  - rewrite canonicalize_step_write by done.
    destruct (get_request_by_key conn _) as [existing|]; cbn [fst].
    + split.
      * unfold merge_into, Sql.delete, Sql.update.
        etrans; [apply length_filter|]. by rewrite length_fmap.
      * intros row' [Hrow' _]%elem_of_delete. unfold merge_into in Hrow'.
        apply update_elem_of in Hrow' as (row & Hrow & ->).
        exists row. split; [done|]. destruct (Sql.key_is _ row); by repeat split.
    + split.
      * unfold Sql.update. by rewrite length_fmap.
      * intros row' (row & Hrow & ->)%update_elem_of.
        exists row. split; [done|]. destruct (Sql.key_is _ row); by repeat split.
  - rewrite canonicalize_step_skip by done. cbn [fst]. split; [done|].
    intros row' Hrow'. exists row'. split; [done|apply same_location_refl].
Qed.

Lemma canonicalize_fold_rows
    (bundle_available_ids : gmap string (list Z)) (max_satellites_per_request : Z)
    todo conn n :
  let conn' :=
    (foldl (canonicalize_step bundle_available_ids max_satellites_per_request)
       (conn, n) todo).1 in
  (length conn' ≤ length conn)%nat
  ∧ ∀ row', row' ∈ conn' → ∃ row, row ∈ conn ∧ same_location row row'.
Proof.
  revert conn n. induction todo as [|record todo IH]; intros conn n.
  { cbn. split; [done|]. intros row' Hrow'. exists row'.
    split; [done|apply same_location_refl]. }
  cbn [foldl].
  destruct (canonicalize_step_rows bundle_available_ids max_satellites_per_request
              conn n record) as [Hlen Hrows].
  destruct (canonicalize_step bundle_available_ids max_satellites_per_request
              (conn, n) record) as [conn1 n1].
  destruct (IH conn1 n1) as [Hlen' Hrows']. cbn [fst] in *. split; [lia|].
  intros row' Hrow'. destruct (Hrows' row' Hrow') as (row1 & Hrow1 & Hsame1).
  destruct (Hrows row1 Hrow1) as (row & Hrow & Hsame).
  exists row. split; [done|]. by apply (same_location_trans row row1 row').
Qed.

(** X14. What a pass of [canonicalize_requests] does to the table as a whole,
    when keys are unique: keys stay unique; no row is added; every row left
    has the location slug, location key, bundle, coordinates and elevation
    of a row that was stored; the returned count lies between 0 and the
    number of rows; and a count of 0 means the table was left as it was. *)
Theorem canonicalize_requests_table
    (conn : Conn) (bundle_available_ids : gmap string (list Z))
    (max_satellites_per_request : Z) :
  NoDup (keys conn) →
  let result := canonicalize_requests conn bundle_available_ids max_satellites_per_request in
  NoDup (keys result.1)
  ∧ (length result.1 ≤ length conn)%nat
  ∧ (∀ row', row' ∈ result.1 → ∃ row, row ∈ conn ∧ same_location row row')
  ∧ 0 ≤ result.2 ≤ Z.of_nat (length conn)
  ∧ (result.2 = 0 → result.1 = conn).
Proof.
  intros Hnd result. unfold result, canonicalize_requests.
  destruct (canonicalize_fold_rows bundle_available_ids max_satellites_per_request
              (list_requests conn) conn 0) as [Hlen Hrows].
  split; [by apply canon_inv_fold, canon_inv_init|].
  split; [done|]. split; [done|].
  rewrite canonicalize_count. cbn [snd].
  set (writers := filter _ (list_requests conn)).
  assert (length writers ≤ length conn)%nat as Hw.
  { unfold writers. etrans; [apply length_filter|].
    unfold list_requests.
    by rewrite (Permutation_length (sorted_by_Permutation _ _)), length_fmap. }
  split; [lia|]. intros Hzero.
  assert (writers = []) as Hnil by (apply length_zero_iff_nil; lia).
  rewrite canonicalize_all_skipped; [done|].
  intros record Hrec.
  destruct (needs_rewrite bundle_available_ids max_satellites_per_request record) eqn:E;
    [|done].
  assert (record ∈ writers) as Hin by (by apply list_elem_of_filter).
  rewrite Hnil in Hin. by apply elem_of_nil in Hin.
Qed.

Lemma canonicalize_requests_table_witness :
  let result :=
    canonicalize_requests (weather_conn [1; 2; 3; 4])
      {[ "weather" := [1; 2; 3; 4; 5] ]} 2 in
  NoDup (keys result.1) ∧ (length result.1 ≤ 1)%nat ∧ 0 ≤ result.2 ≤ 1.
Proof.
  destruct (canonicalize_requests_table (weather_conn [1; 2; 3; 4])
              {[ "weather" := [1; 2; 3; 4; 5] ]} 2) as (Hnd & Hlen & _ & Hcount & _).
  - apply (bool_decide_unpack _). vm_compute. exact I.
  - split; [exact Hnd|]. split; [exact Hlen|exact Hcount].
Defined.

(** X15. The selections a pass leaves. With unique keys and a cap that is not
    negative, every row left with a non-empty selection falls under one of
    two cases.  Either its selection is canonical: strictly ascending, no
    longer than the cap and, when its bundle has available ids, made of
    available ids only and not all of them.  Or its selection is not
    canonical but the key derived from the canonical selection is the key
    it already has, so that the pass skips it. *)
Theorem canonicalize_requests_selections
    (conn : Conn) (bundle_available_ids : gmap string (list Z))
    (max_satellites_per_request : Z) (row : Row) :
  NoDup (keys conn) → 0 ≤ max_satellites_per_request →
  row ∈ (canonicalize_requests conn bundle_available_ids max_satellites_per_request).1 →
  let record := record_of_row row in
  let available :=
    normalize_norad_ids (Some (default [] (bundle_available_ids !! bundle_slug record))) in
  let canonical :=
    canonical_selected bundle_available_ids max_satellites_per_request record in
  selected_norad_ids record ≠ [] →
  (StronglySorted Z.lt (selected_norad_ids record)
   ∧ Z.of_nat (length (selected_norad_ids record)) ≤ max_satellites_per_request
   ∧ (available ≠ [] →
      (∀ x, x ∈ selected_norad_ids record → x ∈ available)
      ∧ selected_norad_ids record ≠ available))
  ∨ (canonical ≠ selected_norad_ids record
     ∧ request_key_for (location_slug record) (bundle_slug record) (Some canonical)
         = request_key record).
Proof.
  intros Hnd Hmax Hrow record available canonical Hsel.
  pose proof (canonicalize_requests_settled bundle_available_ids
                max_satellites_per_request conn Hmax Hnd row Hrow Hsel) as Hskip.
  apply needs_rewrite_false in Hskip.
  destruct (decide (canonical = selected_norad_ids record)) as [Hcanon|Hcanon].
  - left. rewrite <- Hcanon. unfold canonical in *.
    assert (canonical_selected bundle_available_ids max_satellites_per_request record ≠ [])
      as Hne by by rewrite Hcanon.
    split; [apply canonicalize_selection_sorted|].
    split; [by apply canonical_selected_length|].
    intros Hav. by apply canonical_selected_available.
  - right. split; [done|]. by destruct Hskip.
Qed.

Lemma canonicalize_requests_selections_witness :
  ∃ row,
    row ∈ (canonicalize_requests (weather_conn [1; 2; 3; 4])
             {[ "weather" := [1; 2; 3; 4; 5] ]} 2).1
    ∧ col_selected_norad_ids row = Some [1; 2]
    ∧ Z.of_nat (length (selected_norad_ids (record_of_row row))) ≤ 2.
Proof.
  pose (row :=
    set_key_and_selection (request_key_for "home" "weather" (Some [1; 2])) [1; 2]
      (new_row (weather_request [1; 2; 3; 4]) 4 "2026-01-01T00:00:00Z")).
  assert (row ∈ (canonicalize_requests (weather_conn [1; 2; 3; 4])
                   {[ "weather" := [1; 2; 3; 4; 5] ]} 2).1) as Hrow.
  { apply (bool_decide_unpack _). vm_compute. exact I. }
  destruct (canonicalize_requests_selections (weather_conn [1; 2; 3; 4])
              {[ "weather" := [1; 2; 3; 4; 5] ]} 2 row) as [(_ & Hlen & _)|[Hne _]].
  - apply (bool_decide_unpack _). vm_compute. exact I.
  - lia.
  - exact Hrow.
  - vm_compute. discriminate.
  - exists row. split; [exact Hrow|]. split; [reflexivity|exact Hlen].
  - exfalso. apply Hne. vm_compute. reflexivity.
Defined.

(** ** Derived slugs are valid slugs *)

Lemma list_ascii_of_string_app (s t : string) :
  String.list_ascii_of_string (s +:+ t)
    = String.list_ascii_of_string s ++ String.list_ascii_of_string t.
Proof.
  induction s as [|c s IH]; [done|].
  change (String c s +:+ t) with (String c (s +:+ t)). cbn. by rewrite IH.
Qed.

Ltac slug_safe_char :=
  split; [apply (bool_decide_unpack _); vm_compute; exact I|discriminate].

Lemma uint_slug_safe (d : Decimal.uint) :
  Forall slug_safe (String.list_ascii_of_string (DecimalString.NilEmpty.string_of_uint d)).
Proof.
  induction d; cbn [DecimalString.NilEmpty.string_of_uint String.list_ascii_of_string];
    constructor; try done; slug_safe_char.
Qed.

Lemma str_slug_safe (n : Z) :
  0 ≤ n → Forall slug_safe (String.list_ascii_of_string (Py.str n)).
Proof.
  intros Hn. unfold Py.str. destruct n as [|p|p]; [| |lia].
  - cbn. constructor; [slug_safe_char|constructor].
  - cbn [Z.to_int DecimalString.NilZero.string_of_int DecimalString.NilZero.string_of_uint].
    pose proof (uint_slug_safe (Pos.to_uint p)) as H.
    destruct (Pos.to_uint p); try exact H.
    cbn. constructor; [slug_safe_char|constructor].
Qed.

Lemma zeros_slug_safe (k : nat) :
  Forall slug_safe (String.list_ascii_of_string (String.concat "" (replicate k "0"))).
Proof.
  induction k as [|k IH]; [constructor|].
  cbn [replicate String.concat]. destruct k as [|k].
  - cbn. constructor; [slug_safe_char|constructor].
  - cbn [replicate] in *. rewrite !list_ascii_of_string_app.
    apply Forall_app. split; [|apply Forall_app; split; [constructor|exact IH]].
    cbn. constructor; [slug_safe_char|constructor].
Qed.

Lemma zfill_slug_safe (width : nat) (s : string) :
  Forall slug_safe (String.list_ascii_of_string s) →
  Forall slug_safe (String.list_ascii_of_string (Py.zfill width s)).
Proof.
  intros Hs. unfold Py.zfill. rewrite list_ascii_of_string_app.
  apply Forall_app. split; [apply zeros_slug_safe|done].
Qed.

Lemma replace_char_slug_safe (old new : ascii) (s : string) :
  slug_safe new →
  Forall (λ ch, slug_safe ch ∨ ch = old) (String.list_ascii_of_string s) →
  Forall slug_safe (String.list_ascii_of_string (replace_char old new s)).
Proof.
  intros Hnew. induction s as [|c s IH]; cbn; [constructor|].
  intros [Hc Hs]%Forall_cons. constructor; [|by apply IH].
  case_decide; [done|]. by destruct Hc.
Qed.

Lemma format_coordinate_slug_safe (value : Q) (precision : nat) :
  Forall slug_safe (String.list_ascii_of_string (format_coordinate value precision)).
Proof.
  unfold format_coordinate.
  set (rounded := round_units value precision).
  assert (Forall slug_safe
            (String.list_ascii_of_string (if rounded <? 0 then "m" else ""))) as Hsign.
  { destruct (rounded <? 0); cbn; [|constructor].
    constructor; [slug_safe_char|constructor]. }
  case_decide; rewrite list_ascii_of_string_app; apply Forall_app; (split; [done|]).
  { apply str_slug_safe. lia. }
  apply replace_char_slug_safe; [slug_safe_char|].
  unfold format_fixed. rewrite !list_ascii_of_string_app.
  assert (0 < 10 ^ Z.of_nat precision) by (apply Z.pow_pos_nonneg; lia).
  apply Forall_app. split; [|apply Forall_app; split].
  - eapply Forall_impl; [apply str_slug_safe; apply Z.div_pos; lia|]. intros; by left.
  - cbn. constructor; [by right|constructor].
  - eapply Forall_impl; [apply zfill_slug_safe, str_slug_safe|intros; by left].
    apply Z.mod_pos_bound. lia.
Qed.

Lemma compute_location_slug_slug_safe lat lon precision :
  Forall slug_safe (String.list_ascii_of_string (compute_location_slug lat lon precision)).
Proof.
  unfold compute_location_slug. rewrite !list_ascii_of_string_app.
  repeat (apply Forall_app; split); try apply format_coordinate_slug_safe;
    cbn; repeat (constructor; [slug_safe_char|]); constructor.
Qed.

Lemma has_double_dash_cons (c : ascii) (s : string) :
  c ≠ "-"%char → has_double_dash (String c s) = has_double_dash s.
Proof.
  intros Hc. destruct c as [[] [] [] [] [] [] [] []]; try reflexivity. done.
Qed.

Lemma slug_safe_no_double_dash (s : string) :
  Forall slug_safe (String.list_ascii_of_string s) → has_double_dash s = false.
Proof.
  induction s as [|c s IH]; [done|]. cbn [String.list_ascii_of_string].
  intros [[_ Hc] Hs]%Forall_cons. rewrite has_double_dash_cons by done. by apply IH.
Qed.

Lemma is_slug_spec (s : string) :
  is_slug s = true ↔
  s ≠ "" ∧ Forall (λ ch, ch ∈ String.list_ascii_of_string SLUG_CHARS)
             (String.list_ascii_of_string s).
Proof.
  unfold is_slug. rewrite andb_true_iff, negb_true_iff, bool_decide_eq_false.
  apply and_iff_compat_l. rewrite forallb_forall, Forall_forall.
  split; intros H ch Hch.
  - apply (bool_decide_eq_true_1 _). apply H. by apply list_elem_of_In.
  - apply bool_decide_eq_true_2. apply H. by apply list_elem_of_In.
Qed.

Lemma compute_location_slug_is_slug lat lon precision :
  is_slug (compute_location_slug lat lon precision) = true.
Proof.
  apply is_slug_spec. split; [apply compute_location_slug_nonempty|].
  eapply Forall_impl; [apply compute_location_slug_slug_safe|]. by intros ch [Hch _].
Qed.

(** X16. A slug derived from coordinates is made of the characters of
    [SLUG_CHARS] other than the dash, whatever the coordinates and the
    precision.  So it passes [_is_slug], it contains no ["--"], and a
    request that carries it as its slug resolves to it unchanged at any
    precision. *)
Theorem compute_location_slug_valid (lat lon : Q) (precision : nat) :
  let slug := compute_location_slug lat lon precision in
  is_slug slug = true
  ∧ has_double_dash slug = false
  ∧ ∀ request precision',
      r_slug request = Some slug → resolved_location_slug request precision' = slug.
Proof.
  intros slug.
  pose proof (compute_location_slug_slug_safe lat lon precision) as Hsafe.
  pose proof (compute_location_slug_nonempty lat lon precision) as Hne.
  fold slug in Hsafe, Hne.
  assert (has_double_dash slug = false) as Hdash by by apply slug_safe_no_double_dash.
  split; [apply compute_location_slug_is_slug|split; [done|]].
  intros request precision' Hslug. unfold resolved_location_slug.
  rewrite Hslug, decide_False by done. by rewrite Hdash.
Qed.

(** ** The invariant of the stored rows *)

(** Where the rows of the table come from after an upsert. *)
Lemma upsert_request_elem_of (conn : Conn) request precision now row' :
  NoDup (keys conn) →
  row' ∈ (upsert_request conn request precision now).1 →
  row' = new_row request precision now
  ∨ ∃ row, row ∈ conn
           ∧ (row' = backfill precision row
              ∨ row' = touch_for request precision now (backfill precision row)).
Proof.
  intros Hnd. rewrite upsert_request_conn by done. cbv zeta.
  assert (∀ key,
            row' ∈ Sql.update (Sql.key_is key) (touch_for request precision now)
                     (backfill precision <$> conn) →
            ∃ row, row ∈ conn
                   ∧ (row' = backfill precision row
                      ∨ row' = touch_for request precision now (backfill precision row)))
    as Hupdate.
  { intros key (row0 & (row & -> & Hrow)%list_elem_of_fmap & ->)%update_elem_of.
    exists row. split; [done|]. destruct (Sql.key_is key _); auto. }
  destruct (Sql.fetchone (Sql.select (signature_of request precision) _)) as [existing|].
  { intros H. right. by apply (Hupdate _ H). }
  destruct (Sql.fetchone (Sql.select (Sql.key_is (key_of request precision)) _))
    as [existing|].
  { intros H. right. by apply (Hupdate _ H). }
  intros [(row & -> & Hrow)%list_elem_of_fmap|Hnew%list_elem_of_singleton]%elem_of_app.
  - right. exists row. auto.
  - by left.
Qed.

Lemma backfill_invariant precision row :
  row_invariant row → row_invariant (backfill precision row).
Proof.
  unfold row_invariant, key_consistent.
  destruct (backfill_columns precision row) as (-> & _ & _ & _ & _ & _ & -> & -> & ->).
  done.
Qed.

Lemma touch_for_invariant request precision now row :
  row_invariant row → row_invariant (touch_for request precision now row).
Proof. done. Qed.

Lemma new_row_invariant request precision now :
  row_invariant (new_row request precision now).
Proof.
  unfold row_invariant, key_consistent, new_row, key_of, selection_payload.
  cbn [col_request_key col_location_slug col_bundle_slug col_selected_norad_ids].
  rewrite normalize_idemp. split; [done|].
  eexists. split; [done|]. apply normalize_sorted.
Qed.

(** X17. [upsert_request] keeps the invariant of the stored rows: on a table
    with unique keys whose rows all carry the key derived from their own
    slug, bundle and selection and a strictly ascending selection, the rows
    after the call do so as well, the inserted one included, and none of
    them lacks a location key. *)
Theorem upsert_request_keeps_invariant (conn : Conn) request precision now :
  NoDup (keys conn) →
  (∀ row, row ∈ conn → row_invariant row) →
  ∀ row, row ∈ (upsert_request conn request precision now).1 →
         row_invariant row ∧ location_key_missing row = false.
Proof.
  intros Hnd Hinv row' Hrow'. split.
  - destruct (upsert_request_elem_of conn request precision now row' Hnd Hrow')
      as [->|(row & Hrow & [->| ->])].
    + apply new_row_invariant.
    + by apply backfill_invariant, Hinv.
    + by apply touch_for_invariant, backfill_invariant, Hinv.
  - by apply (upsert_request_wf conn request precision now Hnd).
Qed.

Lemma upsert_request_keeps_invariant_witness :
  Forall (λ row, row_invariant row ∧ location_key_missing row = false)
    (upsert_request legacy_conn (seattle (Some [25544; 20580; 25544])) 4
       "2026-01-01T00:00:00Z").1.
Proof.
  apply Forall_forall. apply upsert_request_keeps_invariant.
  - apply (bool_decide_unpack _). vm_compute. exact I.
  - apply (proj1 (Forall_forall row_invariant legacy_conn)).
    repeat constructor; eexists; (split; [reflexivity|constructor]).
Defined.

Lemma set_merged_invariant n b a f l row :
  row_invariant row → row_invariant (set_merged n b a f l row).
Proof. done. Qed.

Lemma canonicalize_step_invariant
    (bundle_available_ids : gmap string (list Z)) (max_satellites_per_request : Z)
    conn n record todo :
  canon_inv (record :: todo) conn →
  (∀ row, row ∈ conn → row_invariant row) →
  ∀ row, row ∈ (canonicalize_step bundle_available_ids max_satellites_per_request
                  (conn, n) record).1 →
         row_invariant row.
Proof.
  intros Hcanon Hinv row'.
  destruct (needs_rewrite bundle_available_ids max_satellites_per_request record) eqn:E.
  - rewrite canonicalize_step_write by done.
    destruct (get_request_by_key conn _) as [existing|]; cbn [fst].
    + intros [Hrow' _]%elem_of_delete. unfold merge_into in Hrow'.
      apply update_elem_of in Hrow' as (row & Hrow & ->).
      destruct (Sql.key_is _ row); [apply set_merged_invariant|]; by apply Hinv.
    + intros (row & Hrow & ->)%update_elem_of.
      destruct (Sql.key_is _ row) eqn:Ekey; [|by apply Hinv].
      apply bool_decide_eq_true in Ekey.
      pose proof (canon_inv_head conn record todo row Hcanon Hrow Ekey) as Hcore.
      revert Hcore. unfold core. intros [= _ Hslug Hbundle _].
      unfold row_invariant, key_consistent, set_key_and_selection.
      cbn [col_request_key col_location_slug col_bundle_slug col_selected_norad_ids
           record_of_row location_slug bundle_slug] in *.
      rewrite Hslug, Hbundle. split; [done|].
      eexists. split; [done|]. apply canonicalize_selection_sorted.
  - rewrite canonicalize_step_skip by done. apply Hinv.
Qed.

Lemma canonicalize_fold_invariant
    (bundle_available_ids : gmap string (list Z)) (max_satellites_per_request : Z)
    todo conn n :
  canon_inv todo conn →
  (∀ row, row ∈ conn → row_invariant row) →
  ∀ row, row ∈ (foldl (canonicalize_step bundle_available_ids max_satellites_per_request)
                  (conn, n) todo).1 →
         row_invariant row.
Proof.
  revert conn n. induction todo as [|record todo IH]; intros conn n Hcanon Hinv; [done|].
  cbn [foldl].
  pose proof (canon_inv_step bundle_available_ids max_satellites_per_request
                conn n record todo Hcanon) as Hcanon'.
  pose proof (canonicalize_step_invariant bundle_available_ids max_satellites_per_request
                conn n record todo Hcanon Hinv) as Hinv'.
  destruct (canonicalize_step bundle_available_ids max_satellites_per_request
              (conn, n) record) as [conn1 n1].
  by apply IH.
Qed.

(** X18. [canonicalize_requests] keeps the invariant of the stored rows: a
    rewritten row is stored under the key derived from its slug, its bundle
    and the canonical selection it now carries, and merging and skipping
    leave key, slug, bundle and selection alone. *)
Theorem canonicalize_requests_keeps_invariant
    (conn : Conn) (bundle_available_ids : gmap string (list Z))
    (max_satellites_per_request : Z) :
  NoDup (keys conn) →
  (∀ row, row ∈ conn → row_invariant row) →
  ∀ row,
    row ∈ (canonicalize_requests conn bundle_available_ids max_satellites_per_request).1 →
    row_invariant row.
Proof.
  intros Hnd Hinv. unfold canonicalize_requests.
  apply canonicalize_fold_invariant; [by apply canon_inv_init|done].
Qed.

Lemma canonicalize_requests_keeps_invariant_witness :
  Forall row_invariant
    (canonicalize_requests (weather_conn [1; 2; 3; 4])
       {[ "weather" := [1; 2; 3; 4; 5] ]} 2).1.
Proof.
  apply Forall_forall. apply canonicalize_requests_keeps_invariant.
  - apply (bool_decide_unpack _). vm_compute. exact I.
  - apply (proj1 (Forall_forall row_invariant (weather_conn [1; 2; 3; 4]))).
    change (weather_conn [1; 2; 3; 4])
      with [new_row (weather_request [1; 2; 3; 4]) 4 "2026-01-01T00:00:00Z"].
    constructor; [apply new_row_invariant|constructor].
Defined.

Lemma dedupe_fold_invariant todo st :
  (∀ row, row ∈ dd_conn st → row_invariant row) →
  ∀ row, row ∈ dd_conn (foldl dedupe_step st todo) → row_invariant row.
Proof.
  revert st. induction todo as [|record todo IH]; intros st Hinv; [done|].
  cbn [foldl]. apply IH. unfold dedupe_step.
  destruct (dd_seen st !! _) as [existing|]; cbn [dd_conn]; [|done].
  intros row' [Hrow' _]%elem_of_delete. unfold merge_into in Hrow'.
  apply update_elem_of in Hrow' as (row & Hrow & ->).
  destruct (Sql.key_is _ row); [apply set_merged_invariant|]; by apply Hinv.
Qed.

(** X19. [dedupe_requests_by_signature] keeps the invariant of the stored rows:
    it backfills location keys, merges attribution and timestamps into the
    kept row and deletes, and writes no key, slug, bundle or selection. *)
Theorem dedupe_requests_by_signature_keeps_invariant (conn : Conn) precision :
  NoDup (keys conn) →
  (∀ row, row ∈ conn → row_invariant row) →
  ∀ row, row ∈ (dedupe_requests_by_signature conn precision).1 → row_invariant row.
Proof.
  intros Hnd Hinv. unfold dedupe_requests_by_signature. cbn [fst].
  apply dedupe_fold_invariant. cbn [dd_conn].
  rewrite ensure_location_keys_spec by done.
  intros row (row0 & -> & Hrow0)%list_elem_of_fmap.
  by apply backfill_invariant, Hinv.
Qed.

Lemma dedupe_requests_by_signature_keeps_invariant_witness :
  Forall row_invariant (dedupe_requests_by_signature legacy_conn 4).1.
Proof.
  apply Forall_forall. apply dedupe_requests_by_signature_keeps_invariant.
  - apply (bool_decide_unpack _). vm_compute. exact I.
  - apply (proj1 (Forall_forall row_invariant legacy_conn)).
    repeat constructor; eexists; (split; [reflexivity|constructor]).
Defined.

(** ** What the request key separates *)

Lemma string_app_inv_tail (s s' t : string) : s +:+ t = s' +:+ t → s = s'.
Proof.
  intros H. apply (f_equal String.list_ascii_of_string) in H.
  rewrite !list_ascii_of_string_app in H. apply app_inv_tail in H.
  rewrite <- (String.string_of_list_ascii_of_string s).
  rewrite <- (String.string_of_list_ascii_of_string s'). by rewrite H.
Qed.

Lemma string_app_nil_r (s : string) : s +:+ "" = s.
Proof.
  induction s as [|c s IH]; [done|].
  change (String c s +:+ "") with (String c (s +:+ "")). by rewrite IH.
Qed.

(** X20. The key tells the whole bundle from a subset, and one location slug
    from another: for a given slug and bundle the key of a selection is the
    key of the empty selection exactly when the selection normalizes to the
    empty list, and for a given bundle and selection two location slugs
    with the same key are the same slug. *)
Theorem request_key_for_separates (location_slug' location_slug bundle_slug : string)
    (selection : option (list Z)) :
  (request_key_for location_slug bundle_slug selection
     = request_key_for location_slug bundle_slug None
   ↔ normalize_norad_ids selection = [])
  ∧ (request_key_for location_slug' bundle_slug selection
       = request_key_for location_slug bundle_slug selection
     ↔ location_slug' = location_slug).
Proof.
  unfold request_key_for, compute_request_feed_slug.
  cbn [Py.seq_of from_option id normalize_norad_ids].
  destruct (normalize_norad_ids selection) as [|x l]; split.
  - done.
  - split; [|by intros ->]. apply string_app_inv_tail.
  - split; [|done]. intros H. exfalso.
    apply (String.app_inj location_slug) in H.
    apply (String.app_inj "--") in H.
    rewrite <- (string_app_nil_r bundle_slug) in H at 2.
    by apply (String.app_inj bundle_slug) in H.
  - split; [|by intros ->]. apply string_app_inv_tail.
Qed.

(** ** [load_requests_from_db] *)

Lemma validated_Some request :
  validated request = Some request ↔
  validate_slug (r_slug request) = true
  ∧ validate_lat (r_lat request) = true
  ∧ validate_lon (r_lon request) = true
  ∧ validate_selected_norad_ids (r_selected_norad_ids request) = true.
Proof.
  unfold validated.
  destruct (validate_slug _), (validate_lat _), (validate_lon _),
    (validate_selected_norad_ids _); cbn;
    (split; [try done; by intros _|intros (? & ? & ? & ?); done]).
Qed.

Lemma validated_None request :
  validate_slug (r_slug request) = false → validated request = None.
Proof. unfold validated. by intros ->. Qed.

Lemma loadable_spec row :
  loadable row ↔
  is_slug (col_location_slug row) = true
  ∧ validate_lat (col_lat row) = true
  ∧ validate_lon (col_lon row) = true
  ∧ validate_selected_norad_ids (Some (Py.seq_of (col_selected_norad_ids row))) = true.
Proof. exact (validated_Some (requested_of_record (record_of_row row))). Qed.

Lemma backfill_loadable precision row : loadable row → loadable (backfill precision row).
Proof. unfold backfill. by destruct (location_key_missing row). Qed.

Lemma touch_for_loadable request precision now row :
  loadable row → loadable (touch_for request precision now row).
Proof. by rewrite !loadable_spec. Qed.

Lemma before_double_dash_cons (c : ascii) (s : string) :
  (before_double_dash (String c s) = "" ∧ ∃ rest, String c s = "--" +:+ rest)
  ∨ before_double_dash (String c s) = String c (before_double_dash s).
Proof.
  destruct c as [[] [] [] [] [] [] [] []]; try (right; reflexivity).
  destruct s as [|c' s']; [right; reflexivity|].
  destruct c' as [[] [] [] [] [] [] [] []]; try (right; reflexivity).
  left. split; [reflexivity|]. by exists s'.
Qed.

Lemma before_double_dash_chars (P : ascii → Prop) (s : string) :
  Forall P (String.list_ascii_of_string s) →
  Forall P (String.list_ascii_of_string (before_double_dash s)).
Proof.
  induction s as [|c s IH]; [done|]. intros [Hc Hs]%Forall_cons.
  destruct (before_double_dash_cons c s) as [[-> _]| ->]; [constructor|].
  cbn [String.list_ascii_of_string]. constructor; [done|by apply IH].
Qed.

Lemma before_double_dash_nonempty (s : string) :
  s ≠ "" → (∀ rest, s ≠ "--" +:+ rest) → before_double_dash s ≠ "".
Proof.
  destruct s as [|c s]; [done|]. intros _ Hrest.
  destruct (before_double_dash_cons c s) as [[_ [rest Hr]]| ->]; [|done].
  by destruct (Hrest rest).
Qed.

Lemma resolved_location_slug_is_slug request precision :
  validate_slug (r_slug request) = true →
  (∀ rest, r_slug request ≠ Some ("--" +:+ rest)) →
  is_slug (resolved_location_slug request precision) = true.
Proof.
  intros Hvalid Hrest. unfold resolved_location_slug.
  destruct (r_slug request) as [slug|] eqn:Eslug;
    [|apply compute_location_slug_is_slug].
  case_decide as Hempty; [apply compute_location_slug_is_slug|].
  cbn [validate_slug] in Hvalid.
  destruct (has_double_dash slug); [|done].
  apply is_slug_spec in Hvalid as [_ Hchars]. apply is_slug_spec. split.
  - apply before_double_dash_nonempty; [done|]. intros rest ->. by apply (Hrest rest).
  - by apply before_double_dash_chars.
Qed.

Lemma normalize_positive (ids : option (list Z)) :
  validate_selected_norad_ids ids = true →
  validate_selected_norad_ids (Some (normalize_norad_ids ids)) = true.
Proof.
  intros Hvalid. cbn [validate_selected_norad_ids]. apply forallb_forall.
  intros x Hx%list_elem_of_In%elem_of_normalize.
  destruct ids as [ids|]; [|by apply elem_of_nil in Hx].
  cbn [validate_selected_norad_ids Py.seq_of from_option id] in *.
  rewrite forallb_forall in Hvalid. apply Hvalid. by apply list_elem_of_In.
Qed.

Lemma new_row_loadable request precision now :
  validated request = Some request →
  (∀ rest, r_slug request ≠ Some ("--" +:+ rest)) →
  loadable (new_row request precision now).
Proof.
  intros (Hslug & Hlat & Hlon & Hsel)%validated_Some Hrest. apply loadable_spec.
  cbn [new_row col_location_slug col_lat col_lon col_selected_norad_ids
       Py.seq_of from_option id].
  split; [by apply resolved_location_slug_is_slug|]. split; [done|]. split; [done|].
  unfold selection_payload. rewrite normalize_idemp. by apply normalize_positive.
Qed.

Lemma upsert_request_loadable (conn : Conn) request precision now :
  NoDup (keys conn) →
  (∀ row, row ∈ conn → loadable row) →
  validated request = Some request →
  (∀ rest, r_slug request ≠ Some ("--" +:+ rest)) →
  ∀ row, row ∈ (upsert_request conn request precision now).1 → loadable row.
Proof.
  intros Hnd Hload Hvalid Hrest row' Hrow'.
  destruct (upsert_request_elem_of conn request precision now row' Hnd Hrow')
    as [->|(row & Hrow & [->| ->])].
  - by apply new_row_loadable.
  - by apply backfill_loadable, Hload.
  - by apply touch_for_loadable, backfill_loadable, Hload.
Qed.

Lemma load_requests_from_db_loadable (conn : Conn) :
  (∀ row, row ∈ conn → loadable row) →
  load_requests_from_db conn = Some (requested_of_record <$> list_requests conn).
Proof.
  intros Hload. unfold load_requests_from_db. apply mapM_Some.
  apply Forall2_fmap_r, Forall_Forall2_diag, Forall_forall.
  intros record Hrec. unfold list_requests in Hrec. rewrite elem_of_sorted_by in Hrec.
  apply list_elem_of_fmap in Hrec as (row & -> & Hrow). by apply Hload.
Qed.

(** X21. What was stored by [upsert_request] can be loaded. On a table with
    unique keys whose rows can all be loaded, after the upsert of a request
    that passed the validators of [RequestedLocation] and whose slug does
    not begin with ["--"], [load_requests_from_db] does not raise: it
    returns one request per row, in the order of [list_requests], each with
    the slug, name, coordinates, elevation, bundle, selection and
    attribution of its row. *)
Theorem load_requests_from_db_after_upsert (conn : Conn) request precision now :
  NoDup (keys conn) →
  (∀ row, row ∈ conn → loadable row) →
  validated request = Some request →
  (∀ rest, r_slug request ≠ Some ("--" +:+ rest)) →
  let conn' := (upsert_request conn request precision now).1 in
  load_requests_from_db conn' = Some (requested_of_record <$> list_requests conn')
  ∧ ∀ loaded, load_requests_from_db conn' = Some loaded → length loaded = length conn'.
Proof.
  intros Hnd Hload Hvalid Hrest conn'.
  assert (load_requests_from_db conn' = Some (requested_of_record <$> list_requests conn'))
    as Hok.
  { apply load_requests_from_db_loadable.
    by apply (upsert_request_loadable conn request precision now). }
  split; [done|]. intros loaded. rewrite Hok. intros [= <-].
  rewrite length_fmap. apply length_list_requests.
Qed.

Lemma load_requests_from_db_after_upsert_witness :
  let conn' :=
    (upsert_request
       (upsert_request [] (seattle (Some [25544])) 4 "2026-01-01T00:00:00Z").1
       (weather_request [33591; 28654]) 4 "2026-01-02T00:00:00Z").1 in
  load_requests_from_db conn' = Some (requested_of_record <$> list_requests conn').
Proof.
  intros conn'.
  destruct (load_requests_from_db_after_upsert
              (upsert_request [] (seattle (Some [25544])) 4 "2026-01-01T00:00:00Z").1
              (weather_request [33591; 28654]) 4 "2026-01-02T00:00:00Z") as [Hok _].
  - apply (bool_decide_unpack _). vm_compute. exact I.
  - apply (proj1 (Forall_forall loadable _)). repeat constructor.
  - reflexivity.
  - intros rest. discriminate.
  - exact Hok.
Defined.

(** X22. A slug that begins with ["--"] passes [_is_slug] but resolves to the
    empty location slug, which does not: once [upsert_request] has inserted
    a row for such a request, [load_requests_from_db] raises on that
    table. *)
Theorem load_requests_from_db_raises (conn : Conn) request precision now rest :
  NoDup (keys conn) →
  r_slug request = Some ("--" +:+ rest) →
  (∀ row, row ∈ conn → location_key_missing row = false) →
  (∀ row, row ∈ conn → signature_of request precision row = false) →
  key_of request precision ∉ keys conn →
  let result := upsert_request conn request precision now in
  location_slug result.2 = ""
  ∧ load_requests_from_db result.1 = None.
Proof.
  intros Hnd Hslug Hp Hsig Hkey result.
  assert (resolved_location_slug request precision = "") as Hempty.
  { unfold resolved_location_slug. by rewrite Hslug. }
  assert (result.1 = conn ++ [new_row request precision now]) as Hconn
    by by apply upsert_request_fresh.
  split.
  - unfold result. rewrite upsert_request_returned by done. cbv zeta.
    rewrite backfill_all_present by done.
    rewrite (proj2 (fetchone_select_None _ _)) by done.
    rewrite (proj2 (fetchone_key_None _ _)) by done.
    exact Hempty.
  - rewrite Hconn. unfold load_requests_from_db. apply mapM_None_2, Exists_exists.
    exists (record_of_row (new_row request precision now)). split.
    + unfold list_requests. rewrite elem_of_sorted_by.
      apply list_elem_of_fmap_2, elem_of_app. right. by apply list_elem_of_singleton.
    + apply validated_None.
      cbn [requested_of_record record_of_row new_row r_slug location_slug
           col_location_slug validate_slug].
      by rewrite Hempty.
Qed.

Lemma load_requests_from_db_raises_witness :
  let request := test_request (Some "--attic") None 47.6062 (-122.3321) "stations" None None in
  let result := upsert_request [] request 4 "2026-01-01T00:00:00Z" in
  validated request = Some request
  ∧ location_slug result.2 = ""
  ∧ load_requests_from_db result.1 = None.
Proof.
  intros request result. split; [reflexivity|].
  apply (load_requests_from_db_raises [] request 4 "2026-01-01T00:00:00Z" "attic").
  - constructor.
  - reflexivity.
  - intros row Hrow. by apply elem_of_nil in Hrow.
  - intros row Hrow. by apply elem_of_nil in Hrow.
  - apply not_elem_of_nil.
Defined.

(** ** [ensure_db_loaded] *)

Lemma upsert_all_loadable (conn : Conn) calls :
  NoDup (keys conn) →
  (∀ row, row ∈ conn → loadable row) →
  (∀ call, call ∈ calls →
     validated call.1.1 = Some call.1.1
     ∧ ∀ rest, r_slug call.1.1 ≠ Some ("--" +:+ rest)) →
  NoDup (keys (upsert_all conn calls))
  ∧ ∀ row, row ∈ upsert_all conn calls → loadable row.
Proof.
  revert conn. induction calls as [|call calls IH]; intros conn Hnd Hload Hcalls; [done|].
  destruct (upsert_request_wf conn call.1.1 call.1.2 call.2 Hnd) as (Hnd' & _ & _).
  destruct (Hcalls call) as [Hvalid Hrest]; [left|].
  apply IH; [done| |intros; apply Hcalls; by right].
  by apply upsert_request_loadable.
Qed.

Lemma upsert_all_appends (conn : Conn) calls :
  NoDup (keys conn) →
  NoDup (keys (upsert_all conn calls))
  ∧ keys conn `prefix_of` keys (upsert_all conn calls)
  ∧ (length (upsert_all conn calls) ≤ length conn + length calls)%nat.
Proof.
  revert conn. induction calls as [|call calls IH]; intros conn Hnd.
  { cbn. split; [done|]. split; [done|lia]. }
  destruct (upsert_request_wf conn call.1.1 call.1.2 call.2 Hnd) as (Hnd' & _ & _).
  pose proof (upsert_request_keys conn call.1.1 call.1.2 call.2 Hnd) as Hkeys.
  cbv zeta in Hkeys.
  cbn [upsert_all foldl].
  fold (upsert_all (upsert_request conn call.1.1 call.1.2 call.2).1 calls).
  set (step := upsert_request conn call.1.1 call.1.2 call.2) in *.
  destruct (IH step.1 Hnd') as (H1 & H2 & H3).
  assert (keys conn `prefix_of` keys step.1) as Hprefix.
  { destruct Hkeys as [->| ->]; [done|by apply prefix_app_r]. }
  assert (length step.1 ≤ S (length conn))%nat as Hlen.
  { rewrite <- (length_fmap col_request_key step.1),
            <- (length_fmap col_request_key conn).
    fold (keys step.1) (keys conn).
    destruct Hkeys as [->| ->]; [lia|]. rewrite length_app. simpl. lia. }
  split; [done|]. split; [by etrans|]. cbn [length]. lia.
Qed.

(** X23. Start-up. On a table with unique keys whose rows can all be loaded,
    and with requests from the directory that passed the validators of
    [RequestedLocation] and whose slugs do not begin with ["--"],
    [ensure_db_loaded] does not raise: it returns one request per row of
    the table it leaves, in the order of [list_requests]; no row of that
    table lacks a location key; and the table holds the rows it held plus
    at most one per request of the directory. *)
Theorem ensure_db_loaded_returns (conn : Conn) precision loaded :
  NoDup (keys conn) →
  (∀ row, row ∈ conn → loadable row) →
  (∀ req, req ∈ loaded →
     validated req.1 = Some req.1 ∧ ∀ rest, r_slug req.1 ≠ Some ("--" +:+ rest)) →
  let result := ensure_db_loaded conn precision loaded in
  result.2 = Some (requested_of_record <$> list_requests result.1)
  ∧ (∀ row, row ∈ result.1 → location_key_missing row = false)
  ∧ keys conn `prefix_of` keys result.1
  ∧ (length result.1 ≤ length conn + length loaded)%nat.
Proof.
  intros Hnd Hload Hloaded result. unfold result, ensure_db_loaded. cbn [fst snd].
  unfold migrate_yaml_requests. rewrite migrate_yaml_requests_conn.
  set (calls := (λ req, (req.1, precision, req.2)) <$> loaded).
  destruct (upsert_all_appends conn calls Hnd) as (Hnd1 & Hprefix & Hlen).
  unfold calls in Hlen. rewrite length_fmap in Hlen. fold calls in Hlen.
  set (conn1 := upsert_all conn calls) in *.
  assert (∀ row, row ∈ conn1 → loadable row) as Hload1.
  { apply upsert_all_loadable; [done..|].
    intros call (req & -> & Hreq)%list_elem_of_fmap. by apply Hloaded. }
  rewrite ensure_location_keys_spec by done.
  split; [|split; [|split]].
  - apply load_requests_from_db_loadable.
    intros row (row0 & -> & Hrow0)%list_elem_of_fmap. by apply backfill_loadable, Hload1.
  - intros row (row0 & -> & _)%list_elem_of_fmap. apply backfill_not_missing.
  - by rewrite backfill_keys.
  - rewrite length_fmap. exact Hlen.
Qed.

Lemma ensure_db_loaded_returns_witness :
  let result :=
    ensure_db_loaded legacy_conn 4
      [(seattle (Some [25544]), "2026-01-01T00:00:00Z");
       (blacksburg_request, "2026-01-02T00:00:00Z")] in
  result.2 = Some (requested_of_record <$> list_requests result.1)
  ∧ (length result.1 ≤ 5)%nat.
Proof.
  destruct (ensure_db_loaded_returns legacy_conn 4
              [(seattle (Some [25544]), "2026-01-01T00:00:00Z");
               (blacksburg_request, "2026-01-02T00:00:00Z")])
    as (Hok & _ & _ & Hlen).
  - apply (bool_decide_unpack _). vm_compute. exact I.
  - apply (proj1 (Forall_forall loadable _)). repeat constructor.
  - apply (proj1 (Forall_forall
             (λ req : RequestedLocation * string,
                validated req.1 = Some req.1
                ∧ ∀ rest, r_slug req.1 ≠ Some ("--" +:+ rest)) _)).
    repeat constructor; intros rest; discriminate.
  - split; [exact Hok|exact Hlen].
Defined.

(** ** The re-read of scripts/issueops_persist_request.py *)

Lemma get_request_by_key_update key (f : Row → Row) (conn : Conn) row :
  NoDup (keys conn) → row ∈ conn → col_request_key row = key →
  (∀ r, col_request_key (f r) = col_request_key r) →
  get_request_by_key (Sql.update (Sql.key_is key) f conn) key = Some (record_of_row (f row)).
Proof.
  intros Hnd Hrow Hk Hf. unfold get_request_by_key.
  rewrite update_lookup.
  - rewrite (fetchone_key_Some key conn row) by done. cbn [fmap option_fmap option_map].
    unfold Sql.key_is. by rewrite bool_decide_eq_true_2.
  - intros r _. unfold Sql.key_is. by rewrite Hf.
Qed.

(** X24. The check that follows the upsert in the IssueOps script never fails on
    a table with unique keys: [get_request_by_key] finds a record under the
    key of the record [upsert_request] returned, and that record has the
    returned key, the returned [first_seen] and, as [last_seen], the time of
    the call. *)
Theorem upsert_request_read_back (conn : Conn) request precision now :
  NoDup (keys conn) →
  let result := upsert_request conn request precision now in
  ∃ stored,
    get_request_by_key result.1 (request_key result.2) = Some stored
    ∧ request_key stored = request_key result.2
    ∧ first_seen stored = first_seen result.2
    ∧ last_seen stored = now
    ∧ last_seen result.2 = now.
Proof.
  intros Hnd result. unfold result.
  rewrite upsert_request_conn, upsert_request_returned by done. cbv zeta.
  set (conn0 := backfill precision <$> conn).
  assert (NoDup (keys conn0)) as Hnd0 by (unfold conn0; by rewrite backfill_keys).
  destruct (Sql.fetchone (Sql.select (signature_of request precision) conn0))
    as [existing|] eqn:Esig.
  { apply fetchone_select_Some in Esig as [Hin _].
    exists (record_of_row (touch_for request precision now existing)). split; [|done].
    change (request_key (returned_existing request precision now (record_of_row existing)))
      with (col_request_key existing).
    apply get_request_by_key_update; [done..|]. intros r. apply touch_for_key. }
  destruct (Sql.fetchone (Sql.select (Sql.key_is (key_of request precision)) conn0))
    as [existing|] eqn:Ekey.
  { apply fetchone_select_Some in Ekey as [Hin Hk%bool_decide_eq_true].
    exists (record_of_row (touch_for request precision now existing)).
    split; [|split; [exact Hk|done]].
    change (request_key (returned_requested request precision now _ _ _))
      with (key_of request precision).
    apply get_request_by_key_update; [done..|]. intros r. apply touch_for_key. }
  exists (record_of_row (new_row request precision now)). split; [|done].
  change (request_key (returned_requested request precision now _ _ _))
    with (key_of request precision).
  unfold get_request_by_key, Sql.select. rewrite filter_app.
  apply fetchone_key_None in Ekey. unfold Sql.select in Ekey.
  destruct (filter _ conn0) as [|r l] eqn:Efilter.
  - rewrite app_nil_l, filter_cons_True; [done|]. by apply bool_decide_eq_true_2.
  - exfalso. apply Ekey.
    assert (r ∈ filter (λ row, Sql.key_is (key_of request precision) row = true) conn0)
      as [Hk%bool_decide_eq_true Hr]%list_elem_of_filter by (rewrite Efilter; left).
    rewrite <- Hk. by apply list_elem_of_fmap_2.
Qed.

Lemma upsert_request_read_back_witness :
  let result := upsert_request legacy_conn blacksburg_request 4 "2026-01-01T00:00:00Z" in
  ∃ stored,
    get_request_by_key result.1 (request_key result.2) = Some stored
    ∧ first_seen stored = first_seen result.2.
Proof.
  destruct (upsert_request_read_back legacy_conn blacksburg_request 4
              "2026-01-01T00:00:00Z") as (stored & Hread & _ & Hfirst & _).
  - apply (bool_decide_unpack _). vm_compute. exact I.
  - exists stored. split; [exact Hread|exact Hfirst].
Defined.

(** ** seed.py: the selection of an entry *)

Lemma seed_selection_satellite available_ids selected_ids max_sats :
  0 ≤ max_sats →
  ∃ picked,
    seed_selection false available_ids selected_ids max_sats
      = Some (canonicalize_selection (Some picked) (Some available_ids))
    ∧ Z.of_nat (length picked) ≤ max_sats
    ∧ (Py.seq_of selected_ids ≠ [] → picked `sublist_of` Py.seq_of selected_ids)
    ∧ (Py.seq_of selected_ids = [] → picked = default_selection (Some available_ids) max_sats).
Proof.
  intros Hmax. unfold seed_selection.
  destruct (Py.seq_of selected_ids) as [|x l] eqn:E.
  - set (d := default_selection (Some available_ids) max_sats).
    assert (Z.of_nat (length d) ≤ max_sats) as Hd.
    { unfold d, default_selection. destruct (normalize_norad_ids _); [simpl; lia|].
      by apply length_slice_to. }
    exists d. destruct d as [|y k] eqn:Ed.
    + split; [done|]. split; [done|]. split; [done|]. done.
    + destruct (Z.ltb_spec max_sats (Z.of_nat (length (y :: k)))); [lia|].
      split; [done|]. split; [done|]. split; [done|]. done.
  - destruct (Z.ltb_spec max_sats (Z.of_nat (length (x :: l)))).
    + exists (Py.slice_to max_sats (x :: l)). split; [done|].
      split; [by apply length_slice_to|]. split; [|done].
      intros _. unfold Py.slice_to. destruct (max_sats <? 0); apply sublist_take.
    + exists (x :: l). split; [done|]. split; [done|]. split; [done|]. done.
Qed.

(** X25. The selection a seed entry stores. When [seed_requests] does not raise
    on the entry and the cap is not negative, the selection is strictly
    ascending and no longer than the cap; a planetary bundle stores the
    empty selection; ids that were listed in the entry are the only ones
    stored for it; and when the bundle has available ids only available ids
    are stored.  The entry raises exactly when it lists ids for a planetary
    bundle. *)
Theorem seed_selection_bounds
    (planetary : bool) (available_ids : list Z) (selected_ids : option (list Z))
    (max_sats : Z) :
  0 ≤ max_sats →
  (seed_selection planetary available_ids selected_ids max_sats = None
   ↔ planetary = true ∧ Py.seq_of selected_ids ≠ [])
  ∧ ∀ stored,
      seed_selection planetary available_ids selected_ids max_sats = Some stored →
      StronglySorted Z.lt stored
      ∧ Z.of_nat (length stored) ≤ max_sats
      ∧ (planetary = true → stored = [])
      ∧ (Py.seq_of selected_ids ≠ [] → ∀ x, x ∈ stored → x ∈ Py.seq_of selected_ids)
      ∧ (available_ids ≠ [] → ∀ x, x ∈ stored → x ∈ available_ids).
Proof.
  intros Hmax. destruct planetary.
  - unfold seed_selection. destruct (Py.seq_of selected_ids) as [|x l]; split.
    + split; [done|]. by intros [_ ?].
    + intros stored [= <-]. split; [constructor|]. split; [simpl; lia|].
      split; [done|]. split; [done|]. intros _ x Hx. by apply elem_of_nil in Hx.
    + done.
    + done.
  - destruct (seed_selection_satellite available_ids selected_ids max_sats Hmax)
      as (picked & -> & Hlen & Hlisted & Hdefault).
    split; [split; [done|by intros [? _]]|].
    intros stored [= <-].
    pose proof (canonicalize_selection_sublist (Some picked) (Some available_ids)) as Hsub.
    split; [apply canonicalize_selection_sorted|]. split; [|split; [done|split]].
    + apply sublist_length in Hsub. pose proof (length_normalize_le picked). lia.
    + intros Hne x Hx. apply (elem_of_sublist _ _ _ Hx) in Hsub.
      apply elem_of_normalize in Hsub. cbn [Py.seq_of from_option id] in Hsub.
      by apply (elem_of_sublist _ _ _ Hsub), Hlisted.
    + intros Hav x Hx.
      destruct (decide (normalize_norad_ids (Some picked) = [])) as [Hp|Hp].
      { apply (elem_of_sublist _ _ _ Hx) in Hsub. rewrite Hp in Hsub.
        by apply elem_of_nil in Hsub. }
      assert (normalize_norad_ids (Some available_ids) ≠ []) as Ha.
      { intros Hnil%normalize_nil_iff. done. }
      rewrite canonicalize_selection_nonempty in Hx by done. cbv zeta in Hx.
      case_decide; [by apply elem_of_nil in Hx|].
      apply list_elem_of_filter in Hx as [Hx _]. by apply elem_of_normalize in Hx.
Qed.

Lemma seed_selection_bounds_witness :
  seed_selection false [25544; 20580; 33591] (Some [33591; 99999; 25544; 20580]) 2
    = Some [33591]
  ∧ ∀ x, x ∈ [33591] → x ∈ [25544; 20580; 33591].
Proof.
  split; [reflexivity|].
  destruct (seed_selection_bounds false [25544; 20580; 33591]
              (Some [33591; 99999; 25544; 20580]) 2) as [_ Hstored]; [lia|].
  destruct (Hstored [33591]) as (_ & _ & _ & _ & Hav); [reflexivity|].
  apply Hav. discriminate.
Defined.

(** X26. For an entry that lists its ids in strictly ascending order, the seed
    stores the selection that a pass of [canonicalize_requests] with the
    same available ids and cap computes for a record with that selection. *)
Theorem seed_selection_agrees
    (bundle_available_ids : gmap string (list Z)) (max_sats : Z)
    (record : RequestRecord) (selected_ids : option (list Z)) :
  StronglySorted Z.lt (Py.seq_of selected_ids) →
  selected_norad_ids record = Py.seq_of selected_ids →
  seed_selection false (default [] (bundle_available_ids !! bundle_slug record))
      selected_ids max_sats
    = Some (canonical_selected bundle_available_ids max_sats record).
Proof.
  intros Hsorted Hsel. unfold seed_selection, canonical_selected.
  rewrite Hsel, normalize_fixed by done. by destruct (Py.seq_of selected_ids).
Qed.

Lemma seed_selection_agrees_witness :
  let available : gmap string (list Z) := {[ "weather" := [1; 2; 3; 4; 5] ]} in
  let record :=
    record_of_row (new_row (weather_request [1; 2; 3; 4]) 4 "2026-01-01T00:00:00Z") in
  seed_selection false (default [] (available !! bundle_slug record)) (Some [1; 2; 3; 4]) 2
    = Some (canonical_selected available 2 record)
  ∧ canonical_selected available 2 record = [1; 2].
Proof.
  intros available record. split; [|by vm_compute].
  apply (seed_selection_agrees available 2 record (Some [1; 2; 3; 4])).
  - apply (bool_decide_unpack _). vm_compute. exact I.
  - reflexivity.
Defined.

(** ** seed.py: [seed_requests] *)

Lemma seed_loop_Some bundles max_sats precision conn inserted seeds count :
  (seed_loop bundles max_sats precision conn inserted seeds).2 = Some count →
  ∃ calls,
    Forall2 (λ seed call,
               seed_request bundles max_sats precision seed.1 = Some call.1.1
               ∧ call.1.2 = precision ∧ call.2 = seed.2) seeds calls
    ∧ (seed_loop bundles max_sats precision conn inserted seeds).1 = upsert_all conn calls
    ∧ count = inserted + Z.of_nat (length seeds).
Proof.
  revert conn inserted. induction seeds as [|seed seeds IH]; intros conn inserted.
  { cbn. intros [= <-]. exists []. split; [constructor|]. split; [done|lia]. }
  cbn [seed_loop].
  destruct (seed_request bundles max_sats precision seed.1) as [request|] eqn:E; [|done].
  intros (calls & Hcalls & Hconn & ->)%IH.
  exists ((request, precision, seed.2) :: calls).
  split; [by constructor|]. split; [done|]. cbn [length]. lia.
Qed.

Lemma seed_loop_calls bundles max_sats precision conn inserted seeds calls :
  Forall2 (λ seed call,
             seed_request bundles max_sats precision seed.1 = Some call.1.1
             ∧ call.1.2 = precision ∧ call.2 = seed.2) seeds calls →
  seed_loop bundles max_sats precision conn inserted seeds
    = (upsert_all conn calls, Some (inserted + Z.of_nat (length seeds))).
Proof.
  intros Hcalls. revert conn inserted.
  induction Hcalls as [|seed [[request p] now] seeds calls (Hreq & Hp & Hnow) _ IH];
    intros conn inserted.
  { cbn. do 2 f_equal. lia. }
  cbn [fst snd] in *. subst p now. cbn [seed_loop]. rewrite Hreq, IH.
  cbn [length]. do 2 f_equal. lia.
Qed.

(** X27. What [seed_requests] reports. When it returns, on a table with unique
    keys, [inserted] and [total] both are the number of entries of the seed
    file: [inserted] counts the upserts, not the rows added.  Keys stay
    unique, the keys stored before stay where they were (none after a
    reset) and at most one row is added per entry. *)
Theorem seed_requests_counts
    (bundles : list Bundle) (max_sats : Z) (precision : nat) (reset : bool)
    (conn : Conn) (seeds : list (RequestedLocation * string)) (inserted total : Z) :
  NoDup (keys conn) →
  let result := seed_requests bundles max_sats precision reset conn seeds in
  result.2 = Some (inserted, total) →
  inserted = Z.of_nat (length seeds)
  ∧ total = Z.of_nat (length seeds)
  ∧ NoDup (keys result.1)
  ∧ keys (if reset then [] else conn) `prefix_of` keys result.1
  ∧ (length result.1 ≤ length (if reset then [] else conn) + length seeds)%nat.
Proof.
  intros Hnd result. unfold result, seed_requests. cbn [fst snd].
  set (conn0 := if reset then [] else conn).
  assert (NoDup (keys conn0)) as Hnd0 by (unfold conn0; destruct reset; [constructor|done]).
  destruct (seed_loop bundles max_sats precision conn0 0 seeds).2 as [count|] eqn:E;
    [|done].
  cbn [fmap option_fmap option_map]. intros [= <- <-].
  apply seed_loop_Some in E as (calls & Hcalls & -> & ->).
  destruct (upsert_all_appends conn0 calls Hnd0) as (H1 & H2 & H3).
  apply Forall2_length in Hcalls. rewrite <- Hcalls in H3.
  split; [lia|]. done.
Qed.

Lemma seed_requests_counts_witness :
  let bundles := [ {| b_slug := "stations"; b_kind := "satellite";
                      b_norad_ids := [25544; 20580] |} ] in
  let seeds := [ (seattle None, "2026-01-01T00:00:00Z");
                 (seattle (Some [20580; 25544]), "2026-01-01T00:00:01Z") ] in
  let result := seed_requests bundles 12 4 true legacy_conn seeds in
  result.2 = Some (2, 2) ∧ (length result.1 ≤ 2)%nat.
Proof.
  intros bundles seeds result.
  assert (result.2 = Some (2, 2)) as Hresult by (vm_compute; reflexivity).
  split; [exact Hresult|].
  destruct (seed_requests_counts bundles 12 4 true legacy_conn seeds 2 2)
    as (_ & _ & _ & _ & Hlen).
  - apply (bool_decide_unpack _). vm_compute. exact I.
  - exact Hresult.
  - exact Hlen.
Defined.

(** X28. Seeding again adds no row. After a run of [seed_requests] that
    returned, a second run without reset over entries of the same seed file
    returns as well, reports every entry as inserted, and leaves the list
    of stored keys as it is. *)
Theorem seed_requests_again
    (bundles : list Bundle) (max_sats : Z) (precision : nat) (reset : bool)
    (conn : Conn) (seeds seeds' : list (RequestedLocation * string)) :
  NoDup (keys conn) →
  (∀ seed', seed' ∈ seeds' → ∃ seed, seed ∈ seeds ∧ seed.1 = seed'.1) →
  let first := seed_requests bundles max_sats precision reset conn seeds in
  let second := seed_requests bundles max_sats precision false first.1 seeds' in
  is_Some first.2 →
  second.2 = Some (Z.of_nat (length seeds'), Z.of_nat (length seeds'))
  ∧ keys second.1 = keys first.1.
Proof.
  intros Hnd Hsame first second. unfold second, first, seed_requests. cbn [fst snd].
  set (conn0 := if reset then [] else conn).
  assert (NoDup (keys conn0)) as Hnd0 by (unfold conn0; destruct reset; [constructor|done]).
  destruct (seed_loop bundles max_sats precision conn0 0 seeds).2 as [count|] eqn:E;
    [|by intros [? ?]].
  intros _. apply seed_loop_Some in E as (calls & Hcalls & -> & _).
  assert (∃ calls',
            Forall2 (λ seed call,
                       seed_request bundles max_sats precision seed.1 = Some call.1.1
                       ∧ call.1.2 = precision ∧ call.2 = seed.2) seeds' calls'
            ∧ ∀ call', call' ∈ calls' →
                ∃ call, call ∈ calls ∧ call.1 = call'.1) as (calls' & Hcalls' & Hfrom).
  { clear second. induction seeds' as [|seed' seeds' IH].
    { exists []. split; [constructor|]. intros call' Hc. by apply elem_of_nil in Hc. }
    destruct IH as (calls' & Hcalls' & Hfrom).
    { intros s Hs. apply Hsame. by right. }
    destruct (Hsame seed') as (seed & Hseed & Heq); [left|].
    destruct (proj1 (list_elem_of_lookup _ _) Hseed) as [i Hi].
    destruct (Forall2_lookup_l _ _ _ _ _ Hcalls Hi) as (call & Hcall & Hreq & Hp & Hnow).
    exists ((call.1.1, precision, seed'.2) :: calls'). split.
    - constructor; [|done]. cbn [fst snd]. by rewrite <- Heq.
    - intros call' [->|Hc]%elem_of_cons; [|by apply Hfrom].
      exists call. split; [by eapply list_elem_of_lookup_2|].
      destruct call as [[request p] now]. cbn [fst snd] in *. by subst p. }
  rewrite (seed_loop_calls _ _ _ _ _ _ _ Hcalls'). cbn [fst snd fmap option_fmap option_map].
  split; [do 2 f_equal; lia|].
  destruct seeds' as [|seed0 seeds'']; [by inversion Hcalls'|].
  destruct (Hsame seed0) as (seed1 & Hseed1 & _); [left|].
  destruct calls as [|call calls];
    [inversion Hcalls; subst; by apply elem_of_nil in Hseed1|].
  assert (NoDup (keys (upsert_all conn0 (call :: calls)))
          ∧ ∀ row, row ∈ upsert_all conn0 (call :: calls) →
                   location_key_missing row = false) as [Hnd1 Hp1].
  { cbn [upsert_all foldl].
    destruct (upsert_request_wf conn0 call.1.1 call.1.2 call.2 Hnd0) as (Hnd' & Hp' & _).
    by apply upsert_all_wf. }
  apply upsert_all_recognised_keys; [done..|].
  intros call' Hcall'. destruct (Hfrom call' Hcall') as (call0 & Hcall0 & Heq).
  rewrite <- Heq. by apply (upsert_all_recognises_each conn0 (call :: calls) Hnd0).
Qed.

Lemma seed_requests_again_witness :
  let bundles := [ {| b_slug := "stations"; b_kind := "satellite";
                      b_norad_ids := [25544; 20580] |} ] in
  let seeds := [ (seattle None, "2026-01-01T00:00:00Z");
                 (seattle (Some [20580]), "2026-01-01T00:00:01Z") ] in
  let first := seed_requests bundles 12 4 true [] seeds in
  let second :=
    seed_requests bundles 12 4 false first.1 [ (seattle None, "2026-02-01T00:00:00Z") ] in
  second.2 = Some (1, 1) ∧ keys second.1 = keys first.1.
Proof.
  intros bundles seeds first second.
  apply (seed_requests_again bundles 12 4 true [] seeds
           [ (seattle None, "2026-02-01T00:00:00Z") ]).
  - constructor.
  - intros seed' Hseed'. apply list_elem_of_singleton in Hseed'. subst seed'.
    exists (seattle None, "2026-01-01T00:00:00Z"). split; [left|reflexivity].
  - vm_compute. eexists. reflexivity.
Defined.

(** ** build.py: the two passes of [build_all] over the requests *)

Lemma set_merged_loadable n b a f l row :
  loadable row → loadable (set_merged n b a f l row).
Proof. by rewrite !loadable_spec. Qed.

Lemma dedupe_fold_loadable todo st :
  (∀ row, row ∈ dd_conn st → loadable row) →
  ∀ row, row ∈ dd_conn (foldl dedupe_step st todo) → loadable row.
Proof.
  revert st. induction todo as [|record todo IH]; intros st Hload; [done|].
  cbn [foldl]. apply IH. unfold dedupe_step.
  destruct (dd_seen st !! _) as [existing|]; cbn [dd_conn]; [|done].
  intros row' [Hrow' _]%elem_of_delete. unfold merge_into in Hrow'.
  apply update_elem_of in Hrow' as (row & Hrow & ->).
  destruct (Sql.key_is _ row); [apply set_merged_loadable|]; by apply Hload.
Qed.

Lemma dedupe_requests_by_signature_loadable (conn : Conn) precision :
  NoDup (keys conn) →
  (∀ row, row ∈ conn → loadable row) →
  ∀ row, row ∈ (dedupe_requests_by_signature conn precision).1 → loadable row.
Proof.
  intros Hnd Hload. unfold dedupe_requests_by_signature. cbn [fst].
  apply dedupe_fold_loadable. cbn [dd_conn].
  rewrite ensure_location_keys_spec by done.
  intros row (row0 & -> & Hrow0)%list_elem_of_fmap. by apply backfill_loadable, Hload.
Qed.

(** X29. The first pass of [build_all]. On a table with unique keys whose rows
    can all be loaded, and with requests from the directory that passed the
    validators of [RequestedLocation] and whose slugs do not begin with
    ["--"], the pass does not raise: it returns one request per row of the
    table it leaves, in the order of [list_requests]; in that table keys
    are unique, every row has a location key, and no two rows share a
    signature, so that no two of the returned requests stand for the same
    location key, bundle and selection. *)
Theorem build_all_load_requests_returns (conn : Conn) precision loaded :
  NoDup (keys conn) →
  (∀ row, row ∈ conn → loadable row) →
  (∀ req, req ∈ loaded →
     validated req.1 = Some req.1 ∧ ∀ rest, r_slug req.1 ≠ Some ("--" +:+ rest)) →
  let result := build_all_load_requests conn precision loaded in
  result.2 = Some (requested_of_record <$> list_requests result.1)
  ∧ NoDup (keys result.1)
  ∧ NoDup (row_signature <$> result.1)
  ∧ (∀ row, row ∈ result.1 → location_key_missing row = false)
  ∧ (length result.1 ≤ length conn + length loaded)%nat.
Proof.
  intros Hnd Hload Hloaded result. unfold result, build_all_load_requests. cbn [fst snd].
  unfold migrate_yaml_requests. rewrite migrate_yaml_requests_conn.
  set (calls := (λ req, (req.1, precision, req.2)) <$> loaded).
  destruct (upsert_all_appends conn calls Hnd) as (Hnd1 & _ & Hlen).
  unfold calls in Hlen. rewrite length_fmap in Hlen. fold calls in Hlen.
  set (conn1 := upsert_all conn calls) in *.
  assert (∀ row, row ∈ conn1 → loadable row) as Hload1.
  { apply upsert_all_loadable; [done..|].
    intros call (req & -> & Hreq)%list_elem_of_fmap. by apply Hloaded. }
  rewrite ensure_location_keys_spec by done.
  set (conn2 := backfill precision <$> conn1).
  assert (NoDup (keys conn2)) as Hnd2 by (unfold conn2; by rewrite backfill_keys).
  assert (∀ row, row ∈ conn2 → loadable row) as Hload2.
  { intros row (row0 & -> & Hrow0)%list_elem_of_fmap. by apply backfill_loadable, Hload1. }
  destruct (dedupe_requests_by_signature_rows conn2 precision Hnd2)
    as (Hsig & Hnd3 & Hsub & Hp & Hcount).
  split; [|split; [done|split; [done|split; [done|]]]].
  - apply load_requests_from_db_loadable.
    by apply dedupe_requests_by_signature_loadable.
  - apply sublist_length in Hsub. unfold keys in Hsub. rewrite !length_fmap in Hsub.
    assert (length conn2 = length conn1) as Hl by (unfold conn2; apply length_fmap).
    lia.
Qed.

Lemma build_all_load_requests_returns_witness :
  let result :=
    build_all_load_requests legacy_conn 4
      [(seattle (Some [25544]), "2026-01-01T00:00:00Z");
       (blacksburg_request, "2026-01-02T00:00:00Z")] in
  result.2 = Some (requested_of_record <$> list_requests result.1)
  ∧ NoDup (row_signature <$> result.1).
Proof.
  destruct (build_all_load_requests_returns legacy_conn 4
              [(seattle (Some [25544]), "2026-01-01T00:00:00Z");
               (blacksburg_request, "2026-01-02T00:00:00Z")])
    as (Hok & _ & Hsig & _).
  - apply (bool_decide_unpack _). vm_compute. exact I.
  - apply (proj1 (Forall_forall loadable _)). repeat constructor.
  - apply (proj1 (Forall_forall
             (λ req : RequestedLocation * string,
                validated req.1 = Some req.1
                ∧ ∀ rest, r_slug req.1 ≠ Some ("--" +:+ rest)) _)).
    repeat constructor; intros rest; discriminate.
  - split; [exact Hok|exact Hsig].
Defined.

Lemma slice_to_sublist {A} (n : Z) (l : list A) : Py.slice_to n l `sublist_of` l.
Proof. unfold Py.slice_to. destruct (n <? 0); apply sublist_take. Qed.

(** Where the ids of a canonical selection come from: the stored selection
    or the available ids of the bundle. *)
Lemma canonical_selected_elem_of
    (bundle_available_ids : gmap string (list Z)) (max_satellites_per_request : Z)
    record x :
  x ∈ canonical_selected bundle_available_ids max_satellites_per_request record →
  x ∈ selected_norad_ids record
  ∨ x ∈ default [] (bundle_available_ids !! bundle_slug record).
Proof.
  unfold canonical_selected.
  set (available := default [] (bundle_available_ids !! bundle_slug record)).
  set (selected1 := match normalize_norad_ids (Some (selected_norad_ids record)) with
                    | [] => default_selection (Some available) max_satellites_per_request
                    | _ => normalize_norad_ids (Some (selected_norad_ids record))
                    end).
  set (selected2 := match selected1 with
                    | [] => selected1
                    | _ => if max_satellites_per_request <? Z.of_nat (length selected1)
                           then Py.slice_to max_satellites_per_request selected1
                           else selected1
                    end).
  intros Hx.
  pose proof (canonicalize_selection_sublist (Some selected2) (Some available)) as Hsub.
  apply (elem_of_sublist _ _ _ Hx) in Hsub. apply elem_of_normalize in Hsub.
  cbn [Py.seq_of from_option id] in Hsub.
  assert (x ∈ selected1) as H1.
  { unfold selected2 in Hsub. destruct selected1 as [|y k]; [done|].
    destruct (max_satellites_per_request <? _); [|done].
    by apply (elem_of_sublist _ _ _ Hsub), slice_to_sublist. }
  unfold selected1 in H1.
  destruct (normalize_norad_ids (Some (selected_norad_ids record))) as [|y k] eqn:E.
  - right. unfold default_selection in H1.
    destruct (normalize_norad_ids (Some available)) as [|a av] eqn:Ea;
      [by apply elem_of_nil in H1|].
    pose proof (slice_to_sublist max_satellites_per_request (a :: av)) as Hslice.
    apply (elem_of_sublist _ _ _ H1) in Hslice.
    rewrite <- Ea in Hslice. by apply elem_of_normalize in Hslice.
  - left. rewrite <- E in H1. by apply elem_of_normalize in H1.
Qed.

Lemma canonicalize_step_loadable
    (bundle_available_ids : gmap string (list Z)) (max_satellites_per_request : Z)
    conn n record todo :
  (∀ bundle ids x, bundle_available_ids !! bundle = Some ids → x ∈ ids → 0 < x) →
  canon_inv (record :: todo) conn →
  (∀ row, row ∈ conn → loadable row) →
  ∀ row, row ∈ (canonicalize_step bundle_available_ids max_satellites_per_request
                  (conn, n) record).1 →
         loadable row.
Proof.
  intros Hpos Hcanon Hload row'.
  destruct (needs_rewrite bundle_available_ids max_satellites_per_request record) eqn:E.
  - rewrite canonicalize_step_write by done.
    destruct (get_request_by_key conn _) as [existing|]; cbn [fst].
    + intros [Hrow' _]%elem_of_delete. unfold merge_into in Hrow'.
      apply update_elem_of in Hrow' as (row & Hrow & ->).
      destruct (Sql.key_is _ row); [apply set_merged_loadable|]; by apply Hload.
    + intros (row & Hrow & ->)%update_elem_of.
      destruct (Sql.key_is _ row) eqn:Ekey; [|by apply Hload].
      apply bool_decide_eq_true in Ekey.
      pose proof (canon_inv_head conn record todo row Hcanon Hrow Ekey) as Hcore.
      revert Hcore. unfold core. intros [= _ _ _ Hsel].
      cbn [record_of_row selected_norad_ids] in Hsel.
      pose proof (Hload row Hrow) as (Hslug & Hlat & Hlon & Hids)%loadable_spec.
      apply loadable_spec.
      cbn [set_key_and_selection col_location_slug col_lat col_lon col_selected_norad_ids
           Py.seq_of from_option id].
      split; [done|]. split; [done|]. split; [done|].
      cbn [validate_selected_norad_ids] in *. apply forallb_forall.
      intros x Hx%list_elem_of_In. apply negb_true_iff, Z.leb_gt.
      apply canonical_selected_elem_of in Hx as [Hx|Hx].
      * rewrite <- Hsel in Hx. rewrite forallb_forall in Hids.
        apply list_elem_of_In, Hids in Hx. by apply negb_true_iff, Z.leb_gt in Hx.
      * destruct (bundle_available_ids !! bundle_slug record) as [ids|] eqn:Eids;
          [|by apply elem_of_nil in Hx].
        by apply (Hpos _ _ _ Eids).
  - rewrite canonicalize_step_skip by done. apply Hload.
Qed.

Lemma canonicalize_fold_loadable
    (bundle_available_ids : gmap string (list Z)) (max_satellites_per_request : Z)
    todo conn n :
  (∀ bundle ids x, bundle_available_ids !! bundle = Some ids → x ∈ ids → 0 < x) →
  canon_inv todo conn →
  (∀ row, row ∈ conn → loadable row) →
  ∀ row, row ∈ (foldl (canonicalize_step bundle_available_ids max_satellites_per_request)
                  (conn, n) todo).1 →
         loadable row.
Proof.
  intros Hpos. revert conn n.
  induction todo as [|record todo IH]; intros conn n Hcanon Hload; [done|].
  cbn [foldl].
  pose proof (canon_inv_step bundle_available_ids max_satellites_per_request
                conn n record todo Hcanon) as Hcanon'.
  pose proof (canonicalize_step_loadable bundle_available_ids max_satellites_per_request
                conn n record todo Hpos Hcanon Hload) as Hload'.
  destruct (canonicalize_step bundle_available_ids max_satellites_per_request
              (conn, n) record) as [conn1 n1].
  by apply IH.
Qed.

(** X30. The second pass of [build_all]. On a table with unique keys whose rows
    can all be loaded, and with available ids that are all positive, the
    canonicalization followed by the deduplication and the reload does not
    raise: it returns one request per row of the table it leaves, in the
    order of [list_requests]; keys are unique there, no two rows share a
    signature, every row has a location key, and no row was added. *)
Theorem build_all_canonicalize_returns
    (conn : Conn) (bundle_available_ids : gmap string (list Z))
    (max_satellites_per_request : Z) (precision : nat) :
  NoDup (keys conn) →
  (∀ row, row ∈ conn → loadable row) →
  (∀ bundle ids x, bundle_available_ids !! bundle = Some ids → x ∈ ids → 0 < x) →
  let result :=
    build_all_canonicalize conn bundle_available_ids max_satellites_per_request precision in
  result.2 = Some (requested_of_record <$> list_requests result.1)
  ∧ NoDup (keys result.1)
  ∧ NoDup (row_signature <$> result.1)
  ∧ (∀ row, row ∈ result.1 → location_key_missing row = false)
  ∧ (length result.1 ≤ length conn)%nat.
Proof.
  intros Hnd Hload Hpos result. unfold result, build_all_canonicalize. cbn [fst snd].
  set (conn1 := (canonicalize_requests conn bundle_available_ids
                   max_satellites_per_request).1).
  assert (NoDup (keys conn1)) as Hnd1.
  { unfold conn1, canonicalize_requests. by apply canon_inv_fold, canon_inv_init. }
  assert (∀ row, row ∈ conn1 → loadable row) as Hload1.
  { unfold conn1, canonicalize_requests.
    apply canonicalize_fold_loadable; [done|by apply canon_inv_init|done]. }
  assert (length conn1 ≤ length conn)%nat as Hlen1.
  { unfold conn1, canonicalize_requests. apply canonicalize_fold_rows. }
  destruct (dedupe_requests_by_signature_rows conn1 precision Hnd1)
    as (Hsig & Hnd2 & Hsub & Hp & Hcount).
  split; [|split; [done|split; [done|split; [done|]]]].
  - apply load_requests_from_db_loadable.
    by apply dedupe_requests_by_signature_loadable.
  - apply sublist_length in Hsub. unfold keys in Hsub. rewrite !length_fmap in Hsub. lia.
Qed.

Lemma build_all_canonicalize_returns_witness :
  let result := build_all_canonicalize legacy_conn {[ "stations" := [25544; 20580] ]} 1 4 in
  result.2 = Some (requested_of_record <$> list_requests result.1)
  ∧ (length result.1 ≤ 3)%nat.
Proof.
  destruct (build_all_canonicalize_returns legacy_conn
              {[ "stations" := [25544; 20580] ]} 1 4) as (Hok & _ & _ & _ & Hlen).
  - apply (bool_decide_unpack _). vm_compute. exact I.
  - apply (proj1 (Forall_forall loadable _)). repeat constructor.
  - intros bundle ids x Hlook Hx.
    apply lookup_singleton_Some in Hlook as [_ <-].
    repeat (apply elem_of_cons in Hx as [->|Hx]; [lia|]). by apply elem_of_nil in Hx.
  - split; [exact Hok|exact Hlen].
Defined.
